(** * wsframe: WebSocket frame construction and incremental parsing

    A shallow embedding of [include/wsframe/wsframe.hpp]: the growable byte
    buffer [FrameBuffer], the generator [XorShift128Plus] behind the masking
    keys, [Frame::construct], the [FrameFactory] and the incremental
    [FrameParser], followed by the properties established about them.

    Conventions of the embedding.
    - [std::uint8_t] is [byte]; [byte.unsigned] and [byte.of_Z] are the
      conversions to and from the integers ([static_cast<std::uint8_t>]
      reduces modulo 256).
    - [std::uint64_t] and [std::size_t] values are integers in [Z].  Sizes of
      and offsets into live objects stay below [2^64], so sums of them are
      written without reduction; where the source subtracts ([remaining]) or
      computes on 64-bit words ([next64]) the wrap-around is written out.
    - A pointer into the storage of a [FrameBuffer] is the offset from
      [head()].  The stores without bounds checking ([push_back] of a byte,
      the writes through the result of [get_space]) are fallible: they give
      [None] when the offset lies outside the vector.
    - A [std::string_view] or [FrameBuffer::View] is the list of the bytes
      it denotes at the time it is made.
    - [memcpy] copies the source bytes as they were before the call.
    - A member that its constructor leaves uninitialised ([m_frame] of
      [FrameParser]) holds indeterminate values: they are an argument of
      the constructor in the embedding, and what is proved holds for every
      value of it. *)

From Stdlib Require Import ZArith Lia Bool String.
From coqutil Require Import Byte.
From stdpp Require Import base option list.

Local Open Scope Z_scope.

(** ** Machine integers *)

Definition zlen {A} (l : list A) : Z := Z.of_nat (length l).

(** Conversion to [std::uint64_t]. *)
Definition to_uint64 (z : Z) : Z := z mod 2 ^ 64.

(** Conversion to a 32-bit [int], two's complement. *)
Definition to_int (z : Z) : Z := (z + 2 ^ 31) mod 2 ^ 32 - 2 ^ 31.

(** [a << count] on operands of type [int].  The count is taken modulo 32,
    as the shift instructions of x86-64 and AArch64 take it (the language
    leaves a count of 32 or more undefined); a result that does not fit is
    reduced to 32 bits. *)
Definition int_shl (a count : Z) : Z := to_int (Z.shiftl a (count mod 32)).

(** [a - b] on [std::size_t] operands below [2^64]. *)
Definition size_sub (a b : Z) : Z := if b <=? a then a - b else a - b + 2 ^ 64.

(** The [n] low bytes of a 64-bit word in the order of a little-endian
    host, which is what [memcpy] from a [std::uint64_t] reads. *)
Fixpoint le_bytes (n : nat) (w : Z) : list byte :=
  match n with
  | O => []
  | S k => byte.of_Z w :: le_bytes k (Z.shiftr w 8)
  end.

(** ** Stores into a vector of bytes *)

(** [m[i] = b] without bounds checking. *)
Definition poke (i : Z) (b : byte) (m : list byte) : option (list byte) :=
  if (0 <=? i) && (i <? zlen m) then Some (<[Z.to_nat i := b]> m) else None.

(** [memcpy(m + dst, src, length src)]. *)
Fixpoint memcpy (dst : Z) (src : list byte) (m : list byte) : option (list byte) :=
  match src with
  | [] => Some m
  | x :: xs => m' ← poke dst x m; memcpy (dst + 1) xs m'
  end.

(** The bytes [m[off .. off + n)]. *)
Definition slice (off n : Z) (m : list byte) : list byte :=
  take (Z.to_nat n) (drop (Z.to_nat off) m).

(** ** class XorShift128Plus *)

Module XorShift128Plus.

Record t := mk { s0 : Z; s1 : Z }.

Definition new (seed1 seed2 : Z) : t :=
  let seed2 := if (seed1 =? 0) && (seed2 =? 0) then 1 else seed2 in
  mk seed1 seed2.

Definition next64 (g : t) : Z * t :=
  let x := s0 g in
  let y := s1 g in
  let x := Z.lxor x (to_uint64 (Z.shiftl x 23)) in
  let s1' := Z.lxor (Z.lxor (Z.lxor x y) (Z.shiftr x 17)) (Z.shiftr y 26) in
  (to_uint64 (s1' + y), mk y s1').

(** [fill_bytes(buf, n)]: the [n] bytes written to [buf].  [fuel] bounds
    the iterations of the loop; [fill_bytes] below supplies enough. *)
Fixpoint fill_bytes_loop (fuel : nat) (n : Z) (g : t) : list byte * t :=
  match fuel with
  | O => ([], g)
  | S k =>
      if 8 <=? n then
        let '(rnd, g) := next64 g in
        let '(rest, g) := fill_bytes_loop k (n - 8) g in
        (le_bytes 8 rnd ++ rest, g)
      else if 0 <? n then
        let '(rnd, g) := next64 g in
        (le_bytes (Z.to_nat n) rnd, g)
      else ([], g)
  end.

Definition fill_bytes (n : Z) (g : t) : list byte * t :=
  fill_bytes_loop (S (Z.to_nat (n / 8))) n g.

End XorShift128Plus.

(** ** class FrameBuffer *)

Module FrameBuffer.

Record t := mk { m_buf : list byte; m_ptr : Z }.

Definition new (initial_capacity : Z) : t :=
  mk (replicate (Z.to_nat initial_capacity) Byte.x00) 0.

Definition capacity (b : t) : Z := zlen (m_buf b).

Definition reset (b : t) : t := mk (m_buf b) 0.

(** [std::vector::resize]: the first [sz] elements are kept, new ones are
    zero. *)
Definition resize (sz : Z) (m : list byte) : list byte :=
  take (Z.to_nat sz) m ++ replicate (Z.to_nat sz - length m) Byte.x00.

Definition ensure_fit (sz : Z) (b : t) : t :=
  if capacity b <? sz then mk (resize sz (m_buf b)) (m_ptr b) else b.

Definition ensure_extra_space (extra : Z) (b : t) : t :=
  ensure_fit (m_ptr b + extra) b.

(** [push_back(uint8_t)], no bounds checking. *)
Definition push_back (x : byte) (b : t) : option t :=
  m ← poke (m_ptr b) x (m_buf b);
  Some (mk m (m_ptr b + 1)).

(** [get_space(sz)]: the pointer handed out and the buffer with its
    cursor advanced. *)
Definition get_space (sz : Z) (b : t) : Z * t :=
  (m_ptr b, mk (m_buf b) (m_ptr b + sz)).

Definition claim_space (sz : Z) (b : t) : t := mk (m_buf b) (m_ptr b + sz).

(** [*ptr = x] for a pointer obtained from [get_space]. *)
Definition store (ptr : Z) (x : byte) (b : t) : option t :=
  m ← poke ptr x (m_buf b);
  Some (mk m (m_ptr b)).

(** [std::memcpy(ptr, src, length src)] for such a pointer. *)
Definition store_bytes (ptr : Z) (src : list byte) (b : t) : option t :=
  m ← memcpy ptr src (m_buf b);
  Some (mk m (m_ptr b)).

(** [push_back(const View&)] and [push_back(const std::string_view&)]. *)
Definition push_back_view (view : list byte) (b : t) : option t :=
  let b := ensure_extra_space (zlen view) b in
  let '(ptr, b) := get_space (zlen view) b in
  store_bytes ptr view b.

(** [head()] and [tail()], as offsets into the storage. *)
Definition head (b : t) : Z := 0.
Definition tail (b : t) : Z := m_ptr b.

Definition size (b : t) : Z := m_ptr b.

(** [view<View>()] and [view<std::string_view>()]. *)
Definition view (b : t) : list byte := slice 0 (m_ptr b) (m_buf b).

End FrameBuffer.

(** ** struct Frame *)

(** [enum class Opcode : uint8_t]: a byte with named values;
    [static_cast<Opcode>] of a byte is the identity. *)
Definition Opcode := byte.

Module Opcode.
Definition CONTINUATION : Opcode := Byte.x00.
Definition TEXT : Opcode := Byte.x01.
Definition BINARY : Opcode := Byte.x02.
Definition CLOSE : Opcode := Byte.x08.
Definition PING : Opcode := Byte.x09.
Definition PONG : Opcode := Byte.x0a.
Definition UNKNOWN : Opcode := Byte.x0b.
End Opcode.

(** [Frame::opcode_to_string]: the [switch] over the named values, with its
    [default]. *)
Definition opcode_to_string (code : Opcode) : string :=
  match code with
  | Byte.x00 => "Opcode::CONTINUATION"
  | Byte.x01 => "Opcode::TEXT"
  | Byte.x02 => "Opcode::BINARY"
  | Byte.x08 => "Opcode::CLOSE"
  | Byte.x09 => "Opcode::PING"
  | Byte.x0a => "Opcode::PONG"
  | _ => "Opcode::UNKNOWN"
  end.

(** [std::array<std::uint8_t, 4>]. *)
Record array4 := mk_array4 { a0 : byte; a1 : byte; a2 : byte; a3 : byte }.

(** [k[i]] for [i] in [0 .. 3]. *)
Definition array4_get (k : array4) (i : Z) : byte :=
  match i with
  | 0 => a0 k
  | 1 => a1 k
  | 2 => a2 k
  | _ => a3 k
  end.

Definition array4_data (k : array4) : list byte := [a0 k; a1 k; a2 k; a3 k].

Record Frame := mk_Frame {
  fin : bool;
  mask : bool;
  opcode : Opcode;
  masking_key : array4;
  payload : list byte
}.

(** [Frame{}]: every member zero, the payload empty. *)
Definition Frame_zero : Frame :=
  mk_Frame false false Opcode.CONTINUATION
    (mk_array4 Byte.x00 Byte.x00 Byte.x00 Byte.x00) [].

Definition byte_xor (a b : byte) : byte :=
  byte.of_Z (Z.lxor (byte.unsigned a) (byte.unsigned b)).

(** The 8-byte length of [Frame::construct]:
    [for (int i = 7; i >= 0; i--) { *ptr = (payload_length >> (8 * i)) & 0xFF; ptr++; }]
    with [n] the number of iterations left. *)
Fixpoint write_length64 (n : nat) (payload_length : Z) (ptr : Z)
    (buf : FrameBuffer.t) : option FrameBuffer.t :=
  match n with
  | O => Some buf
  | S i =>
      buf ← FrameBuffer.store ptr
        (byte.of_Z (Z.land (Z.shiftr payload_length (8 * Z.of_nat i)) 255)) buf;
      write_length64 i payload_length (ptr + 1) buf
  end.

(** The masking loop of [Frame::construct]:
    [ptr[i] = payload_data[i] ^ masking_key[i % 4]], from index [i] on, over
    the payload bytes still to be written. *)
Fixpoint write_masked (key : array4) (payload_data : list byte) (i : Z)
    (ptr : Z) (buf : FrameBuffer.t) : option FrameBuffer.t :=
  match payload_data with
  | [] => Some buf
  | x :: rest =>
      buf ← FrameBuffer.store (ptr + i) (byte_xor x (array4_get key (i mod 4))) buf;
      write_masked key rest (i + 1) ptr buf
  end.

Definition Frame_construct (f : Frame) (buf : FrameBuffer.t) : option FrameBuffer.t :=
  let buf := FrameBuffer.reset buf in
  let buf := FrameBuffer.ensure_fit (zlen (payload f) + 14 + 100) buf in
  buf ← FrameBuffer.push_back
    (byte.of_Z (Z.lor (if fin f then 128 else 0)
                      (Z.land (byte.unsigned (opcode f)) 15))) buf;
  let mask_bit := if mask f then 128 else 0 in
  let payload_length := zlen (payload f) in
  buf ←
    (if payload_length <? 126 then
       FrameBuffer.push_back
         (byte.of_Z (Z.lor mask_bit (byte.unsigned (byte.of_Z payload_length)))) buf
     else if payload_length <=? 65535 then
       buf ← FrameBuffer.push_back (byte.of_Z (Z.lor mask_bit 126)) buf;
       buf ← FrameBuffer.push_back
         (byte.of_Z (Z.land (Z.shiftr payload_length 8) 255)) buf;
       FrameBuffer.push_back (byte.of_Z (Z.land payload_length 255)) buf
     else
       buf ← FrameBuffer.push_back (byte.of_Z (Z.lor mask_bit 127)) buf;
       let '(ptr, buf) := FrameBuffer.get_space 8 buf in
       write_length64 8 payload_length ptr buf);
  if mask f then
    let '(kptr, buf) := FrameBuffer.get_space 4 buf in
    buf ← FrameBuffer.store_bytes kptr (array4_data (masking_key f)) buf;
    let '(ptr, buf) := FrameBuffer.get_space payload_length buf in
    write_masked (masking_key f) (payload f) 0 ptr buf
  else
    let '(ptr, buf) := FrameBuffer.get_space payload_length buf in
    FrameBuffer.store_bytes ptr (payload f) buf.

(** ** class FrameFactory *)

(** [std::runtime_error] with its message. *)
Inductive exn := runtime_error (what : string).

(** What a call that may throw hands back. *)
Inductive outcome (A : Type) :=
  | Returned (a : A)
  | Thrown (e : exn).
Arguments Returned {A} a.
Arguments Thrown {A} e.

(** [RandomCache<8>]. *)
Module RandomCache.

Definition entries : Z := 8.

Record t := mk {
  m_random : XorShift128Plus.t;
  m_cache : list byte;
  m_cache_ptr : Z
}.

Definition fill_cache (c : t) : t :=
  let '(bytes, g) := XorShift128Plus.fill_bytes (entries * 4) (m_random c) in
  mk g bytes 0.

(** The constructor, given the two results of [device_random()]. *)
Definition new (seed1 seed2 : Z) : t :=
  fill_cache (mk (XorShift128Plus.new seed1 seed2) [] 0).

Definition cache_at (c : t) (i : Z) : byte :=
  default Byte.x00 (m_cache c !! Z.to_nat i).

Definition get (c : t) : array4 * t :=
  let c := if entries * 4 <=? m_cache_ptr c then fill_cache c else c in
  let p := m_cache_ptr c in
  (mk_array4 (cache_at c p) (cache_at c (p + 1)) (cache_at c (p + 2))
     (cache_at c (p + 3)),
   mk (m_random c) (m_cache c) (p + 4)).

End RandomCache.

Module FrameFactory.

Record t := mk { m_buf : FrameBuffer.t; m_random : RandomCache.t }.

Definition new (seed1 seed2 : Z) (initial_capacity : Z) : t :=
  mk (FrameBuffer.new initial_capacity) (RandomCache.new seed1 seed2).

Definition fill_random_cache (ff : t) : t :=
  mk (m_buf ff) (RandomCache.fill_cache (m_random ff)).

(** [construct]: the view returned and the factory afterwards.  The
    masking key of a frame built with [mask = false] is never written to
    the wire; it is taken as zero. *)
Definition construct (fin : bool) (opcode : Opcode) (mask : bool)
    (payload : list byte) (ff : t) : option (list byte * t) :=
  let '(key, rc) :=
    if mask then RandomCache.get (m_random ff)
    else (masking_key Frame_zero, m_random ff) in
  let frame := mk_Frame fin mask opcode key payload in
  buf ← Frame_construct frame (m_buf ff);
  Some (FrameBuffer.view buf, mk buf rc).

Definition returned (r : option (list byte * t)) : option (outcome (list byte) * t) :=
  '(bytes, ff) ← r; Some (Returned bytes, ff).

Definition text (fin mask : bool) (payload : list byte) (ff : t) :=
  construct fin Opcode.TEXT mask payload ff.

Definition binary (fin mask : bool) (payload : list byte) (ff : t) :=
  construct fin Opcode.BINARY mask payload ff.

Definition ping (mask : bool) (payload : list byte) (ff : t)
    : option (outcome (list byte) * t) :=
  if zlen payload >? 125 then
    Some (Thrown (runtime_error "Payload should be <= 125 for ping frames"), ff)
  else returned (construct true Opcode.PING mask payload ff).

Definition pong (mask : bool) (payload : list byte) (ff : t)
    : option (outcome (list byte) * t) :=
  if zlen payload >? 125 then
    Some (Thrown (runtime_error "Payload should be <= 125 for pong frames"), ff)
  else returned (construct true Opcode.PONG mask payload ff).

Definition close (mask : bool) (payload : list byte) (ff : t)
    : option (outcome (list byte) * t) :=
  if zlen payload >? 125 then
    Some (Thrown (runtime_error "Payload should be <= 125 for close frames"), ff)
  else returned (construct true Opcode.CLOSE mask payload ff).

End FrameFactory.

(** ** class FrameParser *)

Inductive ParseStage :=
  | FIN_BIT
  | OPCODE
  | MASK_BIT
  | PAYLOAD_LEN
  | EXTENDED_PAYLOAD_LEN_16
  | EXTENDED_PAYLOAD_LEN_64
  | MASKING_KEY
  | PAYLOAD_DATA
  | DONE.

#[global] Instance ParseStage_eq_dec : EqDecision ParseStage.
Proof. solve_decision. Defined.

Module FrameParser.

Record t := mk {
  m_parse_stage : ParseStage;
  m_frame : Frame;
  m_frame_buffer : FrameBuffer.t;
  m_payload_len : Z;
  m_ptr : Z
}.

(** [FrameParser()].  The constructor is empty and [Frame m_frame;] has
    no initialiser: [fin], [mask], [opcode] and [masking_key] start with
    whatever the storage of the object holds, the members of
    [indeterminate]; [payload], a [std::string_view], starts empty.  The
    other members have default member initialisers.  Only [reset] and
    [clear] set [m_frame] to [Frame{}]. *)
Definition new (indeterminate : Frame) : t :=
  mk FIN_BIT
    (mk_Frame (fin indeterminate) (mask indeterminate) (opcode indeterminate)
       (masking_key indeterminate) [])
    (FrameBuffer.new 4096) 0 0.

Definition set_stage (s : ParseStage) (p : t) : t :=
  mk s (m_frame p) (m_frame_buffer p) (m_payload_len p) (m_ptr p).
Definition set_frame (f : Frame) (p : t) : t :=
  mk (m_parse_stage p) f (m_frame_buffer p) (m_payload_len p) (m_ptr p).
Definition set_payload_len (n : Z) (p : t) : t :=
  mk (m_parse_stage p) (m_frame p) (m_frame_buffer p) n (m_ptr p).
Definition set_ptr (n : Z) (p : t) : t :=
  mk (m_parse_stage p) (m_frame p) (m_frame_buffer p) (m_payload_len p) n.
Definition set_frame_buffer (b : FrameBuffer.t) (p : t) : t :=
  mk (m_parse_stage p) (m_frame p) b (m_payload_len p) (m_ptr p).

Definition set_fin (b : bool) (f : Frame) : Frame :=
  mk_Frame b (mask f) (opcode f) (masking_key f) (payload f).
Definition set_mask (b : bool) (f : Frame) : Frame :=
  mk_Frame (fin f) b (opcode f) (masking_key f) (payload f).
Definition set_opcode (o : Opcode) (f : Frame) : Frame :=
  mk_Frame (fin f) (mask f) o (masking_key f) (payload f).
Definition set_masking_key (k : array4) (f : Frame) : Frame :=
  mk_Frame (fin f) (mask f) (opcode f) k (payload f).
Definition set_payload (d : list byte) (f : Frame) : Frame :=
  mk_Frame (fin f) (mask f) (opcode f) (masking_key f) d.

Definition remaining (p : t) : Z :=
  size_sub (FrameBuffer.size (m_frame_buffer p)) (m_ptr p).

(** [*(m_frame_buffer.head() + m_ptr)]; every call is guarded by
    [remaining]. *)
Definition read (p : t) : byte :=
  default Byte.x00 (FrameBuffer.m_buf (m_frame_buffer p) !! Z.to_nat (m_ptr p)).

Definition consume (p : t) : byte * t := (read p, set_ptr (m_ptr p + 1) p).

(** The stage after the length is known. *)
Definition after_length (p : t) : ParseStage :=
  if mask (m_frame p) then MASKING_KEY else PAYLOAD_DATA.

Definition check_fin_bit (p : t) : t :=
  if bool_decide (m_parse_stage p ≠ FIN_BIT) || (remaining p =? 0) then p
  else
    let p := set_frame
      (set_fin (negb (Z.land (byte.unsigned (read p)) 128 =? 0)) (m_frame p)) p in
    set_stage OPCODE p.

Definition check_opcode (p : t) : t :=
  if bool_decide (m_parse_stage p ≠ OPCODE) || (remaining p =? 0) then p
  else
    let '(x, p) := consume p in
    let p := set_frame
      (set_opcode (byte.of_Z (Z.land (byte.unsigned x) 15)) (m_frame p)) p in
    set_stage MASK_BIT p.

Definition check_mask_bit (p : t) : t :=
  if bool_decide (m_parse_stage p ≠ MASK_BIT) || (remaining p =? 0) then p
  else
    let p := set_frame
      (set_mask (negb (Z.land (byte.unsigned (read p)) 128 =? 0)) (m_frame p)) p in
    set_stage PAYLOAD_LEN p.

Definition check_payload_len (p : t) : t :=
  if bool_decide (m_parse_stage p ≠ PAYLOAD_LEN) || (remaining p =? 0) then p
  else
    let '(x, p) := consume p in
    let len := Z.land (byte.unsigned x) 127 in
    if len =? 126 then set_stage EXTENDED_PAYLOAD_LEN_16 p
    else if len =? 127 then set_stage EXTENDED_PAYLOAD_LEN_64 p
    else
      let p := set_payload_len len p in
      set_stage (after_length p) p.

Definition check_extended_payload_len_16 (p : t) : t :=
  if bool_decide (m_parse_stage p ≠ EXTENDED_PAYLOAD_LEN_16) || (remaining p <? 2)
  then p
  else
    let '(x, p) := consume p in
    let left := byte.unsigned x in
    let '(y, p) := consume p in
    let right := byte.unsigned y in
    let p := set_payload_len (Z.lor (to_uint64 (Z.shiftl left 8)) right) p in
    set_stage (after_length p) p.

(** [for (int i = 7; i >= 0; i--) { m_payload_len |= consume() << 8 * i; }]
    with [n] the number of iterations left.  [consume()] is a
    [std::uint8_t], promoted to [int]; the shift is the one of [int], and
    its result is converted to [std::uint64_t] for the [|=]. *)
Fixpoint read_length64 (n : nat) (p : t) : t :=
  match n with
  | O => p
  | S i =>
      let '(x, p) := consume p in
      let p := set_payload_len
        (Z.lor (m_payload_len p)
           (to_uint64 (int_shl (byte.unsigned x) (8 * Z.of_nat i)))) p in
      read_length64 i p
  end.

Definition check_extended_payload_len_64 (p : t) : t :=
  if bool_decide (m_parse_stage p ≠ EXTENDED_PAYLOAD_LEN_64) || (remaining p <? 8)
  then p
  else
    let p := set_payload_len 0 p in
    let p := read_length64 8 p in
    set_stage (after_length p) p.

Definition check_masking_key (p : t) : t :=
  if bool_decide (m_parse_stage p ≠ MASKING_KEY) || (remaining p <? 4) then p
  else
    let '(k0, p) := consume p in
    let '(k1, p) := consume p in
    let '(k2, p) := consume p in
    let '(k3, p) := consume p in
    let p := set_frame (set_masking_key (mk_array4 k0 k1 k2 k3) (m_frame p)) p in
    set_stage PAYLOAD_DATA p.

Definition check_payload_data (p : t) : t :=
  if bool_decide (m_parse_stage p ≠ PAYLOAD_DATA)
     || (remaining p <? m_payload_len p) then p
  else if m_payload_len p =? 0 then set_stage DONE p
  else
    let view := slice (m_ptr p) (m_payload_len p)
                  (FrameBuffer.m_buf (m_frame_buffer p)) in
    let p := set_frame (set_payload view (m_frame p)) p in
    let p := set_ptr (m_ptr p + m_payload_len p) p in
    set_stage DONE p.

Definition done (p : t) : bool := bool_decide (m_parse_stage p = DONE).

(** [parse]: the checks in the order of the source. *)
Definition run_checks (p : t) : t :=
  let p := check_fin_bit p in
  let p := check_opcode p in
  let p := check_mask_bit p in
  let p := check_payload_len p in
  let p := check_extended_payload_len_16 p in
  let p := check_extended_payload_len_64 p in
  let p := check_masking_key p in
  check_payload_data p.

Definition parse (p : t) : option Frame * t :=
  let p := run_checks p in
  if negb (done p) then (None, p) else (Some (m_frame p), p).

(** The common tail of the [update] overloads:
    [if (remaining() == 0) return {}; return parse();] *)
Definition parse_if_remaining (p : t) : option Frame * t :=
  if remaining p =? 0 then (None, p) else parse p.

(** [reset]: the bytes not yet consumed move to the front.  [previous]
    is a view into the buffer's own storage; it fits the capacity, so
    [push_back] does not reallocate under it.  The [memcpy] inside copies
    from [head() + m_ptr] to [head()]; the two ranges overlap when more
    bytes are left than were consumed, and the bytes copied are taken as
    they were before the call. *)
Definition reset (p : t) : option t :=
  buf ←
    (if remaining p >? 0 then
       let previous := slice (m_ptr p) (remaining p)
                         (FrameBuffer.m_buf (m_frame_buffer p)) in
       FrameBuffer.push_back_view previous (FrameBuffer.reset (m_frame_buffer p))
     else Some (FrameBuffer.reset (m_frame_buffer p)));
  Some (mk FIN_BIT Frame_zero buf 0 0).

Definition clear (p : t) : t :=
  mk FIN_BIT Frame_zero (FrameBuffer.reset (m_frame_buffer p)) 0 0.

(** [update(const FrameBuffer::View&)] and
    [update(const std::string_view&)], which have the same body. *)
Definition update (view : list byte) (p : t) : option (option Frame * t) :=
  p ← (if done p then reset p else Some p);
  if negb (zlen view =? 0) then
    buf ← FrameBuffer.push_back_view view (m_frame_buffer p);
    Some (parse_if_remaining (set_frame_buffer buf p))
  else if bool_decide (m_parse_stage p ≠ FIN_BIT) then Some (None, p)
  else Some (parse_if_remaining p).

(** [update(bool new_data)]. *)
Definition update_bool (new_data : bool) (p : t) : option (option Frame * t) :=
  p ← (if done p then reset p else Some p);
  if negb new_data && bool_decide (m_parse_stage p ≠ FIN_BIT) then Some (None, p)
  else Some (parse_if_remaining p).

(** [frame_buffer()] hands out a reference to the buffer of the parser. *)
Definition frame_buffer (p : t) : FrameBuffer.t := m_frame_buffer p.

(** What the caller does to the buffer through that reference. *)
Definition through_frame_buffer (f : FrameBuffer.t → option FrameBuffer.t) (p : t)
    : option t :=
  b ← f (frame_buffer p); Some (set_frame_buffer b p).

End FrameParser.

(** * The vocabulary of the statements *)

(** ** The bytes of a frame on the wire *)

(** The [n] low bytes of [v], most significant first. *)
Fixpoint be_bytes (n : nat) (v : Z) : list byte :=
  match n with
  | O => []
  | S i => byte.of_Z (Z.land (Z.shiftr v (8 * Z.of_nat i)) 255) :: be_bytes i v
  end.

(** The unsigned integer whose big-endian bytes are [bs]. *)
Definition be_value (bs : list byte) : Z :=
  fold_left (λ acc x, acc * 256 + byte.unsigned x) bs 0.

(** The payload bytes from index [i] on, each XORed with [key[i mod 4]]. *)
Fixpoint mask_from (key : array4) (i : Z) (data : list byte) : list byte :=
  match data with
  | [] => []
  | x :: rest => byte_xor x (array4_get key (i mod 4)) :: mask_from key (i + 1) rest
  end.

(** Each byte XORed with the key byte at its position modulo 4. *)
Definition xor_with_key (key : array4) (data : list byte) : list byte :=
  imap (λ i x, byte_xor x (array4_get key (Z.of_nat i mod 4))) data.

Definition wire_first (f : Frame) : byte :=
  byte.of_Z (Z.lor (if fin f then 128 else 0) (Z.land (byte.unsigned (opcode f)) 15)).

Definition wire_length (f : Frame) : list byte :=
  let mask_bit := if mask f then 128 else 0 in
  let n := zlen (payload f) in
  if n <? 126 then [byte.of_Z (Z.lor mask_bit (byte.unsigned (byte.of_Z n)))]
  else if n <=? 65535 then
    [byte.of_Z (Z.lor mask_bit 126);
     byte.of_Z (Z.land (Z.shiftr n 8) 255);
     byte.of_Z (Z.land n 255)]
  else byte.of_Z (Z.lor mask_bit 127) :: be_bytes 8 n.

Definition wire_body (f : Frame) : list byte :=
  if mask f then array4_data (masking_key f) ++ mask_from (masking_key f) 0 (payload f)
  else payload f.

(** What [Frame::construct] leaves in the buffer ([Frame_construct_spec]). *)
Definition wire (f : Frame) : list byte :=
  wire_first f :: wire_length f ++ wire_body f.

(** ** Calls of the factory *)

(** The call threw. *)
Definition throws {A S} (r : option (outcome A * S)) : Prop :=
  ∃ e s, r = Some (Thrown e, s).

(** [op] throws exactly on payloads of more than 125 bytes, leaves the
    factory as it was when it throws, and otherwise returns the wire bytes
    of a final frame with the opcode [opcode]. *)
Definition rejects_above_125 (opcode : Opcode)
    (op : bool → list byte → FrameFactory.t
          → option (outcome (list byte) * FrameFactory.t)) : Prop :=
  ∀ mask payload ff,
    (throws (op mask payload ff) ↔ 125 < zlen payload)
    ∧ (125 < zlen payload → ∃ e, op mask payload ff = Some (Thrown e, ff))
    ∧ (zlen payload <= 125 →
       ∃ key ff',
         op mask payload ff
         = Some (Returned (wire (mk_Frame true mask opcode key payload)), ff')).

(** ** Calls of the parser *)

(** Storage filled with the byte 0xaa, for the examples of a parser that
    was just constructed: what [m_frame] may hold before any assignment. *)
Definition Frame_0xaa : Frame :=
  mk_Frame true true Byte.xaa (mk_array4 Byte.xaa Byte.xaa Byte.xaa Byte.xaa) [].

(** What a parser returns for a frame whose bytes it has decoded into [F]
    when its [m_frame] held the key [k] before: the key bytes are written
    only when the frame is masked. *)
Definition with_stale_key (k : array4) (F : Frame) : Frame :=
  if mask F then F else FrameParser.set_masking_key k F.

(** [bs] is the wire form of one frame for a fresh parser whose [m_frame]
    started as [m_frame0]: given [bs] in one call of [update] it returns
    the frame [F] and has consumed all of [bs].  With [Frame_zero] for
    [m_frame0] the parser is the one [clear] leaves when it is called right
    after the constructor ([clear_new]), and [m_frame] is as [reset] leaves
    it between two frames.  The bytes [Frame::construct] writes are of this
    kind when the payload has less than 2^31 bytes ([wire_decodes_to]). *)
Definition decodes_to (m_frame0 : Frame) (bs : list byte) (F : Frame) : Prop :=
  ∃ p, FrameParser.update bs (FrameParser.new m_frame0) = Some (Some F, p)
       ∧ FrameParser.m_ptr p = zlen bs.

(** Successive calls of [update], one for each chunk: what each call
    returned, and the parser afterwards. *)
Fixpoint feed (chunks : list (list byte)) (p : FrameParser.t)
    : option (list (option Frame) * FrameParser.t) :=
  match chunks with
  | [] => Some ([], p)
  | c :: cs =>
      '(r, p) ← FrameParser.update c p;
      '(rs, p) ← feed cs p;
      Some (r :: rs, p)
  end.

(** The operations of the parser that give no access to its buffer. *)
Inductive parser_op :=
  | Update (chunk : list byte)
  | UpdateNewData (new_data : bool)
  | Clear.

Definition apply_op (op : parser_op) (p : FrameParser.t) : option FrameParser.t :=
  match op with
  | Update chunk => '(_, p) ← FrameParser.update chunk p; Some p
  | UpdateNewData new_data => '(_, p) ← FrameParser.update_bool new_data p; Some p
  | Clear => Some (FrameParser.clear p)
  end.

Fixpoint apply_ops (ops : list parser_op) (p : FrameParser.t) : option FrameParser.t :=
  match ops with
  | [] => Some p
  | op :: ops => p ← apply_op op p; apply_ops ops p
  end.

(** ** The generator and the key cache *)

(** A value of a [std::uint64_t]. *)
Definition word64 (z : Z) : Prop := 0 <= z < 2 ^ 64.

(** The first [k] results of [next64], and the generator after them. *)
Fixpoint draws (k : nat) (g : XorShift128Plus.t) : list Z * XorShift128Plus.t :=
  match k with
  | O => ([], g)
  | S k =>
      let '(r, g) := XorShift128Plus.next64 g in
      let '(rs, g) := draws k g in
      (r :: rs, g)
  end.

(** The state after [n] calls of [next64]. *)
Definition after_draws (n : nat) (g : XorShift128Plus.t) : XorShift128Plus.t :=
  (draws n g).2.

(** The cache holds its 32 bytes and the cursor stands at one of the
    eight keys or behind the last. *)
Definition cache_ok (c : RandomCache.t) : Prop :=
  zlen (RandomCache.m_cache c) = 32
  ∧ 0 <= RandomCache.m_cache_ptr c <= 32
  ∧ RandomCache.m_cache_ptr c mod 4 = 0.

(** ** Calls of the buffer *)

(** [push_back(uint8_t)] for each byte of [xs] in turn. *)
Fixpoint push_back_all (xs : list byte) (b : FrameBuffer.t) : option FrameBuffer.t :=
  match xs with
  | [] => Some b
  | x :: xs => b ← FrameBuffer.push_back x b; push_back_all xs b
  end.

(** ** Streams of frames *)

(** The frames among what successive calls returned. *)
Definition returned_frames (rs : list (option Frame)) : list Frame := omap id rs.

(** Frames with their wire forms, each as a parser decodes it whose
    [m_frame] is zero, as [reset] leaves it between two frames. *)
Definition on_wire (fs : list (list byte * Frame)) : Prop :=
  Forall (λ bF, decodes_to Frame_zero bF.1 bF.2) fs.

(** The frames of a stream as a parser returns them that was just
    constructed: the first is completed in the [m_frame] the constructor
    left, which held the key [k]; [reset] has zeroed it for the later
    ones. *)
Definition first_stale (k : array4) (Fs : list Frame) : list Frame :=
  match Fs with
  | [] => []
  | F :: Fs => with_stale_key k F :: Fs
  end.

(** The bytes of a stream of frames. *)
Definition stream_of (fs : list (list byte * Frame)) : list byte :=
  concat (map fst fs).

(** The bytes of the buffer the parser has not dealt with: those behind
    the parse cursor once a frame is complete, all of them before. *)
Definition unparsed (p : FrameParser.t) : list byte :=
  if FrameParser.done p
  then drop (Z.to_nat (FrameParser.m_ptr p)) (FrameBuffer.view (FrameParser.m_frame_buffer p))
  else FrameBuffer.view (FrameParser.m_frame_buffer p).



(** The arguments of one call of [construct]. *)
Record request := mk_request {
  r_fin : bool;
  r_opcode : Opcode;
  r_mask : bool;
  r_payload : list byte
}.

(** Successive calls of [construct]; the bytes of each call are taken
    from the buffer of the factory before the next call overwrites them. *)
Fixpoint construct_all (reqs : list request) (ff : FrameFactory.t)
    : option (list (list byte) * FrameFactory.t) :=
  match reqs with
  | [] => Some ([], ff)
  | r :: reqs =>
      '(bytes, ff) ← FrameFactory.construct (r_fin r) (r_opcode r) (r_mask r)
                        (r_payload r) ff;
      '(rest, ff) ← construct_all reqs ff;
      Some (bytes :: rest, ff)
  end.

(** The frame [F] carries what [r] asked for: the payload after XORing
    with the key of [F] when masked, and as it is when not. *)
Definition carries (F : Frame) (r : request) : Prop :=
  fin F = r_fin r ∧ opcode F = r_opcode r ∧ mask F = r_mask r
  ∧ (if r_mask r then xor_with_key (masking_key F) (payload F) = r_payload r
     else payload F = r_payload r).

(** What [construct] and the parser can handle. *)
Definition sendable (r : request) : Prop :=
  byte.unsigned (r_opcode r) < 16 ∧ zlen (r_payload r) < 2 ^ 31.

(** * Lemmas *)

(** ** Lengths, bytes and stores *)

Lemma zlen_nil {A} : zlen (@nil A) = 0.
Proof. reflexivity. Qed.

Lemma zlen_cons {A} (x : A) l : zlen (x :: l) = zlen l + 1.
Proof. unfold zlen. simpl. lia. Qed.

Lemma zlen_app {A} (l k : list A) : zlen (l ++ k) = zlen l + zlen k.
Proof. unfold zlen. rewrite length_app. lia. Qed.

Lemma zlen_nonneg {A} (l : list A) : 0 <= zlen l.
Proof. unfold zlen. lia. Qed.

Lemma zlen_to_nat {A} (l : list A) : Z.to_nat (zlen l) = length l.
Proof. unfold zlen. lia. Qed.

Lemma poke_app w x y rest : poke (zlen w) x (w ++ y :: rest) = Some (w ++ x :: rest).
Proof.
  unfold poke.
  assert (H : (0 <=? zlen w) && (zlen w <? zlen (w ++ y :: rest)) = true).
  { rewrite zlen_app, zlen_cons. pose proof (zlen_nonneg w). pose proof (zlen_nonneg rest).
    apply andb_true_iff. split; [apply Z.leb_le | apply Z.ltb_lt]; lia. }
  rewrite H, zlen_to_nat. f_equal.
  replace (length w) with (length w + 0)%nat by lia.
  by rewrite insert_app_r.
Qed.

Lemma memcpy_app src : ∀ w old rest,
  length old = length src →
  memcpy (zlen w) src (w ++ old ++ rest) = Some (w ++ src ++ rest).
Proof.
  induction src as [|x src IH]; intros w old rest Hlen.
  - destruct old; [done | discriminate].
  - destruct old as [|y old]; [discriminate|].
    simpl. rewrite poke_app. simpl.
    replace (zlen w + 1) with (zlen (w ++ [x])) by (rewrite zlen_app; reflexivity).
    replace (w ++ x :: old ++ rest) with ((w ++ [x]) ++ old ++ rest)
      by (rewrite <- app_assoc; reflexivity).
    rewrite IH by (simpl in Hlen; lia).
    by rewrite <- app_assoc.
Qed.

(** Storing [src] at the end of the written part [w], into free space. *)
Lemma memcpy_free w src free :
  (length src ≤ length free)%nat →
  memcpy (zlen w) src (w ++ free) = Some ((w ++ src) ++ drop (length src) free).
Proof.
  intros H.
  rewrite <- (take_drop (length src) free) at 1.
  rewrite memcpy_app by (rewrite length_take; lia).
  by rewrite app_assoc.
Qed.

Lemma testbit_small b n i :
  0 <= n → 0 <= b < 2 ^ n → n <= i → Z.testbit b i = false.
Proof.
  intros Hn Hb Hi. rewrite <- (Z.mod_small b (2 ^ n)) by done.
  apply Z.mod_pow2_bits_high. lia.
Qed.

Lemma lor_shiftl_small a b n :
  0 <= n → 0 <= b < 2 ^ n → Z.lor (Z.shiftl a n) b = a * 2 ^ n + b.
Proof.
  intros Hn Hb.
  assert (Hdisj : Z.land (Z.shiftl a n) b = 0).
  { apply Z.bits_inj'. intros i Hi. rewrite Z.land_spec, Z.bits_0.
    destruct (Z.lt_ge_cases i n).
    - by rewrite Z.shiftl_spec_low.
    - by rewrite (testbit_small b n i), andb_false_r. }
  rewrite <- Z.lxor_lor, <- Z.add_nocarry_lxor by done.
  by rewrite Z.shiftl_mul_pow2.
Qed.

Lemma lxor_mod_small a b n :
  0 <= n → 0 <= a < 2 ^ n → 0 <= b < 2 ^ n → Z.lxor a b mod 2 ^ n = Z.lxor a b.
Proof.
  intros Hn Ha Hb. apply Z.bits_inj'. intros i Hi.
  destruct (Z.lt_ge_cases i n).
  - by rewrite Z.mod_pow2_bits_low.
  - rewrite Z.mod_pow2_bits_high by lia.
    by rewrite Z.lxor_spec, (testbit_small a n i), (testbit_small b n i).
Qed.

Lemma unsigned_of_Z_small z : 0 <= z < 256 → byte.unsigned (byte.of_Z z) = z.
Proof. intros. rewrite byte.unsigned_of_Z. unfold byte.wrap. by apply Z.mod_small. Qed.

Lemma land_255 z : 0 <= z → Z.land z 255 = z mod 256.
Proof. intros. change 255 with (Z.ones 8). by rewrite Z.land_ones. Qed.

Lemma to_uint64_nonneg z : 0 <= to_uint64 z.
Proof. unfold to_uint64. apply Z.mod_pos_bound. lia. Qed.

(** ** [FrameBuffer] and [Frame::construct] *)

Lemma length_be_bytes n v : length (be_bytes n v) = n.
Proof. induction n; simpl; congruence. Qed.

Lemma length_mask_from key data : ∀ i, length (mask_from key i data) = length data.
Proof. induction data; intros; simpl; [done | by rewrite IHdata]. Qed.

Lemma zlen_be_bytes n v : zlen (be_bytes n v) = Z.of_nat n.
Proof. unfold zlen. by rewrite length_be_bytes. Qed.

Lemma zlen_mask_from key i data : zlen (mask_from key i data) = zlen data.
Proof. unfold zlen. by rewrite length_mask_from. Qed.

Lemma write_length64_store_bytes n v : ∀ ptr buf,
  write_length64 n v ptr buf = FrameBuffer.store_bytes ptr (be_bytes n v) buf.
Proof.
  induction n as [|n IH]; intros ptr [m c]; [done|].
  simpl. unfold FrameBuffer.store, FrameBuffer.store_bytes. simpl.
  destruct (poke ptr _ m) as [m'|]; simpl; [|done].
  rewrite IH. reflexivity.
Qed.

Lemma write_masked_store_bytes key data : ∀ i ptr buf,
  write_masked key data i ptr buf
  = FrameBuffer.store_bytes (ptr + i) (mask_from key i data) buf.
Proof.
  induction data as [|x data IH]; intros i ptr [m c]; [done|].
  simpl. unfold FrameBuffer.store, FrameBuffer.store_bytes. simpl.
  destruct (poke (ptr + i) _ m) as [m'|]; simpl; [|done].
  rewrite IH. unfold FrameBuffer.store_bytes. simpl.
  by rewrite Z.add_assoc.
Qed.

(** [push_back] of a byte when a free byte is left after the written part. *)
Lemma push_back_free w free x :
  (0 < length free)%nat →
  FrameBuffer.push_back x (FrameBuffer.mk (w ++ free) (zlen w))
  = Some (FrameBuffer.mk ((w ++ [x]) ++ drop 1 free) (zlen (w ++ [x]))).
Proof.
  intros H. destruct free as [|y free]; [simpl in H; lia|].
  unfold FrameBuffer.push_back. simpl. rewrite poke_app. simpl.
  rewrite drop_0, <- app_assoc, zlen_app. reflexivity.
Qed.

(** [get_space] followed by the stores of [src] through its result. *)
Lemma store_bytes_free w free src c :
  (length src ≤ length free)%nat →
  FrameBuffer.store_bytes (zlen w) src (FrameBuffer.mk (w ++ free) c)
  = Some (FrameBuffer.mk ((w ++ src) ++ drop (length src) free) c).
Proof.
  intros H. unfold FrameBuffer.store_bytes. simpl.
  by rewrite memcpy_free.
Qed.

Lemma length_wire_length f :
  zlen (wire_length f)
  = if zlen (payload f) <? 126 then 1
    else if zlen (payload f) <=? 65535 then 3 else 9.
Proof.
  unfold wire_length.
  destruct (zlen (payload f) <? 126); [done|].
  destruct (zlen (payload f) <=? 65535); done.
Qed.

Lemma length_wire_body f :
  zlen (wire_body f) = (if mask f then 4 else 0) + zlen (payload f).
Proof.
  unfold wire_body. destruct (mask f); [|lia].
  rewrite zlen_app. unfold zlen at 2. rewrite length_mask_from. reflexivity.
Qed.

Lemma length_wire f :
  zlen (wire f)
  = 1 + (if zlen (payload f) <? 126 then 1
         else if zlen (payload f) <=? 65535 then 3 else 9)
      + (if mask f then 4 else 0) + zlen (payload f).
Proof.
  unfold wire. rewrite zlen_cons, zlen_app, length_wire_length, length_wire_body. lia.
Qed.

Lemma length_wire_le f : zlen (wire f) <= zlen (payload f) + 14.
Proof.
  rewrite length_wire.
  destruct (zlen (payload f) <? 126), (zlen (payload f) <=? 65535), (mask f); lia.
Qed.

Lemma ensure_fit_capacity sz b :
  FrameBuffer.capacity (FrameBuffer.ensure_fit sz b)
  = if FrameBuffer.capacity b <? sz then sz else FrameBuffer.capacity b.
Proof.
  unfold FrameBuffer.ensure_fit.
  destruct (FrameBuffer.capacity b <? sz) eqn:E; [|done].
  apply Z.ltb_lt in E. unfold FrameBuffer.capacity, FrameBuffer.resize, zlen in *. simpl.
  rewrite length_app, length_take, length_replicate. lia.
Qed.

Lemma ensure_fit_m_ptr sz b :
  FrameBuffer.m_ptr (FrameBuffer.ensure_fit sz b) = FrameBuffer.m_ptr b.
Proof. unfold FrameBuffer.ensure_fit. by destruct (_ <? _). Qed.

(** [written b w cap]: the cursor of [b] stands after the bytes [w], which
    are the front of its storage of [cap] bytes. *)
Definition written (b : FrameBuffer.t) (w : list byte) (cap : Z) : Prop :=
  ∃ free, b = FrameBuffer.mk (w ++ free) (zlen w) ∧ zlen w + zlen free = cap.

Lemma written_push_back b w cap x :
  written b w cap → zlen w < cap →
  ∃ b', FrameBuffer.push_back x b = Some b' ∧ written b' (w ++ [x]) cap.
Proof.
  intros (free & -> & Hcap) Hlt.
  rewrite push_back_free by (unfold zlen in *; lia).
  eexists; split; [reflexivity|]. eexists; split; [reflexivity|].
  rewrite zlen_app, zlen_cons, zlen_nil. unfold zlen in *. rewrite length_drop. lia.
Qed.

Lemma written_append b w cap src :
  written b w cap → zlen w + zlen src <= cap →
  ∃ b', FrameBuffer.store_bytes (FrameBuffer.get_space (zlen src) b).1 src
          (FrameBuffer.get_space (zlen src) b).2 = Some b'
        ∧ written b' (w ++ src) cap.
Proof.
  intros (free & -> & Hcap) Hle. simpl.
  rewrite store_bytes_free by (unfold zlen in *; lia).
  eexists; split; [by rewrite <- zlen_app|]. eexists; split; [reflexivity|].
  rewrite zlen_app. unfold zlen in *. rewrite length_drop. lia.
Qed.

Tactic Notation "step_push" constr(H) "as" ident(b') ident(H') :=
  match goal with
  | |- context [FrameBuffer.push_back ?x ?b] =>
      let E := fresh "E" in
      destruct (written_push_back b _ _ x H) as (b' & E & H');
      [ | rewrite E; cbn [mbind option_bind]; clear E ]
  end.

Lemma Frame_construct_spec f buf :
  ∃ b, Frame_construct f buf = Some b
       ∧ written b (wire f)
           (FrameBuffer.capacity
              (FrameBuffer.ensure_fit (zlen (payload f) + 14 + 100)
                 (FrameBuffer.reset buf))).
Proof.
  unfold Frame_construct.
  pose proof (ensure_fit_capacity (zlen (payload f) + 14 + 100) (FrameBuffer.reset buf)) as Hcap.
  pose proof (ensure_fit_m_ptr (zlen (payload f) + 14 + 100) (FrameBuffer.reset buf)) as Hptr.
  destruct (FrameBuffer.ensure_fit _ _) as [m1 c1]. simpl in Hptr. subst c1.
  set (cap := FrameBuffer.capacity _) in *.
  assert (Hm1 : zlen (payload f) + 114 <= cap).
  { rewrite Hcap. destruct (_ <? _) eqn:E; [lia | apply Z.ltb_ge in E; lia]. }
  assert (H0 : written (FrameBuffer.mk m1 0) [] cap) by (exists m1; done).
  clear Hcap. pose proof (zlen_nonneg (payload f)) as Hnn.
  cbv zeta.
  step_push H0 as b H; [rewrite zlen_nil; lia|].
  set (first := byte.of_Z (Z.lor (if fin f then 128 else 0) _)) in *.
  change first with (wire_first f) in *. clear first.
  simpl app in H.
  assert (∃ b1, (if zlen (payload f) <? 126
     then FrameBuffer.push_back
        (byte.of_Z (Z.lor (if mask f then 128 else 0)
              (byte.unsigned (byte.of_Z (zlen (payload f)))))) b
     else if zlen (payload f) <=? 65535
      then FrameBuffer.push_back (byte.of_Z (Z.lor (if mask f then 128 else 0) 126)) b
       ≫= λ buf0, FrameBuffer.push_back (byte.of_Z (Z.land (zlen (payload f) ≫ 8) 255)) buf0
       ≫= λ buf1, FrameBuffer.push_back (byte.of_Z (Z.land (zlen (payload f)) 255)) buf1
      else FrameBuffer.push_back (byte.of_Z (Z.lor (if mask f then 128 else 0) 127)) b
       ≫= λ buf0, let '(ptr, buf1) := FrameBuffer.get_space 8 buf0 in
            write_length64 8 (zlen (payload f)) ptr buf1) = Some b1
     ∧ written b1 (wire_first f :: wire_length f) cap) as (b1 & -> & H1).
  { unfold wire_length. pose proof (length_wire_length f) as HL.
    destruct (zlen (payload f) <? 126).
    - step_push H as b0 H2; [rewrite zlen_cons, zlen_nil; lia|]. eauto.
    - destruct (zlen (payload f) <=? 65535).
      + step_push H as b0 H2; [rewrite zlen_cons, zlen_nil; lia|].
        step_push H2 as b2 H3; [rewrite !zlen_app, !zlen_cons, zlen_nil; lia|].
        step_push H3 as b3 H4; [rewrite !zlen_app, !zlen_cons, zlen_nil; lia|].
        eexists; split; [done|]. by rewrite <- !app_assoc in H4.
      + step_push H as b0 H2; [rewrite zlen_cons, zlen_nil; lia|].
        destruct (written_append b0 _ _ (be_bytes 8 (zlen (payload f))) H2) as (b1 & E & H3).
        { rewrite zlen_be_bytes, !zlen_app, !zlen_cons, zlen_nil. lia. }
        destruct (FrameBuffer.get_space 8 b0) as [ptr b0'] eqn:Eg.
        rewrite write_length64_store_bytes.
        rewrite zlen_be_bytes in E. change (Z.of_nat 8) with 8 in E.
        rewrite Eg in E. cbn [fst snd] in E. rewrite E.
        eexists; split; [done|]. by rewrite <- !app_assoc in H3. }
  cbn [mbind option_bind].
  assert (HL : zlen (wire_first f :: wire_length f) <= 10).
  { rewrite zlen_cons, length_wire_length.
    destruct (_ <? _); [lia|]. destruct (_ <=? _); lia. }
  unfold wire, wire_body. destruct (mask f) eqn:Em.
  - destruct (written_append b1 _ _ (array4_data (masking_key f)) H1) as (b2 & E & H2).
    { change (zlen (array4_data _)) with 4. lia. }
    change (zlen (array4_data _)) with 4 in E.
    destruct (FrameBuffer.get_space 4 b1) as [kptr b1'] eqn:Eg. cbn [fst snd] in E. rewrite E.
    cbn [mbind option_bind]. clear E Eg.
    destruct (written_append b2 _ _ (mask_from (masking_key f) 0 (payload f)) H2) as (b3 & E & H3).
    { rewrite zlen_mask_from, zlen_app. change (zlen (array4_data _)) with 4. lia. }
    rewrite zlen_mask_from in E.
    destruct (FrameBuffer.get_space (zlen (payload f)) b2) as [ptr b2'] eqn:Eg.
    rewrite write_masked_store_bytes, Z.add_0_r. cbn [fst snd] in E. rewrite E.
    eexists; split; [done|].
    rewrite <- !app_assoc in H3. exact H3.
  - destruct (written_append b1 _ _ (payload f) H1) as (b2 & E & H2); [lia|].
    destruct (FrameBuffer.get_space (zlen (payload f)) b1) as [ptr b1'] eqn:Eg.
    cbn [fst snd] in E. rewrite E. eexists; split; [done|]. exact H2.
Qed.

Lemma written_view b w cap : written b w cap → FrameBuffer.view b = w.
Proof.
  intros (free & -> & _). unfold FrameBuffer.view, slice.
  cbn [FrameBuffer.m_buf FrameBuffer.m_ptr]. change (Z.to_nat 0) with 0%nat.
  by rewrite zlen_to_nat, drop_0, take_app_length.
Qed.

Lemma written_size b w cap : written b w cap → FrameBuffer.size b = zlen w.
Proof. by intros (free & -> & _). Qed.

Lemma written_capacity b w cap : written b w cap → FrameBuffer.capacity b = cap.
Proof.
  intros (free & -> & <-). unfold FrameBuffer.capacity. simpl. by rewrite zlen_app.
Qed.

(** [FrameFactory::construct] returns the wire bytes of the frame it builds. *)
Lemma FrameFactory_construct_spec fin opcode mask payload ff :
  ∃ key ff',
    FrameFactory.construct fin opcode mask payload ff
    = Some (wire (mk_Frame fin mask opcode key payload), ff')
    ∧ FrameBuffer.view (FrameFactory.m_buf ff')
      = wire (mk_Frame fin mask opcode key payload)
    ∧ key = (if mask then (RandomCache.get (FrameFactory.m_random ff)).1
             else masking_key Frame_zero).
Proof.
  unfold FrameFactory.construct.
  destruct mask.
  - destruct (RandomCache.get _) as [key rc].
    destruct (Frame_construct_spec (mk_Frame fin true opcode key payload)
                (FrameFactory.m_buf ff)) as (b & -> & Hw).
    cbn [mbind option_bind]. rewrite (written_view _ _ _ Hw).
    eexists _, _. split; [reflexivity|]. split; [|reflexivity].
    simpl. by rewrite (written_view _ _ _ Hw).
  - destruct (Frame_construct_spec (mk_Frame fin false opcode (masking_key Frame_zero) payload)
                (FrameFactory.m_buf ff)) as (b & -> & Hw).
    cbn [mbind option_bind]. rewrite (written_view _ _ _ Hw).
    eexists _, _. split; [reflexivity|]. split; [|reflexivity].
    simpl. by rewrite (written_view _ _ _ Hw).
Qed.

Lemma returned_Returned r bytes ff' :
  FrameFactory.returned r = Some (Returned bytes, ff') → r = Some (bytes, ff').
Proof. destruct r as [[? ?]|]; simpl; [|done]. by intros [= -> ->]. Qed.

Lemma rejects_above_125_intro opcode what op :
  (∀ mask payload ff,
     op mask payload ff
     = if zlen payload >? 125 then Some (Thrown (runtime_error what), ff)
       else FrameFactory.returned (FrameFactory.construct true opcode mask payload ff)) →
  rejects_above_125 opcode op.
Proof.
  intros Hop mask payload ff. rewrite Hop.
  destruct (Z.gtb_spec (zlen payload) 125) as [Hgt|Hle].
  - split; [|split]; [| by eauto | lia].
    split; [done|]. intros _. by eexists _, _.
  - destruct (FrameFactory_construct_spec true opcode mask payload ff)
      as (key & ff' & -> & _ & _).
    simpl. split; [|split]; [| lia | by eauto].
    split; [|lia]. by intros (e & s & [=]).
Qed.

Lemma wire_first_fin f :
  fin f = true → Z.land (byte.unsigned (wire_first f)) 128 = 128.
Proof.
  intros Hf. unfold wire_first. rewrite Hf, byte.unsigned_of_Z. unfold byte.wrap.
  pose proof (byte.unsigned_range (opcode f)).
  change (2 ^ 8) with 256. rewrite <- (Z.land_ones _ 8) by lia.
  apply Z.bits_inj'. intros n Hn.
  rewrite !Z.land_spec, Z.lor_spec, Z.land_spec.
  destruct (Z.eq_dec n 7) as [->|Hne].
  - reflexivity.
  - replace (Z.testbit 128 n) with false; [by rewrite !andb_false_r|].
    symmetry. change 128 with (2 ^ 7). apply Z.pow2_bits_false. lia.
Qed.

(** ** The parser as a state machine *)

Section Parser.
Import FrameParser.

(** The cursors are in order: parse cursor, write cursor, capacity; the
    payload length is that of an unsigned word. *)
Definition wf (p : t) : Prop :=
  0 <= m_ptr p
  ∧ m_ptr p <= FrameBuffer.size (m_frame_buffer p)
  ∧ FrameBuffer.size (m_frame_buffer p) <= FrameBuffer.capacity (m_frame_buffer p)
  ∧ 0 <= m_payload_len p.

(** The check that belongs to the current stage. *)
Definition step (p : t) : t :=
  match m_parse_stage p with
  | FIN_BIT => check_fin_bit p
  | OPCODE => check_opcode p
  | MASK_BIT => check_mask_bit p
  | PAYLOAD_LEN => check_payload_len p
  | EXTENDED_PAYLOAD_LEN_16 => check_extended_payload_len_16 p
  | EXTENDED_PAYLOAD_LEN_64 => check_extended_payload_len_64 p
  | MASKING_KEY => check_masking_key p
  | PAYLOAD_DATA => check_payload_data p
  | DONE => p
  end.

Definition stage_index (s : ParseStage) : nat :=
  match s with
  | FIN_BIT => 0 | OPCODE => 1 | MASK_BIT => 2 | PAYLOAD_LEN => 3
  | EXTENDED_PAYLOAD_LEN_16 => 4 | EXTENDED_PAYLOAD_LEN_64 => 5
  | MASKING_KEY => 6 | PAYLOAD_DATA => 7 | DONE => 8
  end.

Lemma remaining_wf p :
  wf p → remaining p = FrameBuffer.size (m_frame_buffer p) - m_ptr p.
Proof.
  intros (? & ? & ? & ?). unfold remaining, size_sub.
  destruct (Z.leb_spec (m_ptr p) (FrameBuffer.size (m_frame_buffer p))); lia.
Qed.

(** A check does nothing outside its stage. *)
Lemma check_fin_bit_other p : m_parse_stage p ≠ FIN_BIT → check_fin_bit p = p.
Proof. intros. unfold check_fin_bit. by rewrite bool_decide_true. Qed.
Lemma check_opcode_other p : m_parse_stage p ≠ OPCODE → check_opcode p = p.
Proof. intros. unfold check_opcode. by rewrite bool_decide_true. Qed.
Lemma check_mask_bit_other p : m_parse_stage p ≠ MASK_BIT → check_mask_bit p = p.
Proof. intros. unfold check_mask_bit. by rewrite bool_decide_true. Qed.
Lemma check_payload_len_other p : m_parse_stage p ≠ PAYLOAD_LEN → check_payload_len p = p.
Proof. intros. unfold check_payload_len. by rewrite bool_decide_true. Qed.
Lemma check_extended_payload_len_16_other p :
  m_parse_stage p ≠ EXTENDED_PAYLOAD_LEN_16 → check_extended_payload_len_16 p = p.
Proof. intros. unfold check_extended_payload_len_16. by rewrite bool_decide_true. Qed.
Lemma check_extended_payload_len_64_other p :
  m_parse_stage p ≠ EXTENDED_PAYLOAD_LEN_64 → check_extended_payload_len_64 p = p.
Proof. intros. unfold check_extended_payload_len_64. by rewrite bool_decide_true. Qed.
Lemma check_masking_key_other p : m_parse_stage p ≠ MASKING_KEY → check_masking_key p = p.
Proof. intros. unfold check_masking_key. by rewrite bool_decide_true. Qed.
Lemma check_payload_data_other p : m_parse_stage p ≠ PAYLOAD_DATA → check_payload_data p = p.
Proof. intros. unfold check_payload_data. by rewrite bool_decide_true. Qed.

(** The loop of [check_extended_payload_len_64] moves the cursor by the
    number of its iterations and touches the length only. *)
Lemma read_length64_fields n : ∀ p,
  m_ptr (read_length64 n p) = m_ptr p + Z.of_nat n
  ∧ m_parse_stage (read_length64 n p) = m_parse_stage p
  ∧ m_frame (read_length64 n p) = m_frame p
  ∧ m_frame_buffer (read_length64 n p) = m_frame_buffer p.
Proof.
  induction n as [|n IH]; intros p.
  - simpl. repeat split; lia.
  - cbn [read_length64]. unfold consume. cbv zeta. cbn [fst snd].
    destruct (IH (set_payload_len
      (Z.lor (m_payload_len (set_ptr (m_ptr p + 1) p))
         (to_uint64 (int_shl (byte.unsigned (read p)) (8 * Z.of_nat n))))
      (set_ptr (m_ptr p + 1) p))) as (-> & -> & -> & ->).
    simpl. repeat split; lia.
Qed.

(** A check either leaves the parser as it is or moves it to a later stage. *)
Lemma step_progress p :
  step p = p ∨ (stage_index (m_parse_stage p) < stage_index (m_parse_stage (step p)))%nat.
Proof.
  unfold step. destruct (m_parse_stage p) eqn:Hs.
  - unfold check_fin_bit. rewrite Hs. destruct (_ || _); [by left|right]. simpl. lia.
  - unfold check_opcode. rewrite Hs. destruct (_ || _); [by left|right]. simpl. lia.
  - unfold check_mask_bit. rewrite Hs. destruct (_ || _); [by left|right]. simpl. lia.
  - unfold check_payload_len, after_length. rewrite Hs. destruct (_ || _); [by left|right].
    simpl. repeat (destruct (_ =? _)); simpl; try lia. destruct (mask _); simpl; lia.
  - unfold check_extended_payload_len_16, after_length. rewrite Hs.
    destruct (_ || _); [by left|right]. simpl. destruct (mask _); simpl; lia.
  - unfold check_extended_payload_len_64, after_length. rewrite Hs.
    destruct (_ || _); [by left|right]. cbn [m_parse_stage set_stage].
    destruct (read_length64_fields 8 (set_payload_len 0 p)) as (_ & _ & -> & _).
    simpl. destruct (mask _); simpl; lia.
  - unfold check_masking_key. rewrite Hs. destruct (_ || _); [by left|right]. simpl. lia.
  - unfold check_payload_data. rewrite Hs. destruct (_ || _); [by left|right].
    destruct (_ =? _); simpl; lia.
  - by left.
Qed.

Lemma read_length64_nonneg n : ∀ p,
  0 <= m_payload_len p → 0 <= m_payload_len (read_length64 n p).
Proof.
  induction n as [|n IH]; intros p Hp; [done|].
  cbn [read_length64]. unfold consume. cbv zeta. apply IH. simpl.
  apply Z.lor_nonneg. split; [done | apply to_uint64_nonneg].
Qed.

Lemma set_stage_payload_len s p : m_payload_len (set_stage s p) = m_payload_len p.
Proof. reflexivity. Qed.
Lemma set_stage_buffer s p : m_frame_buffer (set_stage s p) = m_frame_buffer p.
Proof. reflexivity. Qed.
Lemma set_stage_ptr s p : m_ptr (set_stage s p) = m_ptr p.
Proof. reflexivity. Qed.
Lemma set_stage_stage s p : m_parse_stage (set_stage s p) = s.
Proof. reflexivity. Qed.

Lemma step_buffer p : m_frame_buffer (step p) = m_frame_buffer p.
Proof.
  unfold step. destruct (m_parse_stage p) eqn:Hs; [..|done].
  - unfold check_fin_bit. by destruct (_ || _).
  - unfold check_opcode. by destruct (_ || _).
  - unfold check_mask_bit. by destruct (_ || _).
  - unfold check_payload_len. destruct (_ || _); [done|]. simpl.
    by repeat (destruct (_ =? _)).
  - unfold check_extended_payload_len_16. by destruct (_ || _).
  - unfold check_extended_payload_len_64. destruct (_ || _); [done|].
    cbv zeta. rewrite set_stage_buffer.
    by destruct (read_length64_fields 8 (set_payload_len 0 p)) as (_ & _ & _ & ->).
  - unfold check_masking_key. by destruct (_ || _).
  - unfold check_payload_data. destruct (_ || _); [done|]. by destruct (_ =? _).
Qed.

Lemma step_wf p : wf p → wf (step p).
Proof.
  intros Hwf. pose proof (remaining_wf p Hwf) as Hr.
  unfold wf. rewrite step_buffer. destruct Hwf as (H0 & H1 & H2 & H3).
  cut (m_ptr p <= m_ptr (step p) <= FrameBuffer.size (m_frame_buffer p)
       ∧ 0 <= m_payload_len (step p)); [lia|].
  pose proof (byte.unsigned_range (read p)) as Hb.
  unfold step. destruct (m_parse_stage p) eqn:Hs; [..|lia].
  - unfold check_fin_bit. destruct (_ || _); simpl; lia.
  - unfold check_opcode. destruct (_ || _) eqn:E; simpl; [lia|].
    apply orb_false_iff in E as [_ E%Z.eqb_neq]. lia.
  - unfold check_mask_bit. destruct (_ || _); simpl; lia.
  - unfold check_payload_len. destruct (_ || _) eqn:E; simpl; [lia|].
    apply orb_false_iff in E as [_ E%Z.eqb_neq].
    repeat (destruct (_ =? _)); simpl; split; try lia.
    apply Z.land_nonneg. lia.
  - unfold check_extended_payload_len_16. destruct (_ || _) eqn:E; simpl; [lia|].
    apply orb_false_iff in E as [_ E%Z.ltb_ge]. split; [lia|].
    apply Z.lor_nonneg. split; [apply to_uint64_nonneg | apply byte.unsigned_range].
  - unfold check_extended_payload_len_64. destruct (_ || _) eqn:E; [lia|].
    apply orb_false_iff in E as [_ E%Z.ltb_ge].
    cbv zeta. rewrite set_stage_ptr, set_stage_payload_len.
    destruct (read_length64_fields 8 (set_payload_len 0 p)) as (-> & _).
    split; [simpl; lia | by apply read_length64_nonneg].
  - unfold check_masking_key. destruct (_ || _) eqn:E; simpl; [lia|].
    apply orb_false_iff in E as [_ E%Z.ltb_ge]. lia.
  - unfold check_payload_data. destruct (_ || _) eqn:E; [lia|].
    apply orb_false_iff in E as [_ E%Z.ltb_ge].
    destruct (Z.eqb_spec (m_payload_len p) 0); simpl; lia.
Qed.

(** *** Growing the buffer under the parser *)

(** [extends b b']: [b'] holds the bytes written to [b], and maybe more
    after them. *)
Definition extends (b b' : FrameBuffer.t) : Prop :=
  FrameBuffer.size b <= FrameBuffer.size b'
  ∧ FrameBuffer.size b' <= FrameBuffer.capacity b'
  ∧ take (Z.to_nat (FrameBuffer.size b)) (FrameBuffer.m_buf b')
    = take (Z.to_nat (FrameBuffer.size b)) (FrameBuffer.m_buf b).

Lemma lookup_extends b b' i :
  extends b b' → 0 <= i < FrameBuffer.size b →
  FrameBuffer.m_buf b' !! Z.to_nat i = FrameBuffer.m_buf b !! Z.to_nat i.
Proof.
  intros (_ & _ & Ht) Hi.
  rewrite <- (lookup_take_lt (FrameBuffer.m_buf b') (Z.to_nat (FrameBuffer.size b))) by lia.
  rewrite <- (lookup_take_lt (FrameBuffer.m_buf b) (Z.to_nat (FrameBuffer.size b))) by lia.
  by rewrite Ht.
Qed.

Lemma slice_take off n k (m : list byte) :
  0 <= off → 0 <= n → off + n <= k →
  slice off n (take (Z.to_nat k) m) = slice off n m.
Proof.
  intros. unfold slice. rewrite !take_drop_commute, take_take. f_equal. f_equal. lia.
Qed.

Lemma slice_extends b b' off n :
  extends b b' → 0 <= off → 0 <= n → off + n <= FrameBuffer.size b →
  slice off n (FrameBuffer.m_buf b') = slice off n (FrameBuffer.m_buf b).
Proof.
  intros (_ & _ & Ht) ? ? ?.
  rewrite <- (slice_take off n (FrameBuffer.size b) (FrameBuffer.m_buf b')) by lia.
  rewrite <- (slice_take off n (FrameBuffer.size b) (FrameBuffer.m_buf b)) by lia.
  by rewrite Ht.
Qed.

Lemma remaining_set_frame_buffer p b' :
  wf p → extends (m_frame_buffer p) b' →
  remaining (set_frame_buffer b' p) = FrameBuffer.size b' - m_ptr p.
Proof.
  intros (? & ? & ? & ?) (? & ? & _). unfold remaining, size_sub. simpl.
  destruct (Z.leb_spec (m_ptr p) (FrameBuffer.size b')); lia.
Qed.

Lemma wf_set_frame_buffer p b' :
  wf p → extends (m_frame_buffer p) b' → wf (set_frame_buffer b' p).
Proof. intros (? & ? & ? & ?) (? & ? & _). unfold wf. simpl. lia. Qed.

Lemma read_length64_extends b' n : ∀ p,
  extends (m_frame_buffer p) b' →
  0 <= m_ptr p → m_ptr p + Z.of_nat n <= FrameBuffer.size (m_frame_buffer p) →
  read_length64 n (set_frame_buffer b' p) = set_frame_buffer b' (read_length64 n p).
Proof.
  induction n as [|n IH]; intros p Hext H0 Hn; [done|].
  cbn [read_length64]. unfold consume, read. cbv zeta.
  cbn [set_frame_buffer m_frame_buffer m_ptr].
  rewrite (lookup_extends _ _ _ Hext) by lia.
  rewrite <- IH; [done | done | simpl; lia | simpl; lia].
Qed.

Lemma set_stage_after_length_buffer b' q :
  (λ q, set_stage (after_length q) q) (set_frame_buffer b' q)
  = set_frame_buffer b' ((λ q, set_stage (after_length q) q) q).
Proof. reflexivity. Qed.

Lemma check_extended_payload_len_64_unfold p :
  check_extended_payload_len_64 p
  = if bool_decide (m_parse_stage p ≠ EXTENDED_PAYLOAD_LEN_64) || (remaining p <? 8)
    then p
    else (λ q, set_stage (after_length q) q) (read_length64 8 (set_payload_len 0 p)).
Proof. reflexivity. Qed.

Lemma check_extended_payload_len_64_extends p b' :
  wf p → extends (m_frame_buffer p) b' →
  m_parse_stage p = EXTENDED_PAYLOAD_LEN_64 →
  check_extended_payload_len_64 (set_frame_buffer b' p)
  = set_frame_buffer b' (check_extended_payload_len_64 p)
  ∨ (check_extended_payload_len_64 p = p
     ∧ FrameBuffer.size (m_frame_buffer p) < FrameBuffer.size b').
Proof.
  intros Hwf Hext Hs.
  pose proof (remaining_wf p Hwf) as Hr.
  pose proof (remaining_set_frame_buffer p b' Hwf Hext) as Hr'.
  destruct Hwf as (H0 & H1 & H2 & H3). pose proof Hext as (He & _ & _).
  rewrite !check_extended_payload_len_64_unfold.
  replace (m_parse_stage (set_frame_buffer b' p)) with EXTENDED_PAYLOAD_LEN_64 by done.
  rewrite Hs, Hr, Hr'.
  replace (bool_decide (EXTENDED_PAYLOAD_LEN_64 ≠ EXTENDED_PAYLOAD_LEN_64)) with false by done.
  rewrite !orb_false_l.
  destruct (Z.ltb_spec (FrameBuffer.size (m_frame_buffer p) - m_ptr p) 8),
           (Z.ltb_spec (FrameBuffer.size b' - m_ptr p) 8);
    [by left | right; split; [done|lia] | lia | left].
  replace (set_payload_len 0 (set_frame_buffer b' p))
    with (set_frame_buffer b' (set_payload_len 0 p)) by done.
  rewrite read_length64_extends by (simpl; first [done | lia]).
  apply set_stage_after_length_buffer.
Qed.

(** Under a longer buffer a check does what it did, unless it was waiting
    for bytes. *)
Lemma step_extends p b' :
  wf p → extends (m_frame_buffer p) b' →
  step (set_frame_buffer b' p) = set_frame_buffer b' (step p)
  ∨ (step p = p ∧ FrameBuffer.size (m_frame_buffer p) < FrameBuffer.size b').
Proof.
  intros Hwf Hext.
  pose proof (remaining_wf p Hwf) as Hr.
  pose proof (remaining_set_frame_buffer p b' Hwf Hext) as Hr'.
  destruct Hwf as (H0 & H1 & H2 & H3). pose proof Hext as (He & _ & _).
  unfold step. cbn [set_frame_buffer m_parse_stage].
  destruct (m_parse_stage p) eqn:Hs; [..|by left].
  - unfold check_fin_bit. cbn [set_frame_buffer m_parse_stage]. rewrite Hs, Hr, Hr'.
    cbn [orb bool_decide decide_rel]. simpl (bool_decide _).
    destruct (Z.eqb_spec (FrameBuffer.size (m_frame_buffer p) - m_ptr p) 0),
             (Z.eqb_spec (FrameBuffer.size b' - m_ptr p) 0);
      [by left | right; split; [done|lia] | lia | left].
    unfold read. simpl. rewrite (lookup_extends _ _ _ Hext) by lia. done.
  - unfold check_opcode. cbn [set_frame_buffer m_parse_stage]. rewrite Hs, Hr, Hr'.
    simpl (bool_decide _). cbn [orb].
    destruct (Z.eqb_spec (FrameBuffer.size (m_frame_buffer p) - m_ptr p) 0),
             (Z.eqb_spec (FrameBuffer.size b' - m_ptr p) 0);
      [by left | right; split; [done|lia] | lia | left].
    unfold consume, read. simpl. rewrite (lookup_extends _ _ _ Hext) by lia. done.
  - unfold check_mask_bit. cbn [set_frame_buffer m_parse_stage]. rewrite Hs, Hr, Hr'.
    simpl (bool_decide _). cbn [orb].
    destruct (Z.eqb_spec (FrameBuffer.size (m_frame_buffer p) - m_ptr p) 0),
             (Z.eqb_spec (FrameBuffer.size b' - m_ptr p) 0);
      [by left | right; split; [done|lia] | lia | left].
    unfold read. simpl. rewrite (lookup_extends _ _ _ Hext) by lia. done.
  - unfold check_payload_len. cbn [set_frame_buffer m_parse_stage]. rewrite Hs, Hr, Hr'.
    simpl (bool_decide _). cbn [orb].
    destruct (Z.eqb_spec (FrameBuffer.size (m_frame_buffer p) - m_ptr p) 0),
             (Z.eqb_spec (FrameBuffer.size b' - m_ptr p) 0);
      [by left | right; split; [done|lia] | lia | left].
    unfold consume, read. simpl. rewrite (lookup_extends _ _ _ Hext) by lia.
    by repeat (destruct (_ =? _)).
  - unfold check_extended_payload_len_16. cbn [set_frame_buffer m_parse_stage].
    rewrite Hs, Hr, Hr'. simpl (bool_decide _). cbn [orb].
    destruct (Z.ltb_spec (FrameBuffer.size (m_frame_buffer p) - m_ptr p) 2),
             (Z.ltb_spec (FrameBuffer.size b' - m_ptr p) 2);
      [by left | right; split; [done|lia] | lia | left].
    unfold consume, read. simpl. rewrite !(lookup_extends _ _ _ Hext) by lia. done.
  - apply check_extended_payload_len_64_extends; unfold wf; auto.
  - unfold check_masking_key. cbn [set_frame_buffer m_parse_stage].
    rewrite Hs, Hr, Hr'. simpl (bool_decide _). cbn [orb].
    destruct (Z.ltb_spec (FrameBuffer.size (m_frame_buffer p) - m_ptr p) 4),
             (Z.ltb_spec (FrameBuffer.size b' - m_ptr p) 4);
      [by left | right; split; [done|lia] | lia | left].
    unfold consume, read. simpl. rewrite !(lookup_extends _ _ _ Hext) by lia. done.
  - unfold check_payload_data. cbn [set_frame_buffer m_parse_stage m_payload_len].
    rewrite Hs, Hr, Hr'. simpl (bool_decide _). cbn [orb].
    destruct (Z.ltb_spec (FrameBuffer.size (m_frame_buffer p) - m_ptr p) (m_payload_len p)),
             (Z.ltb_spec (FrameBuffer.size b' - m_ptr p) (m_payload_len p));
      [by left | right; split; [done|lia] | lia | left].
    destruct (_ =? _); [done|].
    cbn [set_frame_buffer m_frame_buffer m_ptr m_payload_len].
    rewrite (slice_extends _ _ _ _ Hext) by lia. done.
Qed.

(** *** The checks in sequence *)

Ltac skip_checks Hs :=
  repeat first
    [ rewrite check_fin_bit_other by (rewrite Hs; discriminate)
    | rewrite check_opcode_other by (rewrite Hs; discriminate)
    | rewrite check_mask_bit_other by (rewrite Hs; discriminate)
    | rewrite check_payload_len_other by (rewrite Hs; discriminate)
    | rewrite check_extended_payload_len_16_other by (rewrite Hs; discriminate)
    | rewrite check_extended_payload_len_64_other by (rewrite Hs; discriminate)
    | rewrite check_masking_key_other by (rewrite Hs; discriminate)
    | rewrite check_payload_data_other by (rewrite Hs; discriminate) ].

(** A parser whose check is waiting stays as it is. *)
Lemma run_checks_blocked p : step p = p → run_checks p = p.
Proof.
  unfold step, run_checks. intros Hb.
  destruct (m_parse_stage p) eqn:Hs; skip_checks Hs; rewrite ?Hb; skip_checks Hs; done.
Qed.

Ltac skip_checks_after Hlt :=
  let side := (let Heq := fresh in intros Heq; rewrite Heq in Hlt; simpl in Hlt; lia) in
  repeat first
    [ rewrite check_fin_bit_other by side
    | rewrite check_opcode_other by side
    | rewrite check_mask_bit_other by side
    | rewrite check_payload_len_other by side
    | rewrite check_extended_payload_len_16_other by side
    | rewrite check_extended_payload_len_64_other by side
    | rewrite check_masking_key_other by side
    | rewrite check_payload_data_other by side ].

(** The checks in sequence start with the one of the current stage. *)
Lemma run_checks_step p : run_checks p = run_checks (step p).
Proof.
  destruct (step_progress p) as [->|Hlt]; [done|].
  unfold step in *. unfold run_checks.
  destruct (m_parse_stage p) eqn:Hs; skip_checks Hs; simpl in Hlt;
    match goal with
    | H : (_ < stage_index (m_parse_stage ?q))%nat |- _ => set (q' := q) in *
    end; skip_checks_after Hlt; done.
Qed.

(** From here on the sequence of checks is used through the lemmas above. *)
Opaque FrameParser.run_checks.

Lemma run_checks_buffer p : m_frame_buffer (run_checks p) = m_frame_buffer p.
Proof.
  remember (8 - stage_index (m_parse_stage p))%nat as n eqn:Hn.
  revert p Hn. induction (lt_wf n) as [n _ IH]. intros p Hn.
  destruct (step_progress p) as [Hb|Hlt]; [by rewrite run_checks_blocked|].
  rewrite run_checks_step.
  assert (stage_index (m_parse_stage (step p)) <= 8)%nat
    by (destruct (m_parse_stage (step p)); simpl; lia).
  rewrite (IH (8 - stage_index (m_parse_stage (step p)))%nat) by (done || lia).
  apply step_buffer.
Qed.

Lemma run_checks_wf p : wf p → wf (run_checks p).
Proof.
  remember (8 - stage_index (m_parse_stage p))%nat as n eqn:Hn.
  revert p Hn. induction (lt_wf n) as [n _ IH]. intros p Hn Hwf.
  destruct (step_progress p) as [Hb|Hlt]; [by rewrite run_checks_blocked|].
  rewrite run_checks_step.
  assert (stage_index (m_parse_stage (step p)) <= 8)%nat
    by (destruct (m_parse_stage (step p)); simpl; lia).
  apply (IH (8 - stage_index (m_parse_stage (step p)))%nat); [lia | done |].
  by apply step_wf.
Qed.

(** Running the checks, growing the buffer and running them again gives
    what running them on the grown buffer gives. *)
Lemma run_checks_extends p b' :
  wf p → extends (m_frame_buffer p) b' →
  run_checks (set_frame_buffer b' (run_checks p)) = run_checks (set_frame_buffer b' p).
Proof.
  remember (8 - stage_index (m_parse_stage p))%nat as n eqn:Hn.
  revert p Hn. induction (lt_wf n) as [n _ IH]. intros p Hn Hwf Hext.
  destruct (step_progress p) as [Hb|Hlt]; [by rewrite (run_checks_blocked p)|].
  destruct (step_extends p b' Hwf Hext) as [Hc|[Hb _]];
    [|by rewrite (run_checks_blocked p)].
  assert (stage_index (m_parse_stage (step p)) <= 8)%nat
    by (destruct (m_parse_stage (step p)); simpl; lia).
  rewrite (run_checks_step p), (run_checks_step (set_frame_buffer b' p)), Hc.
  apply (IH (8 - stage_index (m_parse_stage (step p)))%nat); [lia | done | |].
  - by apply step_wf.
  - by rewrite step_buffer.
Qed.

(** Under a buffer with the same bytes written the checks do the same. *)
Lemma run_checks_same_bytes p b' :
  wf p → extends (m_frame_buffer p) b' →
  FrameBuffer.size b' = FrameBuffer.size (m_frame_buffer p) →
  run_checks (set_frame_buffer b' p) = set_frame_buffer b' (run_checks p).
Proof.
  remember (8 - stage_index (m_parse_stage p))%nat as n eqn:Hn.
  revert p Hn. induction (lt_wf n) as [n _ IH]. intros p Hn Hwf Hext Hsz.
  destruct (step_extends p b' Hwf Hext) as [Hc|[_ Hlt]]; [|lia].
  destruct (step_progress p) as [Hb|Hlt].
  - rewrite (run_checks_blocked p Hb). apply run_checks_blocked.
    by rewrite Hc, Hb.
  - assert (stage_index (m_parse_stage (step p)) <= 8)%nat
      by (destruct (m_parse_stage (step p)); simpl; lia).
    rewrite (run_checks_step p), (run_checks_step (set_frame_buffer b' p)), Hc.
    apply (IH (8 - stage_index (m_parse_stage (step p)))%nat); [lia | done | | |].
    + by apply step_wf.
    + by rewrite step_buffer.
    + by rewrite step_buffer.
Qed.

(** *** [push_back] of a view, [reset], [update] *)

Lemma ensure_fit_m_buf sz b :
  ∃ pad, FrameBuffer.m_buf (FrameBuffer.ensure_fit sz b) = FrameBuffer.m_buf b ++ pad.
Proof.
  unfold FrameBuffer.ensure_fit.
  destruct (Z.ltb_spec (FrameBuffer.capacity b) sz) as [Hlt|_].
  - eexists. simpl. unfold FrameBuffer.resize.
    rewrite take_ge; [done|]. unfold FrameBuffer.capacity, zlen in Hlt. lia.
  - exists []. by rewrite app_nil_r.
Qed.

Lemma push_back_view_spec v b :
  0 <= FrameBuffer.m_ptr b → FrameBuffer.m_ptr b <= FrameBuffer.capacity b →
  ∃ b', FrameBuffer.push_back_view v b = Some b'
    ∧ FrameBuffer.size b' = FrameBuffer.size b + zlen v
    ∧ FrameBuffer.size b' <= FrameBuffer.capacity b'
    ∧ take (Z.to_nat (FrameBuffer.size b)) (FrameBuffer.m_buf b')
      = take (Z.to_nat (FrameBuffer.size b)) (FrameBuffer.m_buf b)
    ∧ slice (FrameBuffer.size b) (zlen v) (FrameBuffer.m_buf b') = v.
Proof.
  intros H0 Hc. unfold FrameBuffer.push_back_view, FrameBuffer.ensure_extra_space,
    FrameBuffer.get_space, FrameBuffer.size.
  pose proof (ensure_fit_capacity (FrameBuffer.m_ptr b + zlen v) b) as Hcap.
  pose proof (ensure_fit_m_ptr (FrameBuffer.m_ptr b + zlen v) b) as Hptr.
  destruct (ensure_fit_m_buf (FrameBuffer.m_ptr b + zlen v) b) as [pad Hbuf].
  destruct (FrameBuffer.ensure_fit _ b) as [m1 c1]. simpl in Hptr, Hbuf. subst c1 m1.
  unfold FrameBuffer.capacity in *. simpl in Hcap.
  set (n := Z.to_nat (FrameBuffer.m_ptr b)).
  set (w := take n (FrameBuffer.m_buf b)).
  set (free := drop n (FrameBuffer.m_buf b) ++ pad).
  assert (Hw : zlen w = FrameBuffer.m_ptr b).
  { unfold w, zlen in *. rewrite length_take. lia. }
  assert (Hm : FrameBuffer.m_buf b ++ pad = w ++ free).
  { unfold w, free. by rewrite app_assoc, take_drop. }
  assert (Hfree : (length v ≤ length free)%nat).
  { rewrite Hm, zlen_app in Hcap. unfold zlen in *.
    destruct (_ <? _) eqn:E; [lia | apply Z.ltb_ge in E; lia]. }
  simpl. rewrite Hm, <- Hw, store_bytes_free by done.
  eexists. split; [reflexivity|]. simpl.
  assert (Hn : n = length w) by (unfold zlen in Hw; lia).
  rewrite !zlen_app. unfold slice. rewrite !zlen_to_nat.
  repeat split.
  - pose proof (zlen_nonneg (drop (length v) free)). lia.
  - rewrite <- app_assoc. by rewrite take_app_length'.
  - rewrite <- app_assoc, drop_app_length. by rewrite take_app_length.
Qed.

Lemma view_take b :
  FrameBuffer.view b = take (Z.to_nat (FrameBuffer.size b)) (FrameBuffer.m_buf b).
Proof. unfold FrameBuffer.view, slice. by rewrite drop_0. Qed.

Lemma zlen_slice off n (m : list byte) :
  0 <= off → 0 <= n → off + n <= zlen m → zlen (slice off n m) = n.
Proof.
  intros. unfold slice, zlen in *. rewrite length_take, length_drop. lia.
Qed.

Lemma slice_of_view b pre rest :
  FrameBuffer.view b = pre ++ rest → FrameBuffer.size b = zlen (pre ++ rest) →
  slice (zlen pre) (zlen rest) (FrameBuffer.m_buf b) = rest.
Proof.
  intros Hv Hs. rewrite view_take, Hs, zlen_to_nat in Hv.
  unfold slice. rewrite !zlen_to_nat, take_drop_commute, <- length_app, Hv.
  by rewrite drop_app_length.
Qed.

(** A parser at the start of a frame, over the buffer [b], its [m_frame]
    zero as [reset] and [clear] leave it. *)
Definition parser_on (b : FrameBuffer.t) : t := mk FIN_BIT Frame_zero b 0 0.

(** ... and over a buffer that holds exactly [bs]. *)
Definition at_start (bs : list byte) : t := parser_on (FrameBuffer.mk bs (zlen bs)).

(** Where the checks get on the bytes [bs] of a stream.  The definition is
    sealed; [decoded_unfold] gives it back. *)
Definition decoded_sealed : { f : list byte → t | f = λ bs, run_checks (at_start bs) }.
Proof. by eexists. Qed.

Definition decoded : list byte → t := proj1_sig decoded_sealed.

Lemma decoded_unfold bs : decoded bs = run_checks (at_start bs).
Proof. unfold decoded. by rewrite (proj2_sig decoded_sealed). Qed.

(** What [parse] returns in the state [q]. *)
Definition result_of (q : t) : option Frame :=
  if negb (done q) then None else Some (m_frame q).

(** [tracks p pre]: the parser has got the bytes [pre] since the start of
    the frame and is where the checks get on them. *)
Definition tracks (p : t) (pre : list byte) : Prop :=
  FrameBuffer.view (m_frame_buffer p) = pre
  ∧ FrameBuffer.size (m_frame_buffer p) = zlen pre
  ∧ FrameBuffer.size (m_frame_buffer p) <= FrameBuffer.capacity (m_frame_buffer p)
  ∧ p = set_frame_buffer (m_frame_buffer p) (decoded pre).

Lemma wf_at_start bs : wf (at_start bs).
Proof. unfold wf, at_start, FrameBuffer.capacity. simpl. pose proof (zlen_nonneg bs). lia. Qed.

Lemma wf_decoded bs : wf (decoded bs).
Proof. rewrite decoded_unfold. apply run_checks_wf, wf_at_start. Qed.

Lemma decoded_buffer bs : m_frame_buffer (decoded bs) = FrameBuffer.mk bs (zlen bs).
Proof. by rewrite decoded_unfold, run_checks_buffer. Qed.

Lemma extends_holding bs b :
  zlen bs <= FrameBuffer.size b → FrameBuffer.size b <= FrameBuffer.capacity b →
  take (length bs) (FrameBuffer.m_buf b) = bs →
  extends (FrameBuffer.mk bs (zlen bs)) b.
Proof.
  intros ? ? Ht. unfold extends. simpl. rewrite zlen_to_nat, Ht.
  by rewrite take_ge.
Qed.

Lemma set_frame_buffer_at_start b bs : set_frame_buffer b (at_start bs) = parser_on b.
Proof. reflexivity. Qed.

Lemma set_frame_buffer_stage b q : m_parse_stage (set_frame_buffer b q) = m_parse_stage q.
Proof. reflexivity. Qed.

Lemma step_done p : m_parse_stage p = DONE → step p = p.
Proof. intros H. unfold step. by rewrite H. Qed.

(** The parser over [b], which holds [bs]: where the checks get on [bs]. *)
Lemma run_checks_parser_on bs b :
  FrameBuffer.size b = zlen bs → FrameBuffer.size b <= FrameBuffer.capacity b →
  FrameBuffer.view b = bs →
  run_checks (parser_on b) = set_frame_buffer b (decoded bs).
Proof.
  intros Hs Hc Hv. rewrite view_take, Hs, zlen_to_nat in Hv.
  rewrite decoded_unfold, <- (set_frame_buffer_at_start b bs).
  apply run_checks_same_bytes; [apply wf_at_start | | done].
  apply extends_holding; [lia | done | done].
Qed.

Lemma decoded_done_app pre v :
  m_parse_stage (decoded pre) = DONE →
  decoded (pre ++ v)
  = set_frame_buffer (FrameBuffer.mk (pre ++ v) (zlen (pre ++ v))) (decoded pre).
Proof.
  intros Hd. rewrite (decoded_unfold (pre ++ v)). unfold at_start.
  rewrite <- (set_frame_buffer_at_start _ pre).
  rewrite <- run_checks_extends; [| apply wf_at_start |].
  - rewrite <- decoded_unfold. apply run_checks_blocked, step_done.
    by rewrite set_frame_buffer_stage.
  - apply extends_holding; simpl.
    + rewrite zlen_app. pose proof (zlen_nonneg v). lia.
    + unfold FrameBuffer.capacity. simpl. lia.
    + by rewrite take_app_length.
Qed.

Lemma set_frame_buffer_twice b b' q :
  set_frame_buffer b' (set_frame_buffer b q) = set_frame_buffer b' q.
Proof. reflexivity. Qed.

Lemma set_frame_buffer_ptr b q : m_ptr (set_frame_buffer b q) = m_ptr q.
Proof. reflexivity. Qed.

Lemma set_frame_buffer_payload_len b q :
  m_payload_len (set_frame_buffer b q) = m_payload_len q.
Proof. reflexivity. Qed.

Lemma set_frame_buffer_buffer b q : m_frame_buffer (set_frame_buffer b q) = b.
Proof. reflexivity. Qed.

Lemma result_of_set_frame_buffer b q : result_of (set_frame_buffer b q) = result_of q.
Proof. reflexivity. Qed.

Lemma parse_result p : parse p = (result_of (run_checks p), run_checks p).
Proof. unfold parse, result_of. by destruct (negb _). Qed.

Lemma tracks_wf p pre : tracks p pre → wf p.
Proof.
  intros (_ & Hsz & Hcap & Hp). pose proof (wf_decoded pre) as (H0 & H1 & _ & H3).
  rewrite decoded_buffer in H1. simpl in H1.
  unfold wf. rewrite Hp, set_frame_buffer_ptr, set_frame_buffer_payload_len,
    set_frame_buffer_buffer. lia.
Qed.

Lemma tracks_new : tracks (new Frame_zero) [].
Proof.
  unfold tracks. split; [reflexivity|]. split; [reflexivity|].
  split; [apply zlen_nonneg|].
  rewrite decoded_unfold, run_checks_blocked by reflexivity. reflexivity.
Qed.

(** One call of [update] with a non-empty chunk, on a parser that is within
    a frame. *)
Lemma update_tracks p pre v :
  tracks p pre → m_parse_stage p ≠ DONE → v ≠ [] →
  ∃ p', update v p = Some (result_of (decoded (pre ++ v)), p')
        ∧ tracks p' (pre ++ v).
Proof.
  intros Ht Hnd Hne. pose proof (tracks_wf p pre Ht) as Hwf.
  destruct Ht as (Hv & Hsz & Hcap & Hp).
  unfold update.
  assert (done p = false) as -> by (unfold done; by rewrite bool_decide_false).
  cbn [mbind option_bind].
  assert ((zlen v =? 0) = false) as ->.
  { apply Z.eqb_neq. destruct v; [done|]. rewrite zlen_cons.
    pose proof (zlen_nonneg v). lia. }
  cbn [negb].
  destruct (push_back_view_spec v (m_frame_buffer p)) as (b' & -> & Hs' & Hc' & Htk & Hsl).
  { destruct Hwf as (? & ? & _). unfold FrameBuffer.size in *. lia. }
  { done. }
  cbn [mbind option_bind].
  assert (Hext : extends (m_frame_buffer p) b').
  { unfold extends. pose proof (zlen_nonneg v). split; [lia|]. done. }
  assert (Hview : FrameBuffer.view b' = pre ++ v).
  { rewrite view_take, Hs', Hsz. rewrite view_take, Hsz in Hv.
    rewrite Hsz in Htk, Hsl. unfold slice in Hsl.
    rewrite Z2Nat.inj_add by apply zlen_nonneg.
    by rewrite <- take_take_drop, Htk, Hv, Hsl. }
  assert (Hrun : run_checks (set_frame_buffer b' p)
                 = set_frame_buffer b' (decoded (pre ++ v))).
  { rewrite Hp, set_frame_buffer_twice, decoded_unfold.
    rewrite run_checks_extends; [| apply wf_at_start |].
    - rewrite set_frame_buffer_at_start.
      apply run_checks_parser_on; [|done|done].
      rewrite Hs', Hsz, zlen_app. done.
    - apply extends_holding; simpl.
      + pose proof (zlen_nonneg v). lia.
      + done.
      + destruct Hext as (_ & _ & E). rewrite Hsz, zlen_to_nat in E.
        rewrite E. rewrite view_take, Hsz, zlen_to_nat in Hv. done. }
  unfold parse_if_remaining.
  rewrite (remaining_set_frame_buffer p b' Hwf Hext).
  assert ((FrameBuffer.size b' - m_ptr p =? 0) = false) as ->.
  { apply Z.eqb_neq. destruct Hwf as (? & ? & _).
    assert (0 < zlen v); [|lia].
    destruct v; [done|]. rewrite zlen_cons. pose proof (zlen_nonneg v). lia. }
  rewrite parse_result, Hrun, result_of_set_frame_buffer.
  eexists. split; [reflexivity|].
  assert (Hsz' : FrameBuffer.size b' = zlen (pre ++ v)) by (rewrite Hs', Hsz, zlen_app; done).
  unfold tracks. rewrite set_frame_buffer_buffer. done.
Qed.

Lemma wf_parser_on b :
  0 <= FrameBuffer.size b → FrameBuffer.size b <= FrameBuffer.capacity b →
  wf (parser_on b).
Proof. intros. unfold wf. simpl. lia. Qed.

(** [reset] starts the next frame over the bytes that were left. *)
Lemma reset_spec p :
  wf p →
  ∃ b, reset p = Some (parser_on b)
    ∧ FrameBuffer.size b = remaining p
    ∧ FrameBuffer.size b <= FrameBuffer.capacity b
    ∧ FrameBuffer.view b
      = slice (m_ptr p) (remaining p) (FrameBuffer.m_buf (m_frame_buffer p)).
Proof.
  intros Hwf. pose proof (remaining_wf p Hwf) as Hr.
  destruct Hwf as (H0 & H1 & H2 & _). unfold reset.
  destruct (Z.gtb_spec (remaining p) 0) as [Hgt|Hle].
  - set (previous := slice _ _ _).
    assert (Hlen : zlen previous = remaining p).
    { apply zlen_slice; unfold FrameBuffer.capacity, FrameBuffer.size in *; lia. }
    destruct (push_back_view_spec previous (FrameBuffer.reset (m_frame_buffer p)))
      as (b & -> & Hs & Hc & _ & Hsl).
    { simpl. lia. }
    { simpl. apply zlen_nonneg. }
    cbn [mbind option_bind]. exists b.
    change (FrameBuffer.size (FrameBuffer.reset (m_frame_buffer p))) with 0 in *.
    rewrite Z.add_0_l in Hs. rewrite <- Hlen.
    split; [done|]. split; [done|]. split; [done|].
    unfold FrameBuffer.view. unfold FrameBuffer.size in Hs. by rewrite Hs.
  - cbn [mbind option_bind]. exists (FrameBuffer.reset (m_frame_buffer p)).
    assert (remaining p = 0) as -> by lia.
    split; [done|]. split; [done|]. split; [apply zlen_nonneg|].
    unfold FrameBuffer.view, slice. simpl. by rewrite !take_0.
Qed.

(** [update] keeps the cursors in order. *)
Lemma update_wf v p :
  wf p → ∃ r p', update v p = Some (r, p') ∧ wf p'.
Proof.
  intros Hwf. unfold update.
  assert (∃ p0, (if done p then reset p else Some p) = Some p0 ∧ wf p0)
    as (p0 & -> & Hwf0).
  { destruct (done p); [|by eauto].
    destruct (reset_spec p Hwf) as (b & -> & Hs & Hc & _).
    eexists; split; [done|]. apply wf_parser_on; [|done].
    rewrite Hs, (remaining_wf p Hwf). destruct Hwf as (? & ? & _). lia. }
  cbn [mbind option_bind]. clear p Hwf.
  assert (Hpir : ∀ q, wf q → wf (parse_if_remaining q).2).
  { intros q Hq. unfold parse_if_remaining. destruct (_ =? _); [done|].
    rewrite parse_result. by apply run_checks_wf. }
  destruct (negb (zlen v =? 0)).
  - destruct (push_back_view_spec v (m_frame_buffer p0)) as (b' & -> & Hs' & Hc' & Htk & _).
    { destruct Hwf0 as (? & ? & _). unfold FrameBuffer.size in *. lia. }
    { by destruct Hwf0 as (_ & _ & ? & _). }
    cbn [mbind option_bind].
    assert (Hext : extends (m_frame_buffer p0) b').
    { unfold extends. pose proof (zlen_nonneg v). split; [lia|]. done. }
    pose proof (Hpir _ (wf_set_frame_buffer p0 b' Hwf0 Hext)) as Hw.
    destruct (parse_if_remaining _) as [r q]. eauto.
  - destruct (bool_decide _); [by eauto|].
    pose proof (Hpir _ Hwf0) as Hw.
    destruct (parse_if_remaining _) as [r q]. eauto.
Qed.

Lemma update_bool_wf new_data p :
  wf p → ∃ r p', update_bool new_data p = Some (r, p') ∧ wf p'.
Proof.
  intros Hwf. unfold update_bool.
  assert (∃ p0, (if done p then reset p else Some p) = Some p0 ∧ wf p0)
    as (p0 & -> & Hwf0).
  { destruct (done p); [|by eauto].
    destruct (reset_spec p Hwf) as (b & -> & Hs & Hc & _).
    eexists; split; [done|]. apply wf_parser_on; [|done].
    rewrite Hs, (remaining_wf p Hwf). destruct Hwf as (? & ? & _). lia. }
  cbn [mbind option_bind].
  destruct (_ && _); [by eauto|].
  assert (Hw : wf (parse_if_remaining p0).2).
  { unfold parse_if_remaining. destruct (_ =? _); [done|].
    rewrite parse_result. by apply run_checks_wf. }
  destruct (parse_if_remaining _) as [r q]. eauto.
Qed.

Lemma clear_wf p : wf (clear p).
Proof. unfold wf, clear. simpl. pose proof (zlen_nonneg (FrameBuffer.m_buf (m_frame_buffer p))).
  unfold FrameBuffer.capacity. simpl. lia. Qed.

Lemma new_wf m_frame0 : wf (new m_frame0).
Proof. exact (tracks_wf (new Frame_zero) [] tracks_new). Qed.

(** *** Frames in a stream of chunks *)

Lemma result_of_Some q F :
  result_of q = Some F ↔ m_parse_stage q = DONE ∧ m_frame q = F.
Proof.
  unfold result_of, done. case_bool_decide; simpl; split.
  - intros [= <-]. done.
  - by intros [_ ->].
  - done.
  - by intros [? _].
Qed.

Lemma result_of_None q : m_parse_stage q ≠ DONE → result_of q = None.
Proof. intros. unfold result_of, done. by rewrite bool_decide_false. Qed.

Lemma update_new bs :
  bs ≠ [] →
  ∃ p, update bs (new Frame_zero) = Some (result_of (decoded bs), p) ∧ tracks p bs.
Proof. intros. by apply (update_tracks (new Frame_zero) [] bs tracks_new). Qed.

Lemma tracks_ptr p bs : tracks p bs → m_ptr p = m_ptr (decoded bs).
Proof. intros (_ & _ & _ & ->). reflexivity. Qed.

Lemma tracks_stage p bs : tracks p bs → m_parse_stage p = m_parse_stage (decoded bs).
Proof. intros (_ & _ & _ & ->). reflexivity. Qed.

Lemma decodes_to_decoded bs F :
  decodes_to Frame_zero bs F ↔
  bs ≠ [] ∧ m_parse_stage (decoded bs) = DONE ∧ m_frame (decoded bs) = F
  ∧ m_ptr (decoded bs) = zlen bs.
Proof.
  split.
  - intros (p & Hu & Hp). destruct bs as [|x bs]; [by vm_compute in Hu|].
    destruct (update_new (x :: bs)) as (p' & Hu' & Ht); [done|].
    rewrite Hu in Hu'. injection Hu' as Hr <-. symmetry in Hr.
    apply result_of_Some in Hr as [? ?].
    rewrite (tracks_ptr _ _ Ht) in Hp. done.
  - intros (Hne & Hd & Hf & Hp).
    destruct (update_new bs Hne) as (p' & Hu' & Ht).
    exists p'. rewrite Hu', (tracks_ptr _ _ Ht).
    split; [|done]. f_equal. f_equal. by apply result_of_Some.
Qed.

(** After a frame is complete, bytes that follow do not change it. *)
Lemma decoded_strict_prefix pre v :
  v ≠ [] → m_ptr (decoded (pre ++ v)) = zlen (pre ++ v) →
  m_parse_stage (decoded pre) ≠ DONE.
Proof.
  intros Hv Hp Hd. rewrite (decoded_done_app pre v Hd), set_frame_buffer_ptr in Hp.
  pose proof (wf_decoded pre) as (_ & H1 & _). rewrite decoded_buffer in H1. simpl in H1.
  rewrite zlen_app in Hp. destruct v; [done|]. rewrite zlen_cons in Hp.
  pose proof (zlen_nonneg v). lia.
Qed.

Lemma apply_ops_wf ops : ∀ p, wf p → ∃ p', apply_ops ops p = Some p' ∧ wf p'.
Proof.
  induction ops as [|op ops IH]; intros p Hwf; [by eauto|].
  assert (∃ p1, apply_op op p = Some p1 ∧ wf p1) as (p1 & E & Hwf1).
  { destruct op as [chunk|new_data|]; simpl.
    - destruct (update_wf chunk p Hwf) as (r & p1 & -> & ?). by eauto.
    - destruct (update_bool_wf new_data p Hwf) as (r & p1 & -> & ?). by eauto.
    - eexists; split; [done|]. apply clear_wf. }
  cbn [apply_ops]. rewrite E. cbn [mbind option_bind]. by apply IH.
Qed.

End Parser.

(** ** The parser on the layout of a frame *)

Section Layout.
Import FrameParser.

Variable bs : list byte.

(** The buffer that holds exactly [bs]. *)
Abbreviation B := (FrameBuffer.mk bs (zlen bs)).

Lemma remaining_holding s F len ptr :
  0 <= ptr <= zlen bs → remaining (mk s F B len ptr) = zlen bs - ptr.
Proof.
  intros. unfold remaining, size_sub. cbn [m_frame_buffer m_ptr FrameBuffer.size FrameBuffer.m_ptr].
  destruct (Z.leb_spec ptr (zlen bs)); lia.
Qed.

Lemma lookup_holding ptr x :
  0 <= ptr → bs !! Z.to_nat ptr = Some x → ptr < zlen bs.
Proof. intros ? H%lookup_lt_Some. unfold zlen. lia. Qed.

Lemma read_holding s F len ptr x :
  bs !! Z.to_nat ptr = Some x → read (mk s F B len ptr) = x.
Proof. intros H. unfold read. cbn [m_frame_buffer m_ptr FrameBuffer.m_buf]. by rewrite H. Qed.

(** Bit 7 of a byte, as the parser reads a flag. *)
Definition flag (x : byte) : bool := negb (Z.land (byte.unsigned x) 128 =? 0).

Lemma step_fin_bit F len ptr x :
  0 <= ptr → bs !! Z.to_nat ptr = Some x →
  step (mk FIN_BIT F B len ptr) = mk OPCODE (set_fin (flag x) F) B len ptr.
Proof.
  intros H0 Hx. pose proof (lookup_holding _ _ H0 Hx).
  unfold step, check_fin_bit. cbn [m_parse_stage].
  rewrite remaining_holding, (read_holding _ _ _ _ x) by (done || lia).
  rewrite bool_decide_false by (by intros ?). cbn [orb].
  destruct (Z.eqb_spec (zlen bs - ptr) 0); [lia|]. reflexivity.
Qed.

Lemma step_opcode F len ptr x :
  0 <= ptr → bs !! Z.to_nat ptr = Some x →
  step (mk OPCODE F B len ptr)
  = mk MASK_BIT (set_opcode (byte.of_Z (Z.land (byte.unsigned x) 15)) F) B len (ptr + 1).
Proof.
  intros H0 Hx. pose proof (lookup_holding _ _ H0 Hx).
  unfold step, check_opcode, consume. cbn [m_parse_stage].
  rewrite remaining_holding, (read_holding _ _ _ _ x) by (done || lia).
  rewrite bool_decide_false by (by intros ?). cbn [orb].
  destruct (Z.eqb_spec (zlen bs - ptr) 0); [lia|]. reflexivity.
Qed.

Lemma step_mask_bit F len ptr x :
  0 <= ptr → bs !! Z.to_nat ptr = Some x →
  step (mk MASK_BIT F B len ptr) = mk PAYLOAD_LEN (set_mask (flag x) F) B len ptr.
Proof.
  intros H0 Hx. pose proof (lookup_holding _ _ H0 Hx).
  unfold step, check_mask_bit. cbn [m_parse_stage].
  rewrite remaining_holding, (read_holding _ _ _ _ x) by (done || lia).
  rewrite bool_decide_false by (by intros ?). cbn [orb].
  destruct (Z.eqb_spec (zlen bs - ptr) 0); [lia|]. reflexivity.
Qed.

(** The stage after the length is known, by the mask flag. *)
Definition stage_after (F : Frame) : ParseStage :=
  if mask F then MASKING_KEY else PAYLOAD_DATA.

Lemma step_payload_len F len ptr x :
  0 <= ptr → bs !! Z.to_nat ptr = Some x →
  step (mk PAYLOAD_LEN F B len ptr)
  = let c := Z.land (byte.unsigned x) 127 in
    if c =? 126 then mk EXTENDED_PAYLOAD_LEN_16 F B len (ptr + 1)
    else if c =? 127 then mk EXTENDED_PAYLOAD_LEN_64 F B len (ptr + 1)
    else mk (stage_after F) F B c (ptr + 1).
Proof.
  intros H0 Hx. pose proof (lookup_holding _ _ H0 Hx).
  unfold step, check_payload_len, consume. cbn [m_parse_stage].
  rewrite remaining_holding, (read_holding _ _ _ _ x) by (done || lia).
  rewrite bool_decide_false by (by intros ?). cbn [orb].
  destruct (Z.eqb_spec (zlen bs - ptr) 0); [lia|]. cbv zeta. cbn [fst snd].
  by repeat (destruct (_ =? _)).
Qed.

Lemma step_extended_payload_len_16 F len ptr x y :
  0 <= ptr → bs !! Z.to_nat ptr = Some x → bs !! Z.to_nat (ptr + 1) = Some y →
  step (mk EXTENDED_PAYLOAD_LEN_16 F B len ptr)
  = mk (stage_after F) F B
      (Z.lor (to_uint64 (Z.shiftl (byte.unsigned x) 8)) (byte.unsigned y)) (ptr + 1 + 1).
Proof.
  intros H0 Hx Hy. assert (0 <= ptr + 1) as H1 by lia.
  pose proof (lookup_holding _ _ H1 Hy).
  unfold step, check_extended_payload_len_16, consume. cbn [m_parse_stage].
  rewrite remaining_holding by lia.
  rewrite bool_decide_false by (by intros ?). cbn [orb].
  destruct (Z.ltb_spec (zlen bs - ptr) 2); [lia|]. cbv zeta. cbn [fst snd].
  unfold set_ptr. cbn [m_parse_stage m_frame m_frame_buffer m_payload_len m_ptr].
  rewrite (read_holding _ _ _ _ x), (read_holding _ _ _ _ y) by done.
  reflexivity.
Qed.

(** The loop of [check_extended_payload_len_64] over the bytes [xs]. *)
Fixpoint combine64 (n : nat) (xs : list byte) (acc : Z) : Z :=
  match n, xs with
  | S i, x :: xs =>
      combine64 i xs
        (Z.lor acc (to_uint64 (int_shl (byte.unsigned x) (8 * Z.of_nat i))))
  | _, _ => acc
  end.

Lemma take_drop_cons (n : nat) (k : nat) (x : byte) xs :
  take (S n) (drop k bs) = x :: xs →
  bs !! k = Some x ∧ take n (drop (S k) bs) = xs.
Proof.
  intros H. destruct (drop k bs) as [|y rest] eqn:E; [done|].
  simpl in H. injection H as -> H.
  assert (Hk : bs !! k = Some x).
  { rewrite <- (Nat.add_0_r k), <- lookup_drop, E. done. }
  split; [done|]. by rewrite (drop_S _ _ _ Hk) in E; injection E as <-.
Qed.

Lemma read_length64_holding n : ∀ xs s F len ptr,
  0 <= ptr → take n (drop (Z.to_nat ptr) bs) = xs → length xs = n →
  read_length64 n (mk s F B len ptr)
  = mk s F B (combine64 n xs len) (ptr + Z.of_nat n).
Proof.
  induction n as [|n IH]; intros xs s F len ptr H0 Hxs Hlen.
  - destruct xs; [|done]. simpl. by rewrite Z.add_0_r.
  - destruct xs as [|x xs]; [done|].
    apply take_drop_cons in Hxs as [Hx Hxs].
    cbn [read_length64 combine64]. unfold consume. cbv zeta. cbn [fst snd].
    unfold set_ptr, set_payload_len.
    cbn [m_parse_stage m_frame m_frame_buffer m_payload_len m_ptr].
    rewrite (read_holding _ _ _ _ x) by done.
    rewrite (IH xs); [f_equal; lia | lia | | by injection Hlen].
    by replace (Z.to_nat (ptr + 1)) with (S (Z.to_nat ptr)) by lia.
Qed.

Lemma take_drop_length (n k : nat) xs :
  (0 < n)%nat → take n (drop k bs) = xs → length xs = n →
  Z.of_nat k + Z.of_nat n <= zlen bs.
Proof.
  intros Hn <- H. rewrite length_take, length_drop in H. unfold zlen. lia.
Qed.

Lemma step_extended_payload_len_64 F len ptr xs :
  0 <= ptr → take 8 (drop (Z.to_nat ptr) bs) = xs → length xs = 8%nat →
  step (mk EXTENDED_PAYLOAD_LEN_64 F B len ptr)
  = mk (stage_after F) F B (combine64 8 xs 0) (ptr + 8).
Proof.
  intros H0 Hxs Hlen. pose proof (take_drop_length 8 _ _ ltac:(lia) Hxs Hlen).
  unfold step. cbn [m_parse_stage]. rewrite check_extended_payload_len_64_unfold.
  cbn [m_parse_stage]. rewrite remaining_holding by lia.
  rewrite bool_decide_false by (by intros ?). cbn [orb].
  destruct (Z.ltb_spec (zlen bs - ptr) 8); [lia|].
  unfold set_payload_len. cbn [m_parse_stage m_frame m_frame_buffer m_payload_len m_ptr].
  by rewrite (read_length64_holding 8 xs).
Qed.

Lemma step_masking_key F len ptr k0 k1 k2 k3 :
  0 <= ptr → take 4 (drop (Z.to_nat ptr) bs) = [k0; k1; k2; k3] →
  step (mk MASKING_KEY F B len ptr)
  = mk PAYLOAD_DATA (set_masking_key (mk_array4 k0 k1 k2 k3) F) B len (ptr + 4).
Proof.
  intros H0 Hxs. pose proof (take_drop_length 4 _ _ ltac:(lia) Hxs eq_refl).
  apply take_drop_cons in Hxs as [Hk0 Hxs].
  apply take_drop_cons in Hxs as [Hk1 Hxs].
  apply take_drop_cons in Hxs as [Hk2 Hxs].
  apply take_drop_cons in Hxs as [Hk3 _].
  replace (S (Z.to_nat ptr)) with (Z.to_nat (ptr + 1)) in * by lia.
  replace (S (Z.to_nat (ptr + 1))) with (Z.to_nat (ptr + 1 + 1)) in * by lia.
  replace (S (Z.to_nat (ptr + 1 + 1))) with (Z.to_nat (ptr + 1 + 1 + 1)) in * by lia.
  unfold step, check_masking_key, consume. cbn [m_parse_stage].
  rewrite remaining_holding by lia.
  rewrite bool_decide_false by (by intros ?). cbn [orb].
  destruct (Z.ltb_spec (zlen bs - ptr) 4); [lia|]. cbv zeta. cbn [fst snd].
  unfold set_ptr. cbn [m_parse_stage m_frame m_frame_buffer m_payload_len m_ptr].
  rewrite (read_holding _ _ _ _ k0), (read_holding _ _ _ _ k1),
    (read_holding _ _ _ _ k2), (read_holding _ _ _ _ k3) by done.
  unfold set_stage, set_frame. cbn [m_parse_stage m_frame m_frame_buffer m_payload_len m_ptr].
  f_equal. lia.
Qed.

Lemma step_payload_data F len ptr :
  0 <= ptr → 0 <= len → ptr + len <= zlen bs →
  step (mk PAYLOAD_DATA F B len ptr)
  = if len =? 0 then mk DONE F B len ptr
    else mk DONE (set_payload (slice ptr len bs) F) B len (ptr + len).
Proof.
  intros H0 H1 H2. unfold step, check_payload_data. cbn [m_parse_stage m_payload_len].
  rewrite remaining_holding by lia.
  rewrite bool_decide_false by (by intros ?). cbn [orb].
  destruct (Z.ltb_spec (zlen bs - ptr) len); [lia|].
  by destruct (len =? 0).
Qed.

End Layout.

(** ** The header bytes, read back *)

Lemma flag_first (b : bool) (o : byte) :
  flag (byte.of_Z (Z.lor (if b then 128 else 0) (Z.land (byte.unsigned o) 15))) = b.
Proof. destruct b, o; reflexivity. Qed.

Lemma opcode_first (b : bool) (o : byte) :
  byte.unsigned o < 16 →
  byte.of_Z (Z.land
    (byte.unsigned (byte.of_Z (Z.lor (if b then 128 else 0) (Z.land (byte.unsigned o) 15))))
    15) = o.
Proof. intros H. destruct b, o; first [reflexivity | by vm_compute in H]. Qed.

Lemma flag_second (m : bool) (x : byte) :
  byte.unsigned x < 128 →
  flag (byte.of_Z (Z.lor (if m then 128 else 0) (byte.unsigned x))) = m.
Proof. intros H. destruct m, x; first [reflexivity | by vm_compute in H]. Qed.

Lemma length_second (m : bool) (x : byte) :
  byte.unsigned x < 128 →
  Z.land (byte.unsigned (byte.of_Z (Z.lor (if m then 128 else 0) (byte.unsigned x)))) 127
  = byte.unsigned x.
Proof. intros H. destruct m, x; first [reflexivity | by vm_compute in H]. Qed.

Lemma extended_16_value n :
  0 <= n <= 65535 →
  Z.lor (to_uint64 (Z.shiftl (byte.unsigned (byte.of_Z (Z.land (Z.shiftr n 8) 255))) 8))
    (byte.unsigned (byte.of_Z (Z.land n 255))) = n.
Proof.
  intros Hn.
  rewrite !land_255 by (try apply Z.shiftr_nonneg; lia).
  rewrite Z.shiftr_div_pow2 by lia. change (2 ^ 8) with 256.
  pose proof (Z.mod_pos_bound (n / 256) 256 ltac:(lia)) as Hhi.
  pose proof (Z.mod_pos_bound n 256 ltac:(lia)) as Hlo.
  rewrite !unsigned_of_Z_small by done.
  unfold to_uint64. rewrite Z.shiftl_mul_pow2 by lia. change (2 ^ 8) with 256.
  change (2 ^ 64) with 18446744073709551616.
  rewrite (Z.mod_small (_ * 256)) by lia.
  rewrite <- (Z.shiftl_mul_pow2 _ 8) by lia.
  rewrite lor_shiftl_small by (change (2 ^ 8) with 256; lia).
  change (2 ^ 8) with 256.
  rewrite (Z.mod_small (n / 256)) by (split; [apply Z.div_pos; lia | apply Z.div_lt_upper_bound; lia]).
  pose proof (Z.div_mod n 256 ltac:(lia)). lia.
Qed.

Lemma int_shl_0 count : int_shl 0 count = 0.
Proof. unfold int_shl. by rewrite Z.shiftl_0_l. Qed.

Lemma int_shl_small a count :
  0 <= count < 32 → 0 <= a * 2 ^ count < 2 ^ 31 → int_shl a count = a * 2 ^ count.
Proof.
  intros Hc Ha. unfold int_shl, to_int.
  rewrite (Z.mod_small count 32) by lia. rewrite Z.shiftl_mul_pow2 by lia.
  change (2 ^ 31) with 2147483648 in *. change (2 ^ 32) with 4294967296.
  rewrite Z.mod_small by lia. lia.
Qed.

Lemma byte_of_shiftr_high n k :
  0 <= n < 2 ^ 31 → 32 <= k → byte.of_Z (Z.land (Z.shiftr n k) 255) = Byte.x00.
Proof.
  intros Hn Hk. rewrite Z.shiftr_div_pow2 by lia.
  rewrite Z.div_small; [reflexivity|].
  split; [lia|]. apply Z.lt_le_trans with (2 ^ 31); [lia|].
  apply Z.pow_le_mono_r; lia.
Qed.

Lemma big_endian_4 n :
  0 <= n < 2 ^ 31 →
  Z.lor (Z.lor (Z.lor (n / 2 ^ 24 mod 256 * 2 ^ 24) (n / 2 ^ 16 mod 256 * 2 ^ 16))
               (n / 2 ^ 8 mod 256 * 2 ^ 8))
        (n mod 256) = n.
Proof.
  intros Hn.
  change (2 ^ 31) with 2147483648 in Hn.
  change (2 ^ 24) with 16777216. change (2 ^ 16) with 65536. change (2 ^ 8) with 256.
  set (a := n / 16777216 mod 256). set (b := n / 65536 mod 256).
  set (c := n / 256 mod 256). set (d := n mod 256).
  assert (0 <= a < 256 ∧ 0 <= b < 256 ∧ 0 <= c < 256 ∧ 0 <= d < 256
          ∧ n = a * 16777216 + b * 65536 + c * 256 + d) as (Ha & Hb & Hc & Hd & Hsum).
  { unfold a, b, c, d. clearbody a b c d. Z.div_mod_to_equations. lia. }
  clearbody a b c d.
  replace (a * 16777216) with (Z.shiftl a 24) by (rewrite Z.shiftl_mul_pow2; lia).
  rewrite (lor_shiftl_small a (b * 65536) 24) by (change (2 ^ 24) with 16777216; lia).
  change (2 ^ 24) with 16777216.
  replace (a * 16777216 + b * 65536) with (Z.shiftl (a * 256 + b) 16)
    by (rewrite Z.shiftl_mul_pow2; lia).
  rewrite (lor_shiftl_small _ (c * 256) 16) by (change (2 ^ 16) with 65536; lia).
  change (2 ^ 16) with 65536.
  replace ((a * 256 + b) * 65536 + c * 256) with (Z.shiftl (a * 65536 + b * 256 + c) 8)
    by (rewrite Z.shiftl_mul_pow2; lia).
  rewrite (lor_shiftl_small _ d 8) by (change (2 ^ 8) with 256; lia).
  change (2 ^ 8) with 256. lia.
Qed.

Lemma length_byte_value n k :
  0 <= n < 2 ^ 31 → 0 <= k < 32 →
  to_uint64 (int_shl (byte.unsigned (byte.of_Z (Z.land (Z.shiftr n k) 255))) k)
  = n / 2 ^ k mod 256 * 2 ^ k.
Proof.
  intros Hn Hk.
  assert (0 < 2 ^ k) by (apply Z.pow_pos_nonneg; lia).
  rewrite land_255 by (apply Z.shiftr_nonneg; lia).
  rewrite Z.shiftr_div_pow2 by lia.
  pose proof (Z.mod_pos_bound (n / 2 ^ k) 256 ltac:(lia)) as Hb.
  rewrite unsigned_of_Z_small by done.
  assert (0 <= n / 2 ^ k) by (apply Z.div_pos; lia).
  assert (n / 2 ^ k mod 256 <= n / 2 ^ k) by (apply Z.mod_le; lia).
  assert (n / 2 ^ k * 2 ^ k <= n) by (rewrite Z.mul_comm; apply Z.mul_div_le; lia).
  assert (n / 2 ^ k mod 256 * 2 ^ k <= n) by nia.
  rewrite int_shl_small by nia.
  unfold to_uint64. apply Z.mod_small.
  change (2 ^ 31) with 2147483648 in *. change (2 ^ 64) with 18446744073709551616. nia.
Qed.

Lemma combine64_be_bytes n :
  0 <= n < 2 ^ 31 → combine64 8 (be_bytes 8 n) 0 = n.
Proof.
  intros Hn. cbn [combine64 be_bytes].
  rewrite !byte_of_shiftr_high by (done || (cbn; lia)).
  change (byte.unsigned Byte.x00) with 0. rewrite !int_shl_0.
  change (to_uint64 0) with 0. rewrite !Z.lor_0_l.
  rewrite !length_byte_value by (done || (cbn; lia)).
  change (8 * Z.of_nat 3) with 24. change (8 * Z.of_nat 2) with 16.
  change (8 * Z.of_nat 1) with 8. change (8 * Z.of_nat 0) with 0.
  rewrite Z.pow_0_r, Z.div_1_r, Z.mul_1_r.
  by apply big_endian_4.
Qed.

(** ** The parser on the bytes of [Frame::construct] *)

Section OnWire.
Import FrameParser.

Variable f : Frame.
Hypothesis opcode_4_bits : byte.unsigned (opcode f) < 16.
Hypothesis length_below_2G : zlen (payload f) < 2 ^ 31.

(** The frame read from the first two bytes. *)
Definition header_frame : Frame :=
  mk_Frame (fin f) (mask f) (opcode f) (masking_key Frame_zero) [].

Lemma decoded_header tail :
  let bs := (wire_first f :: wire_length f) ++ tail in
  run_checks (at_start bs)
  = run_checks (mk (stage_after header_frame) header_frame (FrameBuffer.mk bs (zlen bs))
                  (zlen (payload f)) (zlen (wire_first f :: wire_length f))).
Proof.
  pose proof (zlen_nonneg (payload f)) as Hnn.
  cbv zeta. unfold at_start, parser_on.
  rewrite run_checks_step, (step_fin_bit _ _ _ _ (wire_first f)) by (done || lia).
  rewrite run_checks_step, (step_opcode _ _ _ _ (wire_first f)) by (done || lia).
  unfold set_opcode, set_fin. cbn [fin mask opcode masking_key payload].
  unfold wire_first at 1 2. rewrite flag_first, opcode_first by done.
  unfold wire_length.
  destruct (Z.ltb_spec (zlen (payload f)) 126) as [Hs|Hs];
    [|destruct (Z.leb_spec (zlen (payload f)) 65535) as [Hm|Hl]].
  - set (x := byte.of_Z (zlen (payload f))).
    assert (Hx : byte.unsigned x = zlen (payload f)) by (apply unsigned_of_Z_small; lia).
    rewrite run_checks_step, (step_mask_bit _ _ _ _
      (byte.of_Z (Z.lor (if mask f then 128 else 0) (byte.unsigned x)))) by (done || lia).
    rewrite run_checks_step, (step_payload_len _ _ _ _
      (byte.of_Z (Z.lor (if mask f then 128 else 0) (byte.unsigned x)))) by (done || lia).
    cbv zeta. unfold set_mask. cbn [fin mask opcode masking_key payload].
    rewrite flag_second, length_second, Hx by lia.
    destruct (Z.eqb_spec (zlen (payload f)) 126); [lia|].
    destruct (Z.eqb_spec (zlen (payload f)) 127); [lia|].
    reflexivity.
  - change 126 with (byte.unsigned Byte.x7e) at 2 4.
    rewrite run_checks_step, (step_mask_bit _ _ _ _
      (byte.of_Z (Z.lor (if mask f then 128 else 0) (byte.unsigned Byte.x7e)))) by (done || lia).
    rewrite run_checks_step, (step_payload_len _ _ _ _
      (byte.of_Z (Z.lor (if mask f then 128 else 0) (byte.unsigned Byte.x7e)))) by (done || lia).
    cbv zeta. unfold set_mask. cbn [fin mask opcode masking_key payload].
    rewrite flag_second, length_second by (by vm_compute).
    change (byte.unsigned Byte.x7e =? 126) with true. cbv iota.
    rewrite run_checks_step, (step_extended_payload_len_16 _ _ _ _
      (byte.of_Z (Z.land (Z.shiftr (zlen (payload f)) 8) 255))
      (byte.of_Z (Z.land (zlen (payload f)) 255))) by (done || lia).
    rewrite extended_16_value by lia.
    reflexivity.
  - change 127 with (byte.unsigned Byte.x7f) at 2 4.
    rewrite run_checks_step, (step_mask_bit _ _ _ _
      (byte.of_Z (Z.lor (if mask f then 128 else 0) (byte.unsigned Byte.x7f)))) by (done || lia).
    rewrite run_checks_step, (step_payload_len _ _ _ _
      (byte.of_Z (Z.lor (if mask f then 128 else 0) (byte.unsigned Byte.x7f)))) by (done || lia).
    cbv zeta. unfold set_mask. cbn [fin mask opcode masking_key payload].
    rewrite flag_second, length_second by (by vm_compute).
    change (byte.unsigned Byte.x7f =? 126) with false.
    change (byte.unsigned Byte.x7f =? 127) with true. cbv iota.
    rewrite run_checks_step, (step_extended_payload_len_64 _ _ _ _
      (be_bytes 8 (zlen (payload f)))) by (done || lia).
    rewrite combine64_be_bytes by lia.
    reflexivity.
Qed.

(** The payload bytes as they stand on the wire. *)
Definition wire_payload : list byte :=
  if mask f then mask_from (masking_key f) 0 (payload f) else payload f.

(** The frame the parser returns for the bytes of [f]: the payload is
    still masked, and without a mask the key stays as it was, here zero as
    in a parser whose [m_frame] started from [Frame_zero]. *)
Definition parsed_frame : Frame :=
  mk_Frame (fin f) (mask f) (opcode f)
    (if mask f then masking_key f else masking_key Frame_zero) wire_payload.

Lemma slice_middle (a m r : list byte) : slice (zlen a) (zlen m) (a ++ m ++ r) = m.
Proof.
  unfold slice. by rewrite !zlen_to_nat, drop_app_length, take_app_length.
Qed.

Lemma zlen_wire_payload : zlen wire_payload = zlen (payload f).
Proof. unfold wire_payload. destruct (mask f); [apply zlen_mask_from | done]. Qed.

Lemma decoded_wire rest :
  decoded (wire f ++ rest)
  = mk DONE parsed_frame
      (FrameBuffer.mk (wire f ++ rest) (zlen (wire f ++ rest)))
      (zlen (payload f)) (zlen (wire f)).
Proof.
  pose proof (zlen_nonneg (payload f)) as Hnn.
  pose proof (zlen_nonneg rest) as Hrest.
  rewrite decoded_unfold.
  assert (Hsplit : wire f ++ rest = (wire_first f :: wire_length f) ++ wire_body f ++ rest).
  { unfold wire. by rewrite app_comm_cons, <- app_assoc. }
  assert (Hlen : zlen (wire f) = zlen (wire_first f :: wire_length f) + zlen (wire_body f)).
  { unfold wire. by rewrite app_comm_cons, zlen_app. }
  rewrite Hlen, Hsplit, decoded_header. clear Hlen Hsplit.
  set (H := wire_first f :: wire_length f).
  assert (0 <= zlen H) by apply zlen_nonneg.
  unfold stage_after, header_frame. cbn [mask].
  unfold parsed_frame, wire_payload, wire_body.
  destruct (mask f).
  - rewrite run_checks_step,
      (step_masking_key _ _ _ _ (a0 (masking_key f)) (a1 (masking_key f))
         (a2 (masking_key f)) (a3 (masking_key f))); [|done|].
    2:{ by rewrite zlen_to_nat, drop_app_length. }
    rewrite run_checks_step, step_payload_data; [|lia|lia|].
    2:{ rewrite !zlen_app, zlen_mask_from. change (zlen (array4_data _)) with 4. lia. }
    rewrite run_checks_blocked by (destruct (_ =? _); by apply step_done).
    unfold set_masking_key, set_payload. cbn [fin mask opcode masking_key payload].
    replace (mk_array4 _ _ _ _) with (masking_key f) by (by destruct (masking_key f)).
    rewrite (zlen_app (array4_data _)), zlen_mask_from.
    change (zlen (array4_data (masking_key f))) with 4.
    destruct (Z.eqb_spec (zlen (payload f)) 0) as [E|E]; cbv iota.
    + rewrite (nil_length_inv (payload f)) by (unfold zlen in E; lia).
      f_equal; try (simpl; lia).
    + f_equal; [|lia]. f_equal.
      rewrite <- (zlen_mask_from (masking_key f) 0 (payload f)).
      replace (zlen H + 4) with (zlen (H ++ array4_data (masking_key f)))
        by (rewrite zlen_app; reflexivity).
      rewrite <- (app_assoc (array4_data _)), (app_assoc H).
      apply slice_middle.
  - rewrite run_checks_step, step_payload_data; [|lia|lia|].
    2:{ rewrite !zlen_app. lia. }
    rewrite run_checks_blocked by (destruct (_ =? _); by apply step_done).
    destruct (Z.eqb_spec (zlen (payload f)) 0) as [E|E]; cbv iota.
    + rewrite (nil_length_inv (payload f)) by (unfold zlen in E; lia).
      f_equal; try (simpl; lia).
    + f_equal. unfold set_payload. cbn [fin mask opcode masking_key payload].
      f_equal. apply slice_middle.
Qed.

End OnWire.

(** The bytes [Frame::construct] writes for a frame with a 4-bit opcode and
    less than 2^31 payload bytes decode to that frame, its payload as on
    the wire. *)
Lemma wire_decodes_to (f : Frame) :
  byte.unsigned (opcode f) < 16 → zlen (payload f) < 2 ^ 31 →
  decodes_to Frame_zero (wire f) (parsed_frame f).
Proof.
  intros Ho Hn. apply decodes_to_decoded.
  pose proof (decoded_wire f Ho Hn []) as Hd. rewrite app_nil_r in Hd.
  rewrite Hd. by repeat split.
Qed.

(** A text frame whose payload has 2^31 bytes: the wire form, and what the
    parser makes of it. *)
Definition header_2GiB : list byte :=
  [Byte.x81; Byte.x7f; Byte.x00; Byte.x00; Byte.x00; Byte.x00;
   Byte.x80; Byte.x00; Byte.x00; Byte.x00].

Lemma wire_2GiB data :
  zlen data = 2 ^ 31 →
  wire (mk_Frame true false Opcode.TEXT (masking_key Frame_zero) data)
  = header_2GiB ++ data.
Proof.
  intros Hlen. unfold wire, wire_length, wire_body. cbn [mask payload fin opcode].
  rewrite Hlen. reflexivity.
Qed.

(** ** Masking *)

Lemma unsigned_byte_xor a b :
  byte.unsigned (byte_xor a b) = Z.lxor (byte.unsigned a) (byte.unsigned b).
Proof.
  unfold byte_xor. rewrite byte.unsigned_of_Z. unfold byte.wrap.
  apply lxor_mod_small; [lia | apply byte.unsigned_range..].
Qed.

Lemma byte_xor_involutive x k : byte_xor (byte_xor x k) k = x.
Proof.
  apply byte.unsigned_inj. rewrite !unsigned_byte_xor.
  by rewrite Z.lxor_assoc, Z.lxor_nilpotent, Z.lxor_0_r.
Qed.

Lemma mask_from_involutive key data : ∀ i,
  mask_from key i (mask_from key i data) = data.
Proof.
  induction data as [|x data IH]; intros i; [done|].
  simpl. by rewrite byte_xor_involutive, IH.
Qed.

Lemma mask_from_imap key data : ∀ i,
  0 <= i →
  mask_from key i data
  = imap (λ j x, byte_xor x (array4_get key ((i + Z.of_nat j) mod 4))) data.
Proof.
  induction data as [|x data IH]; intros i Hi; [done|].
  simpl. rewrite Z.add_0_r. f_equal.
  rewrite IH by lia. apply imap_ext. intros j y _. simpl.
  do 3 f_equal. lia.
Qed.

Lemma xor_with_key_mask_from key data : xor_with_key key data = mask_from key 0 data.
Proof. by rewrite mask_from_imap. Qed.

(** ** The generator and the key cache *)

Lemma word64_lxor a b : word64 a → word64 b → word64 (Z.lxor a b).
Proof.
  unfold word64. intros Ha Hb. rewrite <- (lxor_mod_small a b 64) by (lia || done).
  apply Z.mod_pos_bound. lia.
Qed.

Lemma word64_shiftr a n : 0 <= n → word64 a → word64 (Z.shiftr a n).
Proof.
  unfold word64. intros Hn Ha. rewrite Z.shiftr_div_pow2 by done.
  assert (0 < 2 ^ n) by (apply Z.pow_pos_nonneg; lia).
  split; [apply Z.div_pos; lia|].
  apply Z.le_lt_trans with a; [|lia]. apply Z.div_le_upper_bound; nia.
Qed.

Lemma word64_to_uint64 z : word64 (to_uint64 z).
Proof. unfold word64, to_uint64. apply Z.mod_pos_bound. lia. Qed.

(** [x ^= x << 23] is zero only for [x = 0]. *)
Lemma xor_shift_left_zero x :
  word64 x → Z.lxor x (to_uint64 (Z.shiftl x 23)) = 0 → x = 0.
Proof.
  unfold word64, to_uint64. intros Hx H. apply Z.lxor_eq in H.
  rewrite Z.shiftl_mul_pow2 in H by lia.
  assert (Hdiv : (2 ^ 64 | (2 ^ 23 - 1) * x)).
  { exists ((x * 2 ^ 23) / 2 ^ 64).
    pose proof (Z.div_mod (x * 2 ^ 23) (2 ^ 64) ltac:(lia)). lia. }
  apply Z.gauss in Hdiv; [|reflexivity].
  destruct Hdiv as [q Hq]. change (2 ^ 64) with 18446744073709551616 in *. nia.
Qed.

(** [x ^ (x >> 17)] is zero only for [x = 0]. *)
Lemma xor_shift_right_zero x : 0 <= x → Z.lxor x (Z.shiftr x 17) = 0 → x = 0.
Proof.
  intros Hx H. apply Z.lxor_eq in H. rewrite Z.shiftr_div_pow2 in H by lia.
  change (2 ^ 17) with 131072 in H. Z.div_mod_to_equations. lia.
Qed.

Lemma next64_word64 g :
  word64 (XorShift128Plus.s0 g) → word64 (XorShift128Plus.s1 g) →
  word64 (XorShift128Plus.next64 g).1
  ∧ word64 (XorShift128Plus.s0 (XorShift128Plus.next64 g).2)
  ∧ word64 (XorShift128Plus.s1 (XorShift128Plus.next64 g).2).
Proof.
  intros H0 H1. unfold XorShift128Plus.next64. cbn [fst snd XorShift128Plus.s0 XorShift128Plus.s1].
  split; [apply word64_to_uint64|]. split; [done|].
  assert (word64 (Z.lxor (XorShift128Plus.s0 g)
                    (to_uint64 (Z.shiftl (XorShift128Plus.s0 g) 23))))
    by (apply word64_lxor; [done | apply word64_to_uint64]).
  apply word64_lxor; [apply word64_lxor; [by apply word64_lxor|] |];
    apply word64_shiftr; (lia || done).
Qed.

Lemma next64_nonzero g :
  word64 (XorShift128Plus.s0 g) → word64 (XorShift128Plus.s1 g) →
  XorShift128Plus.s0 g ≠ 0 ∨ XorShift128Plus.s1 g ≠ 0 →
  XorShift128Plus.s0 (XorShift128Plus.next64 g).2 ≠ 0
  ∨ XorShift128Plus.s1 (XorShift128Plus.next64 g).2 ≠ 0.
Proof.
  intros H0 H1 Hnz. unfold XorShift128Plus.next64.
  cbn [fst snd XorShift128Plus.s0 XorShift128Plus.s1].
  destruct (Z.eq_dec (XorShift128Plus.s1 g) 0) as [Hy|Hy]; [right | by left].
  rewrite Hy, Z.shiftr_0_l, !Z.lxor_0_r. intros E.
  apply xor_shift_right_zero in E.
  - apply xor_shift_left_zero in E; [|done]. destruct Hnz; done.
  - apply word64_lxor; [done | apply word64_to_uint64].
Qed.

Lemma XorShift128Plus_new_state seed1 seed2 :
  word64 seed1 → word64 seed2 →
  word64 (XorShift128Plus.s0 (XorShift128Plus.new seed1 seed2))
  ∧ word64 (XorShift128Plus.s1 (XorShift128Plus.new seed1 seed2))
  ∧ (XorShift128Plus.s0 (XorShift128Plus.new seed1 seed2) ≠ 0
     ∨ XorShift128Plus.s1 (XorShift128Plus.new seed1 seed2) ≠ 0).
Proof.
  intros H1 H2. unfold XorShift128Plus.new. cbn [XorShift128Plus.s0 XorShift128Plus.s1].
  destruct (Z.eqb_spec seed1 0), (Z.eqb_spec seed2 0); cbn [andb];
    (split; [done|]); (split; [done || (unfold word64; lia)|]); lia.
Qed.

Lemma after_draws_S n g :
  after_draws (S n) g = after_draws n (XorShift128Plus.next64 g).2.
Proof.
  unfold after_draws. cbn [draws]. destruct (XorShift128Plus.next64 g) as [r g1].
  cbn [snd]. by destruct (draws n g1).
Qed.

Lemma after_draws_state n : ∀ g,
  word64 (XorShift128Plus.s0 g) → word64 (XorShift128Plus.s1 g) →
  XorShift128Plus.s0 g ≠ 0 ∨ XorShift128Plus.s1 g ≠ 0 →
  word64 (XorShift128Plus.s0 (after_draws n g))
  ∧ word64 (XorShift128Plus.s1 (after_draws n g))
  ∧ (XorShift128Plus.s0 (after_draws n g) ≠ 0
     ∨ XorShift128Plus.s1 (after_draws n g) ≠ 0).
Proof.
  induction n as [|n IH]; intros g H0 H1 Hnz; [done|].
  rewrite after_draws_S.
  destruct (next64_word64 _ H0 H1) as (_ & ? & ?).
  apply IH; [done | done |]. by apply next64_nonzero.
Qed.

Lemma length_le_bytes n w : length (le_bytes n w) = n.
Proof. revert w. induction n; intros; simpl; [done | by rewrite IHn]. Qed.

Lemma take_le_bytes m : ∀ n w, (m ≤ n)%nat → take m (le_bytes n w) = le_bytes m w.
Proof.
  induction m as [|m IH]; intros n w Hle; [done|].
  destruct n as [|n]; [lia|]. simpl. f_equal. apply IH. lia.
Qed.

Lemma length_draws k : ∀ g, length (draws k g).1 = k.
Proof.
  induction k as [|k IH]; intros g; [done|].
  cbn [draws]. destruct (XorShift128Plus.next64 g) as [r g1].
  specialize (IH g1). destruct (draws k g1) as [rs g2]. simpl in *. lia.
Qed.

Lemma length_concat_le_bytes (rs : list Z) :
  length (concat (map (le_bytes 8) rs)) = (8 * length rs)%nat.
Proof.
  induction rs as [|r rs IH]; [done|].
  cbn [map concat]. rewrite length_app, length_le_bytes, IH. simpl. lia.
Qed.

(** The loop of [fill_bytes] with enough fuel: the bytes written are the
    first [n] of the results of [next64] laid out in little-endian order,
    and [next64] is called once for every 8 bytes or part of them. *)
Lemma fill_bytes_loop_draws fuel : ∀ n g,
  0 <= n → n / 8 < Z.of_nat fuel →
  XorShift128Plus.fill_bytes_loop fuel n g
  = (take (Z.to_nat n) (concat (map (le_bytes 8) (draws (Z.to_nat ((n + 7) / 8)) g).1)),
     (draws (Z.to_nat ((n + 7) / 8)) g).2).
Proof.
  induction fuel as [|fuel IH]; intros n g Hn Hfuel;
    [Z.div_mod_to_equations; lia|].
  cbn [XorShift128Plus.fill_bytes_loop].
  destruct (Z.leb_spec 8 n) as [H8|H8].
  - assert (Hk : (n + 7) / 8 = (n - 8 + 7) / 8 + 1) by (Z.div_mod_to_equations; lia).
    assert (0 <= (n - 8 + 7) / 8) by (Z.div_mod_to_equations; lia).
    replace (Z.to_nat ((n + 7) / 8)) with (S (Z.to_nat ((n - 8 + 7) / 8))) by lia.
    cbn [draws]. destruct (XorShift128Plus.next64 g) as [rnd g1].
    rewrite IH by (Z.div_mod_to_equations; lia).
    destruct (draws _ g1) as [rs g2]. cbn [fst snd map concat].
    f_equal. rewrite take_app_ge by (rewrite length_le_bytes; lia).
    rewrite length_le_bytes. do 2 f_equal. lia.
  - destruct (Z.ltb_spec 0 n) as [H0|H0].
    + assert (Hk : (n + 7) / 8 = 1) by (Z.div_mod_to_equations; lia).
      rewrite Hk. change (Z.to_nat 1) with 1%nat.
      cbn [draws]. destruct (XorShift128Plus.next64 g) as [rnd g1].
      cbn [fst snd map concat]. rewrite app_nil_r.
      by rewrite take_le_bytes by lia.
    + replace n with 0 by lia. reflexivity.
Qed.

Lemma fill_bytes_draws n g :
  0 <= n →
  XorShift128Plus.fill_bytes n g
  = (take (Z.to_nat n) (concat (map (le_bytes 8) (draws (Z.to_nat ((n + 7) / 8)) g).1)),
     after_draws (Z.to_nat ((n + 7) / 8)) g).
Proof.
  intros Hn. unfold XorShift128Plus.fill_bytes.
  apply fill_bytes_loop_draws; [done|].
  assert (0 <= n / 8) by (Z.div_mod_to_equations; lia). lia.
Qed.

Lemma zlen_fill_bytes n g : 0 <= n → zlen (XorShift128Plus.fill_bytes n g).1 = n.
Proof.
  intros Hn. rewrite fill_bytes_draws by done. cbn [fst]. unfold zlen.
  rewrite length_take, length_concat_le_bytes, length_draws.
  assert (n <= 8 * ((n + 7) / 8)) by (Z.div_mod_to_equations; lia).
  assert (0 <= (n + 7) / 8) by (Z.div_mod_to_equations; lia). lia.
Qed.

Lemma fill_cache_ok c :
  cache_ok (RandomCache.fill_cache c) ∧ RandomCache.m_cache_ptr (RandomCache.fill_cache c) = 0.
Proof.
  unfold RandomCache.fill_cache.
  pose proof (zlen_fill_bytes (RandomCache.entries * 4) (RandomCache.m_random c)) as H.
  destruct (XorShift128Plus.fill_bytes _ _) as [bytes g].
  split; [|done]. unfold cache_ok. cbn [RandomCache.m_cache RandomCache.m_cache_ptr].
  split; [apply H; by vm_compute|]. split; [lia | done].
Qed.

Lemma slice_4_lookup (l : list byte) p :
  0 <= p → p + 4 <= zlen l →
  slice p 4 l
  = [default Byte.x00 (l !! Z.to_nat p); default Byte.x00 (l !! Z.to_nat (p + 1));
     default Byte.x00 (l !! Z.to_nat (p + 2)); default Byte.x00 (l !! Z.to_nat (p + 3))].
Proof.
  intros H0 Hlen. unfold slice.
  replace (Z.to_nat (p + 1)) with (Z.to_nat p + 1)%nat by lia.
  replace (Z.to_nat (p + 2)) with (Z.to_nat p + 2)%nat by lia.
  replace (Z.to_nat (p + 3)) with (Z.to_nat p + 3)%nat by lia.
  rewrite <- (Nat.add_0_r (Z.to_nat p)) at 2.
  rewrite <- !lookup_drop.
  assert (Hd : (4 ≤ length (drop (Z.to_nat p) l))%nat)
    by (rewrite length_drop; unfold zlen in Hlen; lia).
  destruct (drop (Z.to_nat p) l) as [|x0 [|x1 [|x2 [|x3 rest]]]]; simpl in Hd; try lia.
  reflexivity.
Qed.

Lemma RandomCache_get_spec c :
  cache_ok c →
  ∃ key c',
    RandomCache.get c = (key, c')
    ∧ cache_ok c'
    ∧ 4 <= RandomCache.m_cache_ptr c'
    ∧ array4_data key
      = slice (RandomCache.m_cache_ptr c' - 4) 4 (RandomCache.m_cache c')
    ∧ c' = (if 32 <=? RandomCache.m_cache_ptr c
            then RandomCache.mk (RandomCache.m_random (RandomCache.fill_cache c))
                   (RandomCache.m_cache (RandomCache.fill_cache c)) 4
            else RandomCache.mk (RandomCache.m_random c) (RandomCache.m_cache c)
                   (RandomCache.m_cache_ptr c + 4)).
Proof.
  intros Hok. unfold RandomCache.get. change (RandomCache.entries * 4) with 32.
  set (c1 := if 32 <=? RandomCache.m_cache_ptr c then RandomCache.fill_cache c else c).
  assert (H1 : cache_ok c1 ∧ RandomCache.m_cache_ptr c1 <= 28).
  { unfold c1. destruct (Z.leb_spec 32 (RandomCache.m_cache_ptr c)).
    - destruct (fill_cache_ok c) as [? ->]. split; [done | lia].
    - split; [done|]. destruct Hok as (_ & ? & ?). Z.div_mod_to_equations. lia. }
  destruct H1 as ((Hlen & Hp & Hmod) & H28).
  eexists _, _. split; [reflexivity|].
  split. { unfold cache_ok. cbn [RandomCache.m_cache RandomCache.m_cache_ptr].
           split; [done|]. split; [lia|]. Z.div_mod_to_equations. lia. }
  cbn [RandomCache.m_cache RandomCache.m_cache_ptr].
  split; [lia|]. split.
  - replace (RandomCache.m_cache_ptr c1 + 4 - 4) with (RandomCache.m_cache_ptr c1) by lia.
    rewrite slice_4_lookup by lia. reflexivity.
  - unfold c1. destruct (32 <=? RandomCache.m_cache_ptr c); [|done].
    by destruct (fill_cache_ok c) as [_ ->].
Qed.

(** ** More on [FrameBuffer] *)

Lemma ensure_fit_eq sz b :
  FrameBuffer.ensure_fit sz b
  = FrameBuffer.mk
      (FrameBuffer.m_buf b ++ replicate (Z.to_nat (sz - FrameBuffer.capacity b)) Byte.x00)
      (FrameBuffer.m_ptr b).
Proof.
  unfold FrameBuffer.ensure_fit, FrameBuffer.capacity.
  destruct (Z.ltb_spec (zlen (FrameBuffer.m_buf b)) sz) as [Hlt|Hge].
  - unfold FrameBuffer.resize. unfold zlen in *. rewrite take_ge by lia.
    do 3 f_equal. lia.
  - replace (Z.to_nat _) with 0%nat by lia. destruct b. simpl. by rewrite app_nil_r.
Qed.

Lemma ensure_fit_ensure_fit a b x :
  FrameBuffer.ensure_fit a (FrameBuffer.ensure_fit b x)
  = FrameBuffer.ensure_fit (Z.max a b) x.
Proof.
  rewrite (ensure_fit_eq a), ensure_fit_capacity, (ensure_fit_eq b), (ensure_fit_eq (Z.max a b)).
  cbn [FrameBuffer.m_buf FrameBuffer.m_ptr]. f_equal.
  rewrite <- app_assoc, <- replicate_add. do 2 f_equal.
  pose proof (zlen_nonneg (FrameBuffer.m_buf x)). unfold FrameBuffer.capacity.
  destruct (Z.ltb_spec (zlen (FrameBuffer.m_buf x)) b); lia.
Qed.

Lemma view_app_free w free :
  FrameBuffer.view (FrameBuffer.mk (w ++ free) (zlen w)) = w.
Proof.
  unfold FrameBuffer.view, slice. cbn [FrameBuffer.m_buf FrameBuffer.m_ptr].
  change (Z.to_nat 0) with 0%nat. by rewrite zlen_to_nat, drop_0, take_app_length.
Qed.

(** A buffer whose cursor is within its storage, split at the cursor. *)
Lemma buffer_split b :
  0 <= FrameBuffer.m_ptr b <= FrameBuffer.capacity b →
  ∃ w free, b = FrameBuffer.mk (w ++ free) (zlen w)
            ∧ w = FrameBuffer.view b
            ∧ zlen w + zlen free = FrameBuffer.capacity b.
Proof.
  intros H. destruct b as [m c]. unfold FrameBuffer.capacity in *. simpl in H.
  exists (take (Z.to_nat c) m), (drop (Z.to_nat c) m).
  assert (Hw : zlen (take (Z.to_nat c) m) = c).
  { unfold zlen in *. rewrite length_take. lia. }
  rewrite take_drop, Hw. split; [done|]. split.
  - unfold FrameBuffer.view, slice. simpl. by rewrite drop_0.
  - simpl. rewrite <- Hw at 1. rewrite <- zlen_app. by rewrite take_drop.
Qed.

Lemma push_back_view_full v b :
  0 <= FrameBuffer.m_ptr b <= FrameBuffer.capacity b →
  ∃ b', FrameBuffer.push_back_view v b = Some b'
    ∧ FrameBuffer.view b' = FrameBuffer.view b ++ v
    ∧ FrameBuffer.size b' = FrameBuffer.size b + zlen v
    ∧ FrameBuffer.capacity b'
      = Z.max (FrameBuffer.capacity b) (FrameBuffer.size b + zlen v).
Proof.
  intros Hb. destruct (buffer_split b Hb) as (w & free & Eb & Hw & Hcap).
  rewrite <- Hw. clear Hw. rewrite <- Hcap. subst b. clear Hb.
  unfold FrameBuffer.push_back_view, FrameBuffer.ensure_extra_space.
  rewrite ensure_fit_eq. cbn [FrameBuffer.m_buf FrameBuffer.m_ptr FrameBuffer.get_space].
  unfold FrameBuffer.capacity. cbn [FrameBuffer.m_buf]. rewrite zlen_app.
  set (pad := replicate _ Byte.x00).
  assert (Hpad : zlen pad = Z.max 0 (zlen v - zlen free)).
  { unfold pad, zlen. rewrite length_replicate. lia. }
  rewrite <- app_assoc, store_bytes_free.
  2:{ rewrite length_app. unfold zlen in *. lia. }
  eexists. split; [reflexivity|].
  split. { rewrite <- zlen_app. apply view_app_free. }
  split. { reflexivity. }
  cbn [FrameBuffer.m_buf FrameBuffer.size FrameBuffer.m_ptr].
  rewrite !zlen_app. unfold zlen in *. rewrite length_drop, length_app. lia.
Qed.

(** [push_back] of a byte *)
Lemma push_back_Some x b :
  0 <= FrameBuffer.m_ptr b < FrameBuffer.capacity b →
  ∃ b', FrameBuffer.push_back x b = Some b'
    ∧ FrameBuffer.view b' = FrameBuffer.view b ++ [x]
    ∧ FrameBuffer.size b' = FrameBuffer.size b + 1
    ∧ FrameBuffer.capacity b' = FrameBuffer.capacity b.
Proof.
  intros Hb. destruct (buffer_split b) as (w & free & Eb & Hw & Hcap); [lia|].
  rewrite <- Hw. clear Hw. rewrite <- Hcap in *. subst b.
  cbn [FrameBuffer.m_ptr] in Hb. assert (0 < zlen free) by lia.
  rewrite push_back_free by (unfold zlen in *; lia).
  eexists. split; [reflexivity|].
  split; [apply view_app_free|]. split; [by rewrite zlen_app|].
  unfold FrameBuffer.capacity. cbn [FrameBuffer.m_buf].
  rewrite !zlen_app. unfold zlen in *. rewrite length_drop. simpl. lia.
Qed.

Lemma push_back_None x b :
  0 <= FrameBuffer.m_ptr b → FrameBuffer.capacity b <= FrameBuffer.m_ptr b →
  FrameBuffer.push_back x b = None.
Proof.
  intros H0 H. unfold FrameBuffer.push_back, poke, FrameBuffer.capacity in *.
  destruct (Z.ltb_spec (FrameBuffer.m_ptr b) (zlen (FrameBuffer.m_buf b))); [lia|].
  by rewrite andb_false_r.
Qed.

Lemma push_back_all_spec xs : ∀ b,
  0 <= FrameBuffer.m_ptr b <= FrameBuffer.capacity b →
  if FrameBuffer.size b + zlen xs <=? FrameBuffer.capacity b then
    ∃ b', push_back_all xs b = Some b'
      ∧ FrameBuffer.view b' = FrameBuffer.view b ++ xs
      ∧ FrameBuffer.size b' = FrameBuffer.size b + zlen xs
      ∧ FrameBuffer.capacity b' = FrameBuffer.capacity b
  else push_back_all xs b = None.
Proof.
  induction xs as [|x xs IH]; intros b Hb.
  - rewrite zlen_nil, Z.add_0_r. unfold FrameBuffer.size.
    destruct (Z.leb_spec (FrameBuffer.m_ptr b) (FrameBuffer.capacity b)); [|lia].
    exists b. by rewrite app_nil_r.
  - rewrite zlen_cons. pose proof (zlen_nonneg xs) as Hxs. cbn [push_back_all].
    unfold FrameBuffer.size in *.
    destruct (Z.le_gt_cases (FrameBuffer.capacity b) (FrameBuffer.m_ptr b)) as [Hfull|Hfree].
    + rewrite push_back_None by lia. cbn [mbind option_bind].
      destruct (Z.leb_spec (FrameBuffer.m_ptr b + (zlen xs + 1)) (FrameBuffer.capacity b));
        [lia | done].
    + destruct (push_back_Some x b) as (b1 & -> & Hv & Hs & Hc); [lia|].
      cbn [mbind option_bind]. unfold FrameBuffer.size in *.
      specialize (IH b1 ltac:(lia)). rewrite Hs, Hc, Hv in IH.
      replace (FrameBuffer.m_ptr b + 1 + zlen xs)
        with (FrameBuffer.m_ptr b + (zlen xs + 1)) in IH by lia.
      destruct (_ <=? _); [|done].
      destruct IH as (b' & -> & ? & ? & ?). exists b'.
      rewrite <- app_assoc in *. done.
Qed.

(** ** More on [Frame::construct] *)

Lemma be_value_from (bs : list byte) : ∀ acc,
  fold_left (λ acc x, acc * 256 + byte.unsigned x) bs acc
  = acc * 256 ^ Z.of_nat (length bs) + be_value bs.
Proof.
  unfold be_value. induction bs as [|x bs IH]; intros acc.
  - simpl. lia.
  - cbn [fold_left length]. rewrite IH, (IH (0 * 256 + _)).
    rewrite Nat2Z.inj_succ, Z.pow_succ_r by lia. lia.
Qed.

Lemma be_value_cons x bs :
  be_value (x :: bs) = byte.unsigned x * 256 ^ Z.of_nat (length bs) + be_value bs.
Proof. unfold be_value at 1. cbn [fold_left]. by rewrite be_value_from. Qed.

Lemma be_value_be_bytes k n :
  0 <= n → be_value (be_bytes k n) = n mod 256 ^ Z.of_nat k.
Proof.
  intros Hn. induction k as [|k IH].
  - simpl. by rewrite Z.mod_1_r.
  - cbn [be_bytes]. rewrite be_value_cons, length_be_bytes, IH.
    assert (Hp : 0 < 256 ^ Z.of_nat k) by (apply Z.pow_pos_nonneg; lia).
    rewrite land_255 by (apply Z.shiftr_nonneg; lia).
    rewrite Z.shiftr_div_pow2 by lia.
    replace (2 ^ (8 * Z.of_nat k)) with (256 ^ Z.of_nat k)
      by (change 256 with (2 ^ 8); rewrite <- Z.pow_mul_r by lia; done).
    rewrite unsigned_of_Z_small by (apply Z.mod_pos_bound; lia).
    rewrite Nat2Z.inj_succ, Z.pow_succ_r by lia.
    rewrite (Z.mul_comm 256), Z.rem_mul_r by lia. lia.
Qed.

Lemma be_value_be_bytes_8 n : 0 <= n < 2 ^ 64 → be_value (be_bytes 8 n) = n.
Proof.
  intros Hn. rewrite be_value_be_bytes by lia.
  change (256 ^ Z.of_nat 8) with (2 ^ 64). by apply Z.mod_small.
Qed.

Lemma be_value_2 n :
  0 <= n <= 65535 →
  be_value [byte.of_Z (Z.land (Z.shiftr n 8) 255); byte.of_Z (Z.land n 255)] = n.
Proof.
  intros Hn. pose proof (be_value_be_bytes 2 n ltac:(lia)) as H.
  cbn [be_bytes] in H. change (8 * Z.of_nat 1) with 8 in H.
  change (8 * Z.of_nat 0) with 0 in H. rewrite Z.shiftr_0_r in H.
  rewrite H. change (256 ^ Z.of_nat 2) with 65536. apply Z.mod_small. lia.
Qed.

Lemma first_byte_fields (b : bool) (o : byte) :
  Z.land (byte.unsigned (byte.of_Z (Z.lor (if b then 128 else 0)
                                      (Z.land (byte.unsigned o) 15)))) 128
  = (if b then 128 else 0)
  ∧ Z.land (byte.unsigned (byte.of_Z (Z.lor (if b then 128 else 0)
                                        (Z.land (byte.unsigned o) 15)))) 112 = 0
  ∧ Z.land (byte.unsigned (byte.of_Z (Z.lor (if b then 128 else 0)
                                        (Z.land (byte.unsigned o) 15)))) 15
    = byte.unsigned o mod 16.
Proof. destruct b, o; done. Qed.

Lemma second_byte_fields (m : bool) (c : Z) :
  0 <= c < 128 →
  Z.land (byte.unsigned (byte.of_Z (Z.lor (if m then 128 else 0) c))) 128
  = (if m then 128 else 0)
  ∧ Z.land (byte.unsigned (byte.of_Z (Z.lor (if m then 128 else 0) c))) 127 = c.
Proof.
  intros Hc. rewrite <- (unsigned_of_Z_small c) by lia.
  assert (Hx : byte.unsigned (byte.of_Z c) < 128) by (rewrite unsigned_of_Z_small; lia).
  destruct m, (byte.of_Z c); first [done | by vm_compute in Hx].
Qed.

Lemma construct_spec_full fin0 opcode0 mask0 data ff :
  ∃ ff',
    FrameFactory.construct fin0 opcode0 mask0 data ff
    = Some (wire (mk_Frame fin0 mask0 opcode0
                    (if mask0 then (RandomCache.get (FrameFactory.m_random ff)).1
                     else masking_key Frame_zero) data), ff')
    ∧ FrameBuffer.view (FrameFactory.m_buf ff')
      = wire (mk_Frame fin0 mask0 opcode0
                (if mask0 then (RandomCache.get (FrameFactory.m_random ff)).1
                 else masking_key Frame_zero) data)
    ∧ FrameFactory.m_random ff'
      = (if mask0 then (RandomCache.get (FrameFactory.m_random ff)).2
         else FrameFactory.m_random ff).
Proof.
  unfold FrameFactory.construct.
  destruct mask0.
  - destruct (RandomCache.get _) as [key rc]. cbn [fst snd].
    destruct (Frame_construct_spec (mk_Frame fin0 true opcode0 key data)
                (FrameFactory.m_buf ff)) as (b & -> & Hw).
    cbn [mbind option_bind]. rewrite (written_view _ _ _ Hw).
    eexists. split; [reflexivity|]. cbn [FrameFactory.m_buf FrameFactory.m_random].
    by rewrite (written_view _ _ _ Hw).
  - destruct (Frame_construct_spec (mk_Frame fin0 false opcode0 (masking_key Frame_zero) data)
                (FrameFactory.m_buf ff)) as (b & -> & Hw).
    cbn [mbind option_bind]. rewrite (written_view _ _ _ Hw).
    eexists. split; [reflexivity|]. cbn [FrameFactory.m_buf FrameFactory.m_random].
    by rewrite (written_view _ _ _ Hw).
Qed.

Lemma wire_header (f : Frame) :
  zlen (payload f) < 2 ^ 64 →
  ∃ first second ext body,
    wire f = first :: second :: ext ++ body
    ∧ Z.land (byte.unsigned first) 128 = (if fin f then 128 else 0)
    ∧ Z.land (byte.unsigned first) 112 = 0
    ∧ Z.land (byte.unsigned first) 15 = byte.unsigned (opcode f) mod 16
    ∧ Z.land (byte.unsigned second) 128 = (if mask f then 128 else 0)
    ∧ zlen body = (if mask f then 4 else 0) + zlen (payload f)
    ∧ (if zlen (payload f) <? 126
       then Z.land (byte.unsigned second) 127 = zlen (payload f) ∧ ext = []
       else if zlen (payload f) <=? 65535
       then Z.land (byte.unsigned second) 127 = 126
            ∧ length ext = 2%nat ∧ be_value ext = zlen (payload f)
       else Z.land (byte.unsigned second) 127 = 127
            ∧ length ext = 8%nat ∧ be_value ext = zlen (payload f)).
Proof.
  intros Hn. pose proof (zlen_nonneg (payload f)) as H0.
  pose proof (first_byte_fields (fin f) (opcode f)) as (F1 & F2 & F3).
  pose proof (length_wire_body f) as Hbody.
  unfold wire, wire_length, wire_first.
  destruct (Z.ltb_spec (zlen (payload f)) 126) as [Hs|Hs];
    [|destruct (Z.leb_spec (zlen (payload f)) 65535) as [Hm|Hl]].
  - rewrite (unsigned_of_Z_small (zlen (payload f))) by lia.
    destruct (second_byte_fields (mask f) (zlen (payload f))) as (S1 & S2); [lia|].
    eexists _, _, [], _. split; [reflexivity|]. done.
  - destruct (second_byte_fields (mask f) 126) as (S1 & S2); [lia|].
    eexists _, _, [_; _], _. split; [reflexivity|].
    do 5 (split; [done|]). split; [done|]. split; [done|]. by apply be_value_2.
  - destruct (second_byte_fields (mask f) 127) as (S1 & S2); [lia|].
    eexists _, _, (be_bytes 8 (zlen (payload f))), _. split; [reflexivity|].
    do 5 (split; [done|]). split; [done|]. split; [apply length_be_bytes|].
    apply be_value_be_bytes_8. lia.
Qed.

(** ** The parser on any chunk *)

Section Stream.
Import FrameParser.

(** What holds before the checks and is kept by each of them holds after
    them. *)
Lemma run_checks_ind (P : t → Prop) p :
  P p → (∀ q, P q → P (step q)) → P (run_checks p).
Proof.
  intros Hp Hstep.
  remember (8 - stage_index (m_parse_stage p))%nat as n eqn:Hn.
  revert p Hn Hp. induction (lt_wf n) as [n _ IH]. intros p Hn Hp.
  destruct (step_progress p) as [Hb|Hlt]; [by rewrite run_checks_blocked|].
  rewrite run_checks_step.
  assert (stage_index (m_parse_stage (step p)) <= 8)%nat
    by (destruct (m_parse_stage (step p)); simpl; lia).
  apply (IH (8 - stage_index (m_parse_stage (step p)))%nat); [lia | done |].
  by apply Hstep.
Qed.

Lemma run_checks_stage_le p :
  (stage_index (m_parse_stage p) ≤ stage_index (m_parse_stage (run_checks p)))%nat.
Proof.
  apply (run_checks_ind
    (λ q, (stage_index (m_parse_stage p) ≤ stage_index (m_parse_stage q))%nat)); [done|].
  intros q Hq. destruct (step_progress q) as [->|?]; lia.
Qed.

Lemma decoded_nil : decoded [] = at_start [].
Proof. by rewrite decoded_unfold, run_checks_blocked. Qed.

(** Once a byte has come the parser is past the first stage. *)
Lemma decoded_FIN_BIT pre : m_parse_stage (decoded pre) = FIN_BIT → pre = [].
Proof.
  intros Hs. destruct pre as [|x pre]; [done|]. exfalso.
  rewrite decoded_unfold in Hs. unfold at_start, parser_on in Hs.
  rewrite run_checks_step, (step_fin_bit _ _ _ _ x) in Hs by done.
  pose proof (run_checks_stage_le (mk OPCODE (set_fin (flag x) Frame_zero)
    (FrameBuffer.mk (x :: pre) (zlen (x :: pre))) 0 0)) as Hle.
  rewrite Hs in Hle. simpl in Hle. lia.
Qed.

Lemma parse_if_remaining_parser_on b bs :
  FrameBuffer.view b = bs → FrameBuffer.size b = zlen bs →
  FrameBuffer.size b <= FrameBuffer.capacity b →
  parse_if_remaining (parser_on b)
  = (result_of (decoded bs), set_frame_buffer b (decoded bs)).
Proof.
  intros Hv Hs Hc. unfold parse_if_remaining.
  rewrite (remaining_wf (parser_on b))
    by (apply wf_parser_on; [rewrite Hs; apply zlen_nonneg | done]).
  change (m_frame_buffer (parser_on b)) with b. change (m_ptr (parser_on b)) with 0.
  rewrite Z.sub_0_r, Hs.
  destruct (Z.eqb_spec (zlen bs) 0) as [E|E].
  - rewrite (nil_length_inv bs) by (unfold zlen in E; lia).
    by rewrite decoded_nil.
  - by rewrite parse_result, (run_checks_parser_on bs b), result_of_set_frame_buffer.
Qed.

(** The checks run again on what they left do nothing more, also after
    bytes have been added behind. *)
Lemma run_checks_behind b pre bs :
  FrameBuffer.view b = pre ++ bs → FrameBuffer.size b = zlen (pre ++ bs) →
  FrameBuffer.size b <= FrameBuffer.capacity b →
  run_checks (set_frame_buffer b (decoded pre)) = set_frame_buffer b (decoded (pre ++ bs)).
Proof.
  intros Hv Hs Hc. rewrite (decoded_unfold pre).
  rewrite run_checks_extends; [| apply wf_at_start |].
  - rewrite set_frame_buffer_at_start. by apply run_checks_parser_on.
  - apply extends_holding.
    + rewrite Hs, zlen_app. pose proof (zlen_nonneg bs). lia.
    + done.
    + rewrite view_take, Hs, zlen_to_nat in Hv.
      rewrite <- (take_app_length pre bs) at 2. rewrite <- Hv, take_take.
      f_equal. rewrite length_app. lia.
Qed.

(** The bytes a parser that has got [pre] still has to deal with: all of
    them while the frame is incomplete, those behind the frame once it is
    complete. *)
Definition pending (pre : list byte) : list byte :=
  if done (decoded pre) then drop (Z.to_nat (m_ptr (decoded pre))) pre else pre.

Lemma done_tracks p pre : tracks p pre → done p = done (decoded pre).
Proof. intros H. unfold done. by rewrite (tracks_stage _ _ H). Qed.

Lemma tracks_intro b bs :
  FrameBuffer.view b = bs → FrameBuffer.size b = zlen bs →
  FrameBuffer.size b <= FrameBuffer.capacity b →
  tracks (set_frame_buffer b (decoded bs)) bs.
Proof. intros. unfold tracks. by rewrite set_frame_buffer_buffer. Qed.

(** Without new bytes and within a frame, [update] changes nothing. *)
Lemma update_empty_within p pre :
  tracks p pre → m_parse_stage p ≠ DONE → update [] p = Some (None, p).
Proof.
  intros Ht Hnd. unfold update.
  assert (done p = false) as -> by (unfold done; by rewrite bool_decide_false).
  cbn [mbind option_bind]. change (zlen (@nil byte) =? 0) with true. cbn [negb].
  case_bool_decide as Hs; [done|].
  assert (m_parse_stage p = FIN_BIT) as Hf by (by destruct (m_parse_stage p)).
  rewrite (tracks_stage _ _ Ht) in Hf. apply decoded_FIN_BIT in Hf. subst pre.
  unfold parse_if_remaining. rewrite (remaining_wf p (tracks_wf _ _ Ht)).
  destruct Ht as (_ & -> & _ & Hp). rewrite Hp, set_frame_buffer_ptr, decoded_nil.
  reflexivity.
Qed.

Lemma update_bool_true_within p pre :
  tracks p pre → m_parse_stage p ≠ DONE → update_bool true p = Some (None, p).
Proof.
  intros Ht Hnd. unfold update_bool.
  assert (done p = false) as -> by (unfold done; by rewrite bool_decide_false).
  cbn [mbind option_bind negb andb].
  unfold parse_if_remaining. destruct (_ =? _); [done|].
  pose proof Ht as (Hv & Hs & Hc & Hp).
  rewrite parse_result.
  assert (Hrun : run_checks p = p).
  { rewrite Hp at 1. rewrite <- (app_nil_r pre) in Hv, Hs.
    rewrite (run_checks_behind _ pre [] Hv Hs Hc), app_nil_r. by symmetry. }
  rewrite Hrun, result_of_None by done. reflexivity.
Qed.

Lemma slice_drop_view b (k : Z) bs :
  FrameBuffer.view b = bs → FrameBuffer.size b = zlen bs → 0 <= k <= zlen bs →
  slice k (zlen bs - k) (FrameBuffer.m_buf b) = drop (Z.to_nat k) bs.
Proof.
  intros Hv Hs Hk.
  rewrite <- (take_drop (Z.to_nat k) bs) in Hv, Hs.
  assert (Hk' : zlen (take (Z.to_nat k) bs) = k)
    by (unfold zlen in *; rewrite length_take; lia).
  rewrite <- (slice_of_view b _ _ Hv Hs). f_equal; [done|].
  rewrite zlen_app in Hs. unfold zlen in *. rewrite length_drop in *. lia.
Qed.

Lemma done_decoded_ptr pre : 0 <= m_ptr (decoded pre) <= zlen pre.
Proof.
  pose proof (wf_decoded pre) as (H0 & H1 & _). rewrite decoded_buffer in H1. by simpl in H1.
Qed.

(** [reset] on a parser that holds [bs]: what is left for the next frame. *)
Lemma reset_holding b q bs :
  FrameBuffer.view b = bs → FrameBuffer.size b = zlen bs →
  FrameBuffer.size b <= FrameBuffer.capacity b →
  0 <= m_ptr q <= zlen bs → 0 <= m_payload_len q →
  ∃ b', reset (set_frame_buffer b q) = Some (parser_on b')
    ∧ FrameBuffer.view b' = drop (Z.to_nat (m_ptr q)) bs
    ∧ FrameBuffer.size b' = zlen (drop (Z.to_nat (m_ptr q)) bs)
    ∧ FrameBuffer.size b' <= FrameBuffer.capacity b'.
Proof.
  intros Hv Hs Hc Hq Hl.
  assert (Hwf : wf (set_frame_buffer b q)).
  { unfold wf. rewrite set_frame_buffer_ptr, set_frame_buffer_buffer,
      set_frame_buffer_payload_len. lia. }
  destruct (reset_spec _ Hwf) as (b' & -> & Hsb & Hcb & Hvb).
  rewrite (remaining_wf _ Hwf), set_frame_buffer_buffer, set_frame_buffer_ptr, Hs in Hsb, Hvb.
  rewrite (slice_drop_view b _ bs Hv Hs Hq) in Hvb.
  exists b'. split; [done|]. split; [done|]. split; [|done].
  rewrite Hsb. unfold zlen in *. rewrite length_drop. lia.
Qed.

(** One call of [update], whatever the chunk and the stage. *)
Lemma update_pending p pre c :
  tracks p pre →
  ∃ p', update c p = Some (result_of (decoded (pending pre ++ c)), p')
        ∧ tracks p' (pending pre ++ c).
Proof.
  intros Ht. unfold pending. rewrite <- (done_tracks _ _ Ht).
  destruct (done p) eqn:Hd.
  - pose proof Ht as (Hv & Hs & Hc & Hp).
    pose proof (done_decoded_ptr pre) as Hptr.
    pose proof (wf_decoded pre) as (_ & _ & _ & Hlen).
    destruct (reset_holding (m_frame_buffer p) (decoded pre) pre Hv Hs Hc Hptr Hlen)
      as (b1 & Hreset & Hv1 & Hs1 & Hc1).
    rewrite <- Hp in Hreset.
    set (rest := drop (Z.to_nat (m_ptr (decoded pre))) pre) in *.
    unfold update. rewrite Hd, Hreset. cbn [mbind option_bind].
    destruct (Z.eqb_spec (zlen c) 0) as [E|E]; cbn [negb].
    + rewrite (nil_length_inv c) by (unfold zlen in E; lia). rewrite app_nil_r.
      change (m_parse_stage (parser_on b1)) with FIN_BIT.
      rewrite bool_decide_false by (by intros ?).
      rewrite (parse_if_remaining_parser_on b1 rest) by done.
      eexists. split; [reflexivity|]. by apply tracks_intro.
    + change (m_frame_buffer (parser_on b1)) with b1.
      destruct (push_back_view_full c b1) as (b2 & -> & Hv2 & Hs2 & Hc2).
      { unfold FrameBuffer.size in *. split; [rewrite Hs1; apply zlen_nonneg | exact Hc1]. }
      cbn [mbind option_bind].
      change (set_frame_buffer b2 (parser_on b1)) with (parser_on b2).
      assert (Hc2' : FrameBuffer.size b2 <= FrameBuffer.capacity b2) by lia.
      rewrite Hv1 in Hv2. rewrite Hs1, <- zlen_app in Hs2.
      rewrite (parse_if_remaining_parser_on b2 (rest ++ c)) by done.
      eexists. split; [reflexivity|]. by apply tracks_intro.
  - assert (Hnd : m_parse_stage p ≠ DONE).
    { unfold done in Hd. by apply bool_decide_eq_false in Hd. }
    destruct c as [|x c].
    + rewrite app_nil_r, (update_empty_within p pre Ht Hnd).
      exists p. split; [|done]. f_equal. f_equal.
      symmetry. apply result_of_None. by rewrite <- (tracks_stage _ _ Ht).
    + by apply update_tracks.
Qed.

Lemma update_bool_tracks nd p pre : tracks p pre → update_bool nd p = update [] p.
Proof.
  intros Ht. destruct nd; [|reflexivity].
  destruct (done p) eqn:Hd.
  - unfold update_bool, update. rewrite Hd.
    destruct (reset p) as [p0|] eqn:Hr; [|done]. cbn [mbind option_bind negb andb].
    change (zlen (@nil byte) =? 0) with true. cbn [negb].
    unfold reset in Hr. destruct (if remaining p >? 0 then _ else _); [|done].
    injection Hr as <-. reflexivity.
  - assert (Hnd : m_parse_stage p ≠ DONE).
    { unfold done in Hd. by apply bool_decide_eq_false in Hd. }
    by rewrite (update_empty_within p pre Ht Hnd), (update_bool_true_within p pre Ht Hnd).
Qed.

Lemma tracks_clear p : tracks (clear p) [].
Proof.
  unfold tracks, clear. cbn [m_frame_buffer].
  split; [by unfold FrameBuffer.view, slice|]. split; [done|].
  split; [apply zlen_nonneg|]. by rewrite decoded_nil.
Qed.

End Stream.

(** ** Streams of frames *)

Section Frames.
Import FrameParser.

Lemma frame_complete b F r :
  decodes_to Frame_zero b F →
  result_of (decoded (b ++ r)) = Some F ∧ pending (b ++ r) = r.
Proof.
  intros (Hne & Hs & Hf & Hp)%decodes_to_decoded.
  pose proof (decoded_done_app b r Hs) as Hd.
  unfold pending, done. rewrite Hd, set_frame_buffer_stage, set_frame_buffer_ptr, Hs, Hp.
  rewrite bool_decide_true by done. split.
  - apply result_of_Some. by rewrite set_frame_buffer_stage.
  - by rewrite zlen_to_nat, drop_app_length.
Qed.

Lemma frame_incomplete s k F :
  decodes_to Frame_zero (s ++ k) F → k ≠ [] →
  result_of (decoded s) = None ∧ pending s = s.
Proof.
  intros (Hne & Hs & Hf & Hp)%decodes_to_decoded Hk.
  pose proof (decoded_strict_prefix s k Hk Hp) as Hnd.
  unfold pending, done. rewrite bool_decide_false by done.
  split; [by apply result_of_None | done].
Qed.

Lemma pending_nil : result_of (decoded []) = None ∧ pending [] = [].
Proof. unfold pending. by rewrite decoded_nil. Qed.

(** The parser on the bytes [s] it has to deal with, in a stream of the
    frames [fs]: it returns the first frame if [s] holds all of it, and then
    has the rest of [s] to deal with. *)
Lemma stream_step fs s tl :
  on_wire fs → s ++ tl = stream_of fs →
  ∃ out fs',
    fs = out ++ fs'
    ∧ option_list (result_of (decoded s)) = map snd out
    ∧ pending s ++ tl = stream_of fs'
    ∧ (tl = [] → fs ≠ [] → out ≠ []).
Proof.
  intros Hfs Hst. destruct fs as [|[b F] fs].
  - apply app_eq_nil in Hst as [-> ->].
    destruct pending_nil as [-> ->]. by exists [], [].
  - apply Forall_cons in Hfs as [Hb Hfs]. cbn [fst snd] in Hb.
    unfold stream_of in *. cbn [map concat fst] in Hst.
    apply app_eq_inv in Hst as [(k & -> & Hk)|(k & Hk & ->)].
    + destruct (frame_complete b F k Hb) as [-> ->].
      exists [(b, F)], fs. split; [done|]. split; [done|]. split; [done|]. by intros.
    + destruct k as [|x k].
      * rewrite app_nil_r in Hk. subst s.
        destruct (frame_complete b F [] Hb) as [Hr Hpend]. rewrite app_nil_r in Hr, Hpend.
        rewrite Hr, Hpend. exists [(b, F)], fs.
        split; [done|]. split; [done|]. split; [done|]. by intros.
      * subst b. destruct (frame_incomplete s (x :: k) F Hb) as [-> ->]; [done|].
        exists [], ((s ++ x :: k, F) :: fs). split; [done|]. split; [done|].
        split; [by cbn [map concat fst]; rewrite <- app_assoc|]. done.
Qed.

Lemma on_wire_app_r out fs : on_wire (out ++ fs) → on_wire fs.
Proof. unfold on_wire. by intros [_ ?]%Forall_app. Qed.

Lemma returned_frames_cons r rs :
  returned_frames (r :: rs) = option_list r ++ returned_frames rs.
Proof. unfold returned_frames. by destruct r. Qed.

Lemma feed_stream chunks : ∀ p pre fs tl,
  on_wire fs → tracks p pre →
  pending pre ++ concat chunks ++ tl = stream_of fs →
  ∃ rs p' pre' out fs',
    feed chunks p = Some (rs, p')
    ∧ length rs = length chunks
    ∧ tracks p' pre'
    ∧ fs = out ++ fs'
    ∧ returned_frames rs = map snd out
    ∧ pending pre' ++ tl = stream_of fs'.
Proof.
  induction chunks as [|c cs IH]; intros p pre fs tl Hfs Ht Hst.
  - exists [], p, pre, [], fs. do 5 (split; [done|]). exact Hst.
  - destruct (update_pending p pre c Ht) as (p1 & Hu & Ht1).
    cbn [concat] in Hst. rewrite <- app_assoc, app_assoc in Hst.
    destruct (stream_step fs _ _ Hfs Hst) as (out1 & fs1 & -> & Hout1 & Hst1 & _).
    destruct (IH p1 _ fs1 tl (on_wire_app_r _ _ Hfs) Ht1 Hst1)
      as (rs & p' & pre' & out & fs' & Hfeed & Hlen & Ht' & -> & Hout & Hst').
    cbn [feed]. rewrite Hu. cbn [mbind option_bind]. rewrite Hfeed. cbn [mbind option_bind].
    eexists _, p', pre', (out1 ++ out), fs'. split; [reflexivity|].
    split; [by cbn [length]; rewrite Hlen|].
    split; [done|]. split; [by rewrite app_assoc|]. split; [|done].
    by rewrite returned_frames_cons, map_app, Hout1, Hout.
Qed.

Lemma feed_app (a b : list (list byte)) p :
  feed (a ++ b) p
  = '(r1, p1) ← feed a p; '(r2, p2) ← feed b p1; Some (r1 ++ r2, p2).
Proof.
  revert p. induction a as [|c a IH]; intros p.
  - cbn [app feed mbind option_bind]. by destruct (feed b p) as [[? ?]|].
  - cbn [app feed]. destruct (update c p) as [[r p1]|]; [|done].
    cbn [mbind option_bind]. rewrite IH.
    destruct (feed a p1) as [[r1 p2]|]; [|done]. cbn [mbind option_bind].
    by destruct (feed b p2) as [[r2 p3]|].
Qed.

Lemma returned_frames_app a b :
  returned_frames (a ++ b) = returned_frames a ++ returned_frames b.
Proof. unfold returned_frames. apply omap_app. Qed.

(** Calls with an empty chunk bring out the frames that are complete in
    the buffer, one for each call. *)
Lemma feed_drain n : ∀ p pre fs,
  on_wire fs → tracks p pre → pending pre = stream_of fs → (length fs ≤ n)%nat →
  ∃ p',
    feed (replicate n []) p
    = Some (map (λ bF, Some bF.2) fs ++ replicate (n - length fs) None, p').
Proof.
  induction n as [|n IH]; intros p pre fs Hfs Ht Hst Hlen.
  - destruct fs; [|simpl in Hlen; lia]. by exists p.
  - destruct (update_pending p pre [] Ht) as (p1 & Hu & Ht1).
    rewrite app_nil_r in Hu, Ht1.
    destruct (stream_step fs (pending pre) [] Hfs) as (out & fs1 & -> & Hout & Hst1 & Hne).
    { by rewrite app_nil_r. }
    rewrite app_nil_r in Hst1. specialize (Hne eq_refl).
    assert (Hl : length (out ++ fs1) = (length out + length fs1)%nat) by apply length_app.
    assert (Hlo : (length out ≤ 1)%nat).
    { apply (f_equal length) in Hout. rewrite length_map in Hout. rewrite <- Hout.
      destruct (result_of _); compute; lia. }
    assert (Hl1 : (length fs1 ≤ n)%nat).
    { destruct out as [|? out]; [|simpl in *; lia].
      destruct fs1; [simpl; lia | by destruct Hne]. }
    destruct (IH p1 _ fs1 (on_wire_app_r _ _ Hfs) Ht1 Hst1 Hl1) as (p' & Hfeed).
    cbn [replicate feed]. rewrite Hu. cbn [mbind option_bind].
    rewrite Hfeed. cbn [mbind option_bind].
    exists p'. do 2 f_equal.
    destruct out as [|[b F] [|? out]]; [| |simpl in Hlo; lia].
    + destruct fs1; [|by destruct Hne]. cbn [app map length].
      destruct (result_of _); [done|]. by rewrite Nat.sub_0_r.
    + cbn [map snd] in Hout. destruct (result_of _); [|done].
      injection Hout as ->. cbn [app map length snd]. reflexivity.
Qed.



Lemma returned_frames_drained (fs : list (list byte * Frame)) n :
  returned_frames (map (λ bF, Some bF.2) fs ++ replicate n None) = map snd fs.
Proof.
  rewrite returned_frames_app.
  assert (returned_frames (replicate n None) = []) as ->.
  { induction n; [done|]. by rewrite <- IHn. }
  rewrite app_nil_r. induction fs as [|[b F] fs IH]; [done|].
  cbn [map]. rewrite returned_frames_cons, IH. reflexivity.
Qed.

Lemma length_on_wire (fs : list (list byte * Frame)) out fs' :
  fs = out ++ fs' → (length fs' ≤ length fs)%nat.
Proof. intros ->. rewrite length_app. lia. Qed.

Lemma feed_all_frames (fs : list (list byte * Frame)) (chunks : list (list byte)) :
  on_wire fs → concat chunks = stream_of fs →
  ∃ rs p,
    feed (chunks ++ replicate (length fs) []) (new Frame_zero) = Some (rs, p)
    ∧ returned_frames rs = map snd fs.
Proof.
  intros Hfs Hst.
  destruct (feed_stream chunks (new Frame_zero) [] fs [] Hfs tracks_new)
    as (rs & p & pre & out & fs' & Hfeed & _ & Ht & Efs & Hout & Hpend).
  { destruct pending_nil as [_ ->]. by rewrite app_nil_r. }
  rewrite app_nil_r in Hpend.
  destruct (feed_drain (length fs) p pre fs') as (p' & Hdrain); try done.
  { rewrite Efs in Hfs. by eapply on_wire_app_r. }
  { by eapply length_on_wire. }
  rewrite feed_app, Hfeed. cbn [mbind option_bind]. rewrite Hdrain. cbn [mbind option_bind].
  eexists _, p'. split; [reflexivity|].
  by rewrite returned_frames_app, returned_frames_drained, Hout, <- map_app, <- Efs.
Qed.




Lemma unparsed_tracks p pre : tracks p pre → unparsed p = pending pre.
Proof.
  intros Ht. unfold unparsed, pending. rewrite (done_tracks _ _ Ht), (tracks_ptr _ _ Ht).
  by destruct Ht as (-> & _).
Qed.

(** While the frame is incomplete every call returns nothing. *)
Lemma feed_incomplete cs : ∀ p pre v F,
  tracks p pre → decodes_to Frame_zero (pre ++ concat cs ++ v) F → v ≠ [] →
  ∃ p', feed cs p = Some (replicate (length cs) None, p')
        ∧ tracks p' (pre ++ concat cs).
Proof.
  induction cs as [|c cs IH]; intros p pre v F Ht Hd Hv.
  - exists p. by rewrite app_nil_r.
  - destruct (update_pending p pre c Ht) as (p1 & Hu & Ht1).
    destruct (frame_incomplete pre (concat (c :: cs) ++ v) F Hd) as [_ Hpend].
    { intros [_ ?]%app_eq_nil. done. }
    rewrite Hpend in Hu, Ht1.
    cbn [concat] in Hd. rewrite <- app_assoc, app_assoc in Hd.
    destruct (frame_incomplete (pre ++ c) (concat cs ++ v) F Hd) as [Hr _].
    { intros [_ ?]%app_eq_nil. done. }
    destruct (IH p1 _ v F Ht1 Hd Hv) as (p' & Hfeed & Ht').
    cbn [feed]. rewrite Hu, Hr. cbn [mbind option_bind]. rewrite Hfeed.
    cbn [mbind option_bind]. exists p'. split; [done|].
    cbn [concat]. by rewrite app_assoc.
Qed.

Lemma feed_until_complete cs c bs F :
  decodes_to Frame_zero bs F → concat (cs ++ [c]) = bs → c ≠ [] →
  ∃ p, feed (cs ++ [c]) (new Frame_zero)
       = Some (replicate (length cs) None ++ [Some F], p).
Proof.
  intros Hd Hbs Hc. rewrite concat_app in Hbs. cbn [concat] in Hbs.
  rewrite app_nil_r in Hbs. subst bs.
  destruct (feed_incomplete cs (new Frame_zero) [] c F tracks_new Hd Hc) as (p1 & Hfeed & Ht1).
  cbn [app] in Ht1.
  destruct (update_pending p1 _ c Ht1) as (p2 & Hu & _).
  destruct (frame_incomplete (concat cs) c F Hd Hc) as [_ Hpend].
  rewrite Hpend in Hu.
  destruct (frame_complete (concat cs ++ c) F [] Hd) as [Hr _]. rewrite app_nil_r in Hr.
  rewrite Hr in Hu.
  rewrite feed_app, Hfeed. cbn [mbind option_bind feed]. rewrite Hu.
  cbn [mbind option_bind]. by exists p2.
Qed.

Lemma update_buffer p pre c :
  tracks p pre →
  ∃ r p', update c p = Some (r, p')
    ∧ FrameBuffer.view (m_frame_buffer p') = unparsed p ++ c
    ∧ FrameBuffer.size (m_frame_buffer p') = zlen (unparsed p ++ c).
Proof.
  intros Ht. destruct (update_pending p pre c Ht) as (p' & Hu & Hv & Hs & _).
  rewrite (unparsed_tracks _ _ Ht). by eexists _, p'.
Qed.

End Frames.

Lemma parsed_frame_carries fin0 mask0 opcode0 key data :
  carries (parsed_frame (mk_Frame fin0 mask0 opcode0 key data))
    (mk_request fin0 opcode0 mask0 data).
Proof.
  unfold carries, parsed_frame, wire_payload.
  cbn [fin mask opcode masking_key payload r_fin r_opcode r_mask r_payload].
  repeat split. destruct mask0; [|done].
  rewrite xor_with_key_mask_from. apply mask_from_involutive.
Qed.

Lemma construct_all_on_wire reqs : ∀ ff,
  Forall sendable reqs →
  ∃ fs ff',
    construct_all reqs ff = Some (map fst fs, ff')
    ∧ on_wire fs
    ∧ Forall2 carries (map snd fs) reqs.
Proof.
  induction reqs as [|[fin0 opcode0 mask0 data] reqs IH]; intros ff Hall.
  - exists [], ff. split; [done|]. split; [constructor | constructor].
  - apply Forall_cons in Hall as [[Ho Hn] Hall].
    cbn [r_opcode r_payload] in Ho, Hn.
    destruct (FrameFactory_construct_spec fin0 opcode0 mask0 data ff)
      as (key & ff1 & E & _ & _).
    destruct (IH ff1 Hall) as (fs & ff' & E' & Hfs & Hc).
    pose proof (wire_decodes_to (mk_Frame fin0 mask0 opcode0 key data) Ho Hn) as Hd.
    exists ((wire (mk_Frame fin0 mask0 opcode0 key data),
             parsed_frame (mk_Frame fin0 mask0 opcode0 key data)) :: fs), ff'.
    cbn [construct_all r_fin r_opcode r_mask r_payload]. rewrite E.
    cbn [mbind option_bind]. rewrite E'. cbn [mbind option_bind].
    split; [done|]. split; [by apply Forall_cons|].
    cbn [map snd]. apply Forall2_cons. split; [apply parsed_frame_carries | done].
Qed.

Lemma construct_all_roundtrip reqs ff :
  Forall sendable reqs →
  ∃ sent ff',
    construct_all reqs ff = Some (sent, ff')
    ∧ ∀ chunks, concat chunks = concat sent →
        ∃ rs p,
          feed (chunks ++ replicate (length reqs) []) (FrameParser.new Frame_zero)
          = Some (rs, p)
          ∧ Forall2 carries (returned_frames rs) reqs.
Proof.
  intros Hall.
  destruct (construct_all_on_wire reqs ff Hall) as (fs & ff' & E & Hfs & Hc).
  exists (map fst fs), ff'. split; [done|]. intros chunks Hch.
  destruct (feed_all_frames fs chunks Hfs Hch) as (rs & p & Hfeed & Hrs).
  assert (Hlen : length reqs = length fs).
  { apply Forall2_length in Hc. by rewrite length_map in Hc. }
  exists rs, p. rewrite Hlen, Hrs. done.
Qed.

(** ** The frame that is returned *)

Section Shape.
Import FrameParser.

(** The frame under construction: a 4-bit opcode, no payload before the
    last stage, and then the bytes of the buffer that end at the cursor. *)
Definition shaped (q : t) : Prop :=
  byte.unsigned (opcode (m_frame q)) < 16
  ∧ (m_parse_stage q ≠ DONE → payload (m_frame q) = [])
  ∧ (m_parse_stage q = DONE →
     m_payload_len q <= m_ptr q
     ∧ payload (m_frame q)
       = slice (m_ptr q - m_payload_len q) (m_payload_len q)
           (FrameBuffer.m_buf (m_frame_buffer q))).

Lemma set_stage_frame s p : m_frame (set_stage s p) = m_frame p.
Proof. reflexivity. Qed.

Lemma low_nibble x : byte.unsigned (byte.of_Z (Z.land (byte.unsigned x) 15)) < 16.
Proof. by destruct x. Qed.

Lemma slice_0 off (m : list byte) : slice off 0 m = [].
Proof. reflexivity. Qed.

Lemma shaped_header q q' :
  shaped q → m_parse_stage q ≠ DONE → m_parse_stage q' ≠ DONE →
  byte.unsigned (opcode (m_frame q')) < 16 →
  payload (m_frame q') = payload (m_frame q) →
  shaped q'.
Proof.
  intros (_ & Hp & _) Hnd Hs Ho HF. unfold shaped.
  split; [done|]. split; [|done]. intros _. rewrite HF. by apply Hp.
Qed.

Lemma after_length_not_done p : after_length p ≠ DONE.
Proof. unfold after_length. by destruct (mask _). Qed.

Lemma step_shaped q : wf q → shaped q → shaped (step q).
Proof.
  intros Hwf Hsh. pose proof Hsh as (Ho & Hp & Hd).
  pose proof (remaining_wf q Hwf) as Hr. destruct Hwf as (H0 & H1 & H2 & H3).
  assert (Hal : ∀ p, m_parse_stage (set_stage (after_length p) p) ≠ DONE)
    by (intros; apply after_length_not_done).
  unfold step. destruct (m_parse_stage q) eqn:Hs; [..|done].
  - unfold check_fin_bit. destruct (_ || _); [done|].
    apply (shaped_header q); [done | by rewrite Hs | done | done | done].
  - unfold check_opcode. destruct (_ || _); [done|].
    apply (shaped_header q); [done | by rewrite Hs | done | apply low_nibble | done].
  - unfold check_mask_bit. destruct (_ || _); [done|].
    apply (shaped_header q); [done | by rewrite Hs | done | done | done].
  - unfold check_payload_len. destruct (_ || _); [done|].
    unfold consume. cbv zeta. cbn [fst snd].
    destruct (_ =? 126); [|destruct (_ =? 127)];
      (apply (shaped_header q); [done | by rewrite Hs | first [done | apply Hal] | done | done]).
  - unfold check_extended_payload_len_16. destruct (_ || _); [done|].
    apply (shaped_header q); [done | by rewrite Hs | apply Hal | done | done].
  - rewrite check_extended_payload_len_64_unfold. destruct (_ || _); [done|].
    destruct (read_length64_fields 8 (set_payload_len 0 q)) as (_ & _ & Hf & _).
    apply (shaped_header q); [done | by rewrite Hs | apply Hal | |];
      cbv beta; by rewrite set_stage_frame, Hf.
  - unfold check_masking_key. destruct (_ || _); [done|].
    apply (shaped_header q); [done | by rewrite Hs | done | done | done].
  - unfold check_payload_data. destruct (_ || _) eqn:E; [done|].
    apply orb_false_iff in E as [_ E%Z.ltb_ge].
    unfold shaped. destruct (Z.eqb_spec (m_payload_len q) 0) as [E0|E0].
    + cbn [set_stage m_frame m_parse_stage m_payload_len m_ptr m_frame_buffer].
      split; [done|]. split; [done|]. intros _. rewrite E0. split; [lia|].
      rewrite slice_0. by apply Hp.
    + cbn [set_stage set_ptr set_frame set_payload m_frame m_parse_stage m_payload_len
           m_ptr m_frame_buffer payload opcode].
      split; [done|]. split; [done|]. intros _. split; [lia|].
      f_equal. lia.
Qed.

Lemma shaped_at_start bs : shaped (at_start bs).
Proof. unfold shaped, at_start, parser_on. cbn. split; [lia|]. by split. Qed.

Lemma shaped_decoded bs : shaped (decoded bs).
Proof.
  rewrite decoded_unfold.
  apply (run_checks_ind (λ q, wf q ∧ shaped q)).
  - split; [apply wf_at_start | apply shaped_at_start].
  - intros q [Hwf Hsh]. split; [by apply step_wf | by apply step_shaped].
Qed.

(** What [update] returns when it returns a frame. *)
Lemma update_result_shape p pre c :
  tracks p pre →
  ∃ r p',
    update c p = Some (r, p')
    ∧ ∀ F, r = Some F →
        m_parse_stage p' = DONE
        ∧ m_frame p' = F
        ∧ byte.unsigned (opcode F) < 16
        ∧ zlen (payload F) = m_payload_len p'
        ∧ m_payload_len p' <= m_ptr p'
        ∧ m_ptr p' <= FrameBuffer.size (m_frame_buffer p')
        ∧ payload F
          = slice (m_ptr p' - m_payload_len p') (m_payload_len p')
              (FrameBuffer.m_buf (m_frame_buffer p')).
Proof.
  intros Ht. destruct (update_pending p pre c Ht) as (p' & Hu & Ht').
  set (s := pending pre ++ c) in *.
  eexists _, p'. split; [exact Hu|]. intros F [Hd HF]%result_of_Some.
  pose proof (shaped_decoded s) as (Ho & _ & Hsh). specialize (Hsh Hd) as [Hle Hpay].
  pose proof (wf_decoded s) as (H0 & H1 & _ & H3).
  rewrite decoded_buffer in H1, Hpay. cbn [FrameBuffer.size FrameBuffer.m_ptr FrameBuffer.m_buf] in *.
  destruct Ht' as (Hv & Hs & Hc & Hp).
  rewrite Hp, set_frame_buffer_stage, set_frame_buffer_ptr, set_frame_buffer_payload_len,
    set_frame_buffer_buffer. change (m_frame (set_frame_buffer _ ?q)) with (m_frame q).
  rewrite HF in *. split; [done|]. split; [done|]. split; [done|].
  split. { rewrite Hpay. apply zlen_slice; lia. }
  split; [done|]. split; [lia|].
  rewrite Hpay. rewrite view_take, Hs in Hv.
  rewrite <- (slice_take _ _ (zlen s) (FrameBuffer.m_buf (m_frame_buffer p'))) by lia.
  by rewrite Hv.
Qed.

End Shape.

(** ** The capacity of the buffer of the parser *)

Section Capacity.
Import FrameParser.

Lemma reset_capacity p :
  wf p →
  ∃ p0, reset p = Some p0
    ∧ wf p0
    ∧ FrameBuffer.capacity (m_frame_buffer p0) = FrameBuffer.capacity (m_frame_buffer p).
Proof.
  intros Hwf. pose proof (remaining_wf p Hwf) as Hr.
  destruct (reset_spec p Hwf) as (b & Hreset & Hsb & Hcb & _).
  exists (parser_on b). split; [done|].
  split. { apply wf_parser_on; [|done]. destruct Hwf as (? & ? & _). lia. }
  destruct Hwf as (H0 & H1 & H2 & _).
  unfold reset in Hreset.
  destruct (Z.gtb_spec (remaining p) 0) as [Hgt|Hle].
  - set (previous := slice _ _ _) in Hreset.
    assert (Hlen : zlen previous = remaining p).
    { apply zlen_slice; unfold FrameBuffer.capacity, FrameBuffer.size in *; lia. }
    destruct (push_back_view_full previous (FrameBuffer.reset (m_frame_buffer p)))
      as (b' & E & _ & _ & Hcap).
    { cbn [FrameBuffer.reset FrameBuffer.m_ptr]. split; [done|]. apply zlen_nonneg. }
    rewrite E in Hreset. cbn [mbind option_bind] in Hreset. injection Hreset as ->.
    change (m_frame_buffer (parser_on b)) with b. rewrite Hcap, Hlen.
    change (FrameBuffer.capacity (FrameBuffer.reset (m_frame_buffer p)))
      with (FrameBuffer.capacity (m_frame_buffer p)).
    change (FrameBuffer.size (FrameBuffer.reset (m_frame_buffer p))) with 0. lia.
  - cbn [mbind option_bind] in Hreset. by injection Hreset as <-.
Qed.

Lemma parse_if_remaining_buffer q :
  m_frame_buffer (parse_if_remaining q).2 = m_frame_buffer q.
Proof.
  unfold parse_if_remaining. destruct (_ =? _); [done|].
  rewrite parse_result. apply run_checks_buffer.
Qed.

(** [update] enlarges the buffer only as far as the bytes it holds need. *)
Lemma update_capacity c p :
  wf p →
  ∃ r p', update c p = Some (r, p')
    ∧ FrameBuffer.capacity (m_frame_buffer p')
      = Z.max (FrameBuffer.capacity (m_frame_buffer p))
          (FrameBuffer.size (m_frame_buffer p')).
Proof.
  intros Hwf. unfold update.
  assert (∃ p0, (if done p then reset p else Some p) = Some p0 ∧ wf p0
            ∧ FrameBuffer.capacity (m_frame_buffer p0)
              = FrameBuffer.capacity (m_frame_buffer p))
    as (p0 & -> & Hwf0 & <-).
  { destruct (done p); [by apply reset_capacity | by eauto]. }
  cbn [mbind option_bind]. clear p Hwf.
  destruct Hwf0 as (H0 & H1 & H2 & _).
  destruct (negb (zlen c =? 0)).
  - destruct (push_back_view_full c (m_frame_buffer p0)) as (b' & -> & _ & Hs & Hcap).
    { unfold FrameBuffer.size in *. lia. }
    cbn [mbind option_bind].
    pose proof (parse_if_remaining_buffer (set_frame_buffer b' p0)) as Hb.
    destruct (parse_if_remaining _) as [r q]. cbn [snd] in Hb.
    exists r, q. split; [done|]. rewrite Hb, set_frame_buffer_buffer, Hcap, Hs. done.
  - destruct (bool_decide _).
    + exists None, p0. split; [done|]. lia.
    + pose proof (parse_if_remaining_buffer p0) as Hb.
      destruct (parse_if_remaining _) as [r q]. cbn [snd] in Hb.
      exists r, q. split; [done|]. rewrite Hb. lia.
Qed.

End Capacity.

(** ** Frames as a peer may send them *)

(** The bytes of a frame as a peer may send them: two header bytes, the
    extended length, the key if bit 7 of the second byte is set, and the
    payload as it stands on the wire. *)
Definition frame_bytes (x y : byte) (ext : list byte) (key : array4)
    (data : list byte) : list byte :=
  x :: y :: ext ++ (if flag y then array4_data key else []) ++ data.

(** [ext] is an extended length that goes with the second byte [y] and
    stands for [n]: none below 126, two bytes after 126, and eight bytes
    after 127, there for a value below 2^31. *)
Definition length_field (y : byte) (ext : list byte) (n : Z) : Prop :=
  (Z.land (byte.unsigned y) 127 < 126 ∧ ext = [] ∧ n = Z.land (byte.unsigned y) 127)
  ∨ (Z.land (byte.unsigned y) 127 = 126 ∧ ∃ h l, ext = [h; l] ∧ n = be_value [h; l])
  ∨ (Z.land (byte.unsigned y) 127 = 127 ∧ ext = be_bytes 8 n ∧ 0 <= n < 2 ^ 31).

Section AnyHeader.
Import FrameParser.

Lemma be_value_pair (h l : byte) :
  Z.lor (to_uint64 (Z.shiftl (byte.unsigned h) 8)) (byte.unsigned l) = be_value [h; l].
Proof.
  unfold be_value. cbn [fold_left]. unfold to_uint64.
  pose proof (byte.unsigned_range h). pose proof (byte.unsigned_range l).
  rewrite (Z.mod_small (Z.shiftl _ 8)) by (rewrite Z.shiftl_mul_pow2; lia).
  rewrite lor_shiftl_small by lia. lia.
Qed.

(** From the stage after the length to the end of the frame. *)
Lemma run_checks_body (H : list byte) (F : Frame) (key : array4) (data : list byte) :
  payload F = [] →
  let bs := H ++ (if mask F then array4_data key else []) ++ data in
  run_checks (mk (stage_after F) F (FrameBuffer.mk bs (zlen bs)) (zlen data) (zlen H))
  = mk DONE
      (mk_Frame (fin F) (mask F) (opcode F)
         (if mask F then key else masking_key F) data)
      (FrameBuffer.mk bs (zlen bs)) (zlen data) (zlen bs).
Proof.
  intros HF. destruct F as [f m o k pl]. cbn [payload] in HF. subst pl.
  cbn [fin mask opcode masking_key]. cbv zeta.
  pose proof (zlen_nonneg H) as HH. pose proof (zlen_nonneg data) as Hdata.
  unfold stage_after. cbn [mask]. destruct m.
  - rewrite run_checks_step,
      (step_masking_key _ _ _ _ (a0 key) (a1 key) (a2 key) (a3 key)); [|done|].
    2:{ by rewrite zlen_to_nat, drop_app_length. }
    rewrite run_checks_step, step_payload_data; [|lia|lia|].
    2:{ rewrite !zlen_app. change (zlen (array4_data _)) with 4. lia. }
    rewrite run_checks_blocked by (destruct (_ =? _); by apply step_done).
    unfold set_masking_key, set_payload. cbn [fin mask opcode masking_key payload].
    replace (mk_array4 _ _ _ _) with key by (by destruct key).
    rewrite !zlen_app. change (zlen (array4_data key)) with 4.
    destruct (Z.eqb_spec (zlen data) 0) as [E|E]; cbv iota.
    + rewrite (nil_length_inv data) by (unfold zlen in E; lia).
      f_equal; try (simpl; lia).
    + f_equal; [|lia]. f_equal.
      replace (zlen H + 4) with (zlen (H ++ array4_data key))
        by (rewrite zlen_app; reflexivity).
      rewrite <- (app_nil_r data) at 2.
      rewrite (app_assoc H). apply slice_middle.
  - cbv iota. cbn [app].
    rewrite run_checks_step, step_payload_data; [|lia|lia|].
    2:{ rewrite !zlen_app. lia. }
    rewrite run_checks_blocked by (destruct (_ =? _); by apply step_done).
    unfold set_payload. cbn [fin mask opcode masking_key payload].
    rewrite !zlen_app.
    destruct (Z.eqb_spec (zlen data) 0) as [E|E]; cbv iota.
    + rewrite (nil_length_inv data) by (unfold zlen in E; lia).
      f_equal; rewrite ?zlen_nil; lia.
    + f_equal; try lia. f_equal.
      rewrite <- (app_nil_r data) at 2. apply slice_middle.
Qed.

Lemma decoded_frame_bytes x y ext key data :
  length_field y ext (zlen data) →
  decoded (frame_bytes x y ext key data)
  = mk DONE
      (mk_Frame (flag x) (flag y) (byte.of_Z (Z.land (byte.unsigned x) 15))
         (if flag y then key else masking_key Frame_zero) data)
      (FrameBuffer.mk (frame_bytes x y ext key data)
         (zlen (frame_bytes x y ext key data)))
      (zlen data) (zlen (frame_bytes x y ext key data)).
Proof.
  intros Hlen. rewrite decoded_unfold. unfold at_start, parser_on.
  set (bs := frame_bytes x y ext key data).
  assert (Hbs : bs = (x :: y :: ext) ++ (if flag y then array4_data key else []) ++ data)
    by reflexivity.
  set (F := mk_Frame (flag x) (flag y) (byte.of_Z (Z.land (byte.unsigned x) 15))
              (masking_key Frame_zero) []).
  rewrite run_checks_step, (step_fin_bit _ _ _ _ x) by done.
  rewrite run_checks_step, (step_opcode _ _ _ _ x) by done.
  rewrite run_checks_step, (step_mask_bit _ _ _ _ y) by done.
  rewrite run_checks_step, (step_payload_len _ _ _ _ y) by done.
  cbv zeta. unfold set_fin, set_opcode, set_mask.
  cbn [fin mask opcode masking_key payload Frame_zero].
  fold F.
  assert (Htail : ∀ H, bs = H ++ (if flag y then array4_data key else []) ++ data →
    run_checks (mk (stage_after F) F (FrameBuffer.mk bs (zlen bs)) (zlen data) (zlen H))
    = mk DONE
        (mk_Frame (flag x) (flag y) (byte.of_Z (Z.land (byte.unsigned x) 15))
           (if flag y then key else masking_key Frame_zero) data)
        (FrameBuffer.mk bs (zlen bs)) (zlen data) (zlen bs)).
  { intros H EH. rewrite EH.
    apply (run_checks_body H F key data). reflexivity. }
  destruct Hlen as [(Hc & Hext & Hn)|[(Hc & h & l & Hext & Hn)|(Hc & Hext & Hn)]].
  - destruct (Z.eqb_spec (Z.land (byte.unsigned y) 127) 126); [lia|].
    destruct (Z.eqb_spec (Z.land (byte.unsigned y) 127) 127); [lia|].
    rewrite <- Hn. apply (Htail [x; y]). by rewrite Hbs, Hext.
  - rewrite Hc. change (126 =? 126) with true. cbv iota.
    rewrite run_checks_step, (step_extended_payload_len_16 _ _ _ _ h l);
      [|done|by rewrite Hbs, Hext..].
    rewrite be_value_pair, <- Hn. apply (Htail [x; y; h; l]). by rewrite Hbs, Hext.
  - rewrite Hc. change (127 =? 126) with false. change (127 =? 127) with true. cbv iota.
    rewrite run_checks_step, (step_extended_payload_len_64 _ _ _ _ (be_bytes 8 (zlen data)));
      [|done| |apply length_be_bytes].
    2:{ rewrite Hbs, <- Hext. change (Z.to_nat (0 + 1 + 1)) with 2%nat.
        cbn [app drop]. rewrite Hext, drop_0. rewrite take_app_length'; [done|].
        by rewrite length_be_bytes. }
    rewrite combine64_be_bytes by done.
    replace (0 + 1 + 1 + 8) with (zlen (x :: y :: ext)).
    2:{ rewrite !zlen_cons, Hext, zlen_be_bytes. lia. }
    by apply Htail.
Qed.

Lemma frame_bytes_decodes_to x y ext key data :
  length_field y ext (zlen data) →
  decodes_to Frame_zero (frame_bytes x y ext key data)
    (mk_Frame (flag x) (flag y) (byte.of_Z (Z.land (byte.unsigned x) 15))
       (if flag y then key else masking_key Frame_zero) data).
Proof.
  intros Hlen. apply decodes_to_decoded.
  rewrite (decoded_frame_bytes x y ext key data Hlen). by repeat split.
Qed.

End AnyHeader.

(** ** A parser that was just constructed *)

Section Stale.
Import FrameParser.

(** What [m_frame] held when the parser was constructed. *)
Variable g : Frame.

(** The frame under construction at stage [s] in a parser constructed over
    [g], given the one in a parser that started from [Frame_zero]: the
    members not yet written are those of [g]. *)
Definition stale_frame (s : ParseStage) (F : Frame) : Frame :=
  match s with
  | FIN_BIT => mk_Frame (fin g) (mask g) (opcode g) (masking_key g) (payload F)
  | OPCODE => mk_Frame (fin F) (mask g) (opcode g) (masking_key g) (payload F)
  | MASK_BIT => mk_Frame (fin F) (mask g) (opcode F) (masking_key g) (payload F)
  | PAYLOAD_LEN | EXTENDED_PAYLOAD_LEN_16 | EXTENDED_PAYLOAD_LEN_64 | MASKING_KEY =>
      set_masking_key (masking_key g) F
  | PAYLOAD_DATA | DONE => with_stale_key (masking_key g) F
  end.

Definition stale (q : t) : t :=
  set_frame (stale_frame (m_parse_stage q) (m_frame q)) q.

(** The key is awaited only for a masked frame. *)
Definition key_stage_masked (q : t) : Prop :=
  m_parse_stage q = MASKING_KEY → mask (m_frame q) = true.

Lemma new_stale : new g = stale (new Frame_zero).
Proof. reflexivity. Qed.

Lemma stale_stage q : m_parse_stage (stale q) = m_parse_stage q.
Proof. reflexivity. Qed.

Lemma stale_buffer q : m_frame_buffer (stale q) = m_frame_buffer q.
Proof. reflexivity. Qed.

Lemma stale_ptr q : m_ptr (stale q) = m_ptr q.
Proof. reflexivity. Qed.

Lemma stale_payload_len q : m_payload_len (stale q) = m_payload_len q.
Proof. reflexivity. Qed.

Lemma stale_done q : done (stale q) = done q.
Proof. reflexivity. Qed.

Lemma stale_set_frame_buffer b q : set_frame_buffer b (stale q) = stale (set_frame_buffer b q).
Proof. reflexivity. Qed.

Lemma read_length64_set_frame F n : ∀ p,
  read_length64 n (set_frame F p) = set_frame F (read_length64 n p).
Proof.
  induction n as [|n IH]; intros p; [done|].
  cbn [read_length64]. unfold consume. cbv zeta. cbn [fst snd].
  exact (IH (set_payload_len
    (Z.lor (m_payload_len (set_ptr (m_ptr p + 1) p))
       (to_uint64 (int_shl (byte.unsigned (read p)) (8 * Z.of_nat n))))
    (set_ptr (m_ptr p + 1) p))).
Qed.

(** A check does to the parser constructed over [g] what it does to the
    one that started from zero. *)
Ltac stale_unfold :=
  unfold consume, after_length, remaining, read, with_stale_key, stale_frame;
  cbv zeta;
  cbn [m_parse_stage m_frame m_frame_buffer m_payload_len m_ptr set_frame set_stage
       set_ptr set_payload_len set_fin set_mask set_opcode set_masking_key set_payload
       fst snd mask fin opcode masking_key payload].

Lemma read_length64_stale n q :
  m_parse_stage q = EXTENDED_PAYLOAD_LEN_64 →
  let r := read_length64 n (set_payload_len 0 q) in
  set_stage (after_length (read_length64 n (set_payload_len 0 (stale q))))
    (read_length64 n (set_payload_len 0 (stale q)))
  = stale (set_stage (after_length r) r)
  ∧ key_stage_masked (set_stage (after_length r) r).
Proof.
  intros Hs r.
  destruct (read_length64_fields n (set_payload_len 0 q)) as (_ & Hst & Hf & _).
  fold r in Hst, Hf. cbn [m_parse_stage m_frame set_payload_len] in Hst, Hf.
  change (set_payload_len 0 (stale q))
    with (set_frame (stale_frame (m_parse_stage q) (m_frame q)) (set_payload_len 0 q)).
  rewrite read_length64_set_frame. fold r. rewrite <- Hf, Hs. rewrite Hs in Hst.
  unfold key_stage_masked, stale, after_length.
  destruct r as [s F b len ptr]. cbn [m_frame m_parse_stage] in Hst. subst s.
  destruct F as [f m o k d].
  cbn [stale_frame set_frame set_stage m_parse_stage m_frame
       m_frame_buffer m_payload_len m_ptr set_masking_key
       fin mask opcode masking_key payload].
  unfold with_stale_key.
  destruct m; cbn [stale_frame set_frame set_stage m_parse_stage m_frame
                   m_frame_buffer m_payload_len m_ptr set_masking_key
                   fin mask opcode masking_key payload]; by split.
Qed.

Lemma step_stale q :
  key_stage_masked q → step (stale q) = stale (step q) ∧ key_stage_masked (step q).
Proof.
  destruct (decide (m_parse_stage q = EXTENDED_PAYLOAD_LEN_64)) as [Hs|Hs].
  { intros _. unfold step. rewrite stale_stage, Hs.
    rewrite !check_extended_payload_len_64_unfold.
    change (remaining (stale q)) with (remaining q). rewrite stale_stage.
    destruct (_ || _); [|by apply read_length64_stale].
    split; [done|]. unfold key_stage_masked. by rewrite Hs. }
  destruct q as [s F b len ptr]. unfold key_stage_masked. cbn [m_parse_stage m_frame] in *.
  intros Hk. destruct F as [f m o k d].
  destruct s; [| | | | | by destruct Hs | | |];
    unfold step, stale; cbn [m_parse_stage m_frame set_frame].
  - unfold check_fin_bit. stale_unfold. destruct (_ || _); stale_unfold; done.
  - unfold check_opcode. stale_unfold. destruct (_ || _); stale_unfold; done.
  - unfold check_mask_bit. stale_unfold. destruct (_ || _); stale_unfold; done.
  - unfold check_payload_len. stale_unfold. destruct (_ || _); stale_unfold; [done|].
    destruct (_ =? 126); stale_unfold; [done|].
    destruct (_ =? 127); stale_unfold; [done|].
    destruct m; stale_unfold; done.
  - unfold check_extended_payload_len_16. stale_unfold. destruct (_ || _); stale_unfold; [done|].
    destruct m; stale_unfold; done.
  - unfold check_masking_key. stale_unfold. destruct (_ || _); stale_unfold; [done|].
    specialize (Hk eq_refl). cbn [mask] in Hk. subst m. done.
  - unfold check_payload_data. stale_unfold. destruct (_ || _); stale_unfold; [done|].
    destruct (_ =? 0); stale_unfold; destruct m; done.
  - done.
Qed.

(** The checks in sequence, from a parser to the one they lead to. *)
Lemma run_checks_rel (P : t → t → Prop) :
  (∀ q, step q = q → P q q) → (∀ q r, P (step q) r → P q r) →
  ∀ p, P p (run_checks p).
Proof.
  intros Hb Hstep p.
  remember (8 - stage_index (m_parse_stage p))%nat as n eqn:Hn.
  revert p Hn. induction (lt_wf n) as [n _ IH]. intros p Hn.
  destruct (step_progress p) as [Hbl|Hlt].
  - rewrite run_checks_blocked by done. by apply Hb.
  - rewrite run_checks_step. apply Hstep.
    assert (stage_index (m_parse_stage (step p)) <= 8)%nat
      by (destruct (m_parse_stage (step p)); simpl; lia).
    apply (IH (8 - stage_index (m_parse_stage (step p)))%nat); [lia | done].
Qed.

Lemma run_checks_stale q :
  key_stage_masked q →
  run_checks (stale q) = stale (run_checks q) ∧ key_stage_masked (run_checks q).
Proof.
  apply (run_checks_rel
    (λ q r, key_stage_masked q → run_checks (stale q) = stale r ∧ key_stage_masked r)).
  - intros q' Hb Hk. split; [|done]. apply run_checks_blocked.
    destruct (step_stale q' Hk) as [-> _]. by rewrite Hb.
  - intros q' r IH Hk. destruct (step_stale q' Hk) as [E Hk'].
    rewrite run_checks_step, E. by apply IH.
Qed.

Lemma result_of_stale q :
  result_of (stale q) = with_stale_key (masking_key g) <$> result_of q.
Proof.
  unfold result_of. rewrite stale_done. unfold done.
  case_bool_decide as Hd; [|done]. cbn [negb fmap option_fmap option_map].
  unfold stale. cbn [m_frame set_frame]. by rewrite Hd.
Qed.

(** What a call returns and leaves on the parser constructed over [g],
    given what it returns and leaves on the one that started from zero. *)
Definition stale_result (rq : option Frame * t) : option Frame * t :=
  (with_stale_key (masking_key g) <$> rq.1, stale rq.2).

Lemma parse_if_remaining_stale q :
  key_stage_masked q → parse_if_remaining (stale q) = stale_result (parse_if_remaining q).
Proof.
  intros Hk. unfold parse_if_remaining. change (remaining (stale q)) with (remaining q).
  destruct (_ =? 0); [done|]. rewrite !parse_result.
  destruct (run_checks_stale q Hk) as [-> _]. unfold stale_result. cbn [fst snd].
  by rewrite result_of_stale.
Qed.

(** Until the first frame is complete the two parsers go side by side;
    [reset] then makes them the same. *)
Lemma update_stale v q :
  key_stage_masked q →
  update v (stale q) = if done q then update v q else stale_result <$> update v q.
Proof.
  intros Hk. unfold update. rewrite stale_done. destruct (done q) eqn:Hd.
  - reflexivity.
  - cbn [mbind option_bind]. rewrite stale_buffer, stale_stage. destruct (negb _).
    + destruct (FrameBuffer.push_back_view _ _) as [buf|]; [|done].
      cbn [mbind option_bind fmap option_fmap option_map].
      by rewrite stale_set_frame_buffer, parse_if_remaining_stale.
    + case_bool_decide; [done|]. cbn [fmap option_fmap option_map].
      by rewrite parse_if_remaining_stale.
Qed.

Lemma update_bool_stale nd q :
  key_stage_masked q →
  update_bool nd (stale q)
  = if done q then update_bool nd q else stale_result <$> update_bool nd q.
Proof.
  intros Hk. unfold update_bool. rewrite stale_done. destruct (done q) eqn:Hd.
  - reflexivity.
  - cbn [mbind option_bind]. rewrite stale_stage. destruct (_ && _); [done|].
    cbn [fmap option_fmap option_map]. by rewrite parse_if_remaining_stale.
Qed.

Lemma key_stage_decoded pre : key_stage_masked (decoded pre).
Proof.
  rewrite decoded_unfold. apply (run_checks_ind key_stage_masked).
  - by intros ?.
  - intros q Hq. by destruct (step_stale q Hq).
Qed.

Lemma tracks_key_stage q pre : tracks q pre → key_stage_masked q.
Proof.
  intros (_ & _ & _ & Hp). rewrite Hp. unfold key_stage_masked.
  rewrite set_frame_buffer_stage. apply key_stage_decoded.
Qed.

End Stale.

(** *** What the calls return on a parser just constructed *)

Lemma with_stale_key_fields k F :
  fin (with_stale_key k F) = fin F ∧ mask (with_stale_key k F) = mask F
  ∧ opcode (with_stale_key k F) = opcode F ∧ payload (with_stale_key k F) = payload F.
Proof. unfold with_stale_key. by destruct F as [f [] o k' d]. Qed.

Lemma with_stale_key_key k F :
  masking_key (with_stale_key k F) = if mask F then masking_key F else k.
Proof. unfold with_stale_key. by destruct F as [f [] o k' d]. Qed.

Lemma with_stale_key_twice k k' F :
  with_stale_key k (with_stale_key k' F) = with_stale_key k F.
Proof. unfold with_stale_key. by destruct F as [f [] o k'' d]. Qed.

Lemma carries_with_stale_key k F r : carries F r → carries (with_stale_key k F) r.
Proof.
  unfold carries, with_stale_key. destruct F as [f [] o k' d]; [done|].
  cbn [fin mask opcode masking_key payload FrameParser.set_masking_key].
  intros (? & ? & <- & ?). done.
Qed.

Lemma first_stale_prefix k (Fs Gs : list Frame) :
  Fs `prefix_of` Gs → first_stale k Fs `prefix_of` first_stale k Gs.
Proof.
  intros [tl ->]. destruct Fs as [|F Fs]; [apply prefix_nil|].
  cbn [first_stale app]. by exists tl.
Qed.

Lemma carries_first_stale k Fs reqs :
  Forall2 carries Fs reqs → Forall2 carries (first_stale k Fs) reqs.
Proof.
  intros [|F r Fs' reqs' H Hall]; [constructor|].
  cbn [first_stale]. constructor; [by apply carries_with_stale_key | done].
Qed.

Section Fresh.
Import FrameParser.

(** What [m_frame] held when the parser was constructed. *)
Variable g : Frame.

(** What the calls return on the parser constructed over [g], given what
    they return on the one that started from zero: the first frame is the
    one completed before any [reset]. *)
Fixpoint first_returned_stale (rs : list (option Frame)) : list (option Frame) :=
  match rs with
  | [] => []
  | None :: rs => None :: first_returned_stale rs
  | Some F :: rs => Some (with_stale_key (masking_key g) F) :: rs
  end.

Lemma returned_frames_first_stale rs :
  returned_frames (first_returned_stale rs)
  = first_stale (masking_key g) (returned_frames rs).
Proof.
  unfold returned_frames. induction rs as [|[F|] rs IH]; [done | done |].
  cbn [first_returned_stale omap list_omap id]. exact IH.
Qed.

Lemma first_returned_stale_nones n F :
  first_returned_stale (replicate n None ++ [Some F])
  = replicate n None ++ [Some (with_stale_key (masking_key g) F)].
Proof. induction n as [|n IH]; [done|]. cbn [replicate app first_returned_stale]. by rewrite IH. Qed.

Lemma length_first_returned_stale rs : length (first_returned_stale rs) = length rs.
Proof. induction rs as [|[F|] rs IH]; cbn [first_returned_stale length]; congruence. Qed.

(** [clear] right after the constructor gives the parser that started
    from zero. *)
Lemma clear_new : clear (new g) = new Frame_zero.
Proof. reflexivity. Qed.

(** One call of [update] on a parser just constructed. *)
Lemma update_fresh bs :
  update bs (new g) = stale_result g <$> update bs (new Frame_zero).
Proof. rewrite (new_stale g), update_stale; [done | by intros ?]. Qed.

Lemma decodes_to_fresh bs F :
  decodes_to Frame_zero bs F → decodes_to g bs (with_stale_key (masking_key g) F).
Proof.
  intros (p & Hu & Hp). exists (stale g p). rewrite update_fresh, Hu. by split.
Qed.

Lemma decodes_to_zero bs F :
  decodes_to g bs F →
  ∃ F0, decodes_to Frame_zero bs F0 ∧ F = with_stale_key (masking_key g) F0.
Proof.
  intros (p & Hu & Hp). rewrite update_fresh in Hu.
  destruct (update bs (new Frame_zero)) as [[[F0|] q]|] eqn:E; try done.
  injection Hu as <- <-. exists F0. split; [|done]. by exists q.
Qed.

(** Once a frame is complete the next call starts with [reset]. *)
Lemma feed_stale_done cs q rs q' :
  key_stage_masked q → done q = true → feed cs q = Some (rs, q') →
  ∃ p', feed cs (stale g q) = Some (rs, p').
Proof.
  intros Hk Hd. destruct cs as [|c cs]; cbn [feed].
  - intros [= <- <-]. by eexists.
  - rewrite update_stale, Hd by done. intros ->. by eexists.
Qed.

Lemma feed_stale cs : ∀ q pre rs q',
  tracks q pre → done q = false → feed cs q = Some (rs, q') →
  ∃ p', feed cs (stale g q) = Some (first_returned_stale rs, p').
Proof.
  induction cs as [|c cs IH]; intros q pre rs q' Ht Hd Hfeed.
  - injection Hfeed as <- <-. by eexists.
  - cbn [feed] in *. destruct (update_pending q pre c Ht) as (q1 & Hu & Ht1).
    rewrite update_stale, Hd, Hu by (by eapply (tracks_key_stage g)).
    rewrite Hu in Hfeed. cbn [mbind option_bind fmap option_fmap option_map] in *.
    unfold stale_result. cbn [fst snd].
    destruct (feed cs q1) as [[rs1 q2]|] eqn:Hf; [|done].
    injection Hfeed as <- <-.
    destruct (result_of (decoded (pending pre ++ c))) as [F|] eqn:Hr.
    + assert (Hd1 : done q1 = true).
      { rewrite (done_tracks _ _ Ht1). apply result_of_Some in Hr as [Hs _].
        unfold done. by rewrite bool_decide_true. }
      destruct (feed_stale_done cs q1 rs1 q2 (tracks_key_stage g _ _ Ht1) Hd1 Hf) as (p' & ->).
      by eexists.
    + assert (Hd1 : done q1 = false).
      { rewrite (done_tracks _ _ Ht1). revert Hr. unfold result_of.
        destruct (done (decoded (pending pre ++ c))); cbn [negb]; done. }
      destruct (IH q1 _ rs1 q2 Ht1 Hd1 Hf) as (p' & ->). by eexists.
Qed.

Lemma feed_fresh chunks rs q :
  feed chunks (new Frame_zero) = Some (rs, q) →
  ∃ p, feed chunks (new g) = Some (first_returned_stale rs, p).
Proof. rewrite (new_stale g). by apply (feed_stale chunks _ []); [apply tracks_new|]. Qed.

(** [lags p q]: [p] is the parser constructed over [g] where [q] is the one
    that started from zero, the same after a [reset] or [clear]. *)
Definition lags (p q : t) : Prop := p = q ∨ p = stale g q.

Lemma update_lags c p q pre :
  tracks q pre → lags p q →
  ∃ r q' r' p',
    update c q = Some (r, q') ∧ tracks q' (pending pre ++ c)
    ∧ update c p = Some (r', p')
    ∧ ((r' = r ∧ p' = q')
       ∨ (r' = with_stale_key (masking_key g) <$> r ∧ p' = stale g q')).
Proof.
  intros Ht Hl. destruct (update_pending q pre c Ht) as (q' & Hu & Ht').
  destruct Hl as [->| ->].
  - eexists _, q', _, q'. split; [exact Hu|]. split; [done|]. split; [exact Hu|]. by left.
  - rewrite update_stale by (by eapply (tracks_key_stage g)).
    destruct (done q).
    + eexists _, q', _, q'. split; [exact Hu|]. split; [done|]. split; [exact Hu|]. by left.
    + eexists _, q', _, (stale g q'). split; [exact Hu|]. split; [done|].
      rewrite Hu. split; [reflexivity|]. by right.
Qed.

Lemma update_bool_lags nd p q pre :
  tracks q pre → lags p q → update_bool nd p = update [] p.
Proof.
  intros Ht [->| ->]; [by eapply update_bool_tracks|].
  rewrite update_bool_stale, update_stale by (by eapply (tracks_key_stage g)).
  by rewrite (update_bool_tracks nd q pre Ht).
Qed.

Lemma apply_op_lags op p q pre :
  tracks q pre → lags p q →
  ∃ p' q' pre', apply_op op p = Some p' ∧ tracks q' pre' ∧ lags p' q'.
Proof.
  intros Ht Hl. destruct op as [chunk|new_data|]; cbn [apply_op].
  - destruct (update_lags chunk p q pre Ht Hl) as (r & q' & r' & p' & _ & Ht' & -> & Hor).
    cbn [mbind option_bind]. exists p', q', (pending pre ++ chunk).
    split; [done|]. split; [done|].
    destruct Hor as [[_ ->]|[_ ->]]; [by left | by right].
  - rewrite (update_bool_lags new_data p q pre Ht Hl).
    destruct (update_lags [] p q pre Ht Hl) as (r & q' & r' & p' & _ & Ht' & -> & Hor).
    cbn [mbind option_bind]. exists p', q', (pending pre ++ []).
    split; [done|]. split; [done|].
    destruct Hor as [[_ ->]|[_ ->]]; [by left | by right].
  - exists (clear p), (clear q), []. split; [done|]. split; [apply tracks_clear|].
    left. by destruct Hl as [->| ->].
Qed.

Lemma apply_ops_lags ops : ∀ p q pre,
  tracks q pre → lags p q →
  ∃ p' q' pre', apply_ops ops p = Some p' ∧ tracks q' pre' ∧ lags p' q'.
Proof.
  induction ops as [|op ops IH]; intros p q pre Ht Hl; [by exists p, q, pre|].
  destruct (apply_op_lags op p q pre Ht Hl) as (p1 & q1 & pre1 & E & Ht1 & Hl1).
  destruct (IH p1 q1 pre1 Ht1 Hl1) as (p' & q' & pre' & E' & Ht' & Hl').
  exists p', q', pre'. cbn [apply_ops]. rewrite E. by split.
Qed.

(** Every state the operations lead to from a parser just constructed. *)
Lemma apply_ops_new ops :
  ∃ p q pre, apply_ops ops (new g) = Some p ∧ tracks q pre ∧ lags p q.
Proof.
  apply (apply_ops_lags ops (new g) (new Frame_zero) []); [apply tracks_new|].
  right. apply new_stale.
Qed.

End Fresh.

(** *** The calls in any state of a parser just constructed *)

Section FreshCalls.
Import FrameParser.

(** What [m_frame] held when the parser was constructed. *)
Variable g : Frame.

Lemma stale_frame_done q F :
  m_parse_stage q = DONE → m_frame q = F →
  m_frame (stale g q) = with_stale_key (masking_key g) F.
Proof. intros Hs <-. unfold stale. cbn [m_frame set_frame]. by rewrite Hs. Qed.

Lemma update_result_shape_lags p q pre c :
  tracks q pre → lags g p q →
  ∃ r p',
    update c p = Some (r, p')
    ∧ ∀ F, r = Some F →
        m_parse_stage p' = DONE
        ∧ m_frame p' = F
        ∧ byte.unsigned (opcode F) < 16
        ∧ zlen (payload F) = m_payload_len p'
        ∧ m_payload_len p' <= m_ptr p'
        ∧ m_ptr p' <= FrameBuffer.size (m_frame_buffer p')
        ∧ payload F
          = slice (m_ptr p' - m_payload_len p') (m_payload_len p')
              (FrameBuffer.m_buf (m_frame_buffer p')).
Proof.
  intros Ht Hl.
  destruct (update_lags g c p q pre Ht Hl) as (r & q' & r' & p' & Hu & _ & Hup & Hor).
  destruct (update_result_shape q pre c Ht) as (r0 & q0 & Hu0 & Hsh).
  rewrite Hu in Hu0. injection Hu0 as <- <-.
  exists r', p'. split; [done|]. intros F HF.
  destruct Hor as [[-> ->]|[-> ->]]; [by apply Hsh|].
  destruct r as [F0|]; [|done]. injection HF as <-.
  destruct (Hsh F0 eq_refl) as (H1 & H2 & H3 & H4 & H5 & H6 & H7).
  destruct (with_stale_key_fields (masking_key g) F0) as (_ & _ & -> & ->).
  rewrite stale_stage, stale_payload_len, stale_ptr, stale_buffer.
  split; [done|]. split; [by apply stale_frame_done|]. done.
Qed.

Lemma update_buffer_lags p q pre c :
  tracks q pre → lags g p q →
  ∃ r p', update c p = Some (r, p')
    ∧ FrameBuffer.view (m_frame_buffer p') = unparsed p ++ c
    ∧ FrameBuffer.size (m_frame_buffer p') = zlen (unparsed p ++ c).
Proof.
  intros Ht Hl.
  destruct (update_lags g c p q pre Ht Hl) as (r & q' & r' & p' & Hu & _ & Hup & Hor).
  destruct (update_buffer q pre c Ht) as (r0 & q0 & Hu0 & Hv & Hs).
  rewrite Hu in Hu0. injection Hu0 as <- <-.
  exists r', p'. split; [done|].
  assert (unparsed p = unparsed q) as -> by (by destruct Hl as [->| ->]).
  by destruct Hor as [[_ ->]|[_ ->]].
Qed.




Lemma update_idle_lags p q pre :
  tracks q pre → lags g p q →
  update_bool true p = update [] p
  ∧ (done p = false → update [] p = Some (None, p)).
Proof.
  intros Ht Hl. split; [by eapply update_bool_lags|]. intros Hd.
  assert (Hq : done q = false) by (by destruct Hl as [->| ->]).
  assert (Hnd : m_parse_stage q ≠ DONE).
  { unfold done in Hq. by apply bool_decide_eq_false in Hq. }
  pose proof (update_empty_within q pre Ht Hnd) as Hu.
  destruct Hl as [->| ->]; [done|].
  rewrite update_stale by (by eapply (tracks_key_stage g)). by rewrite Hq, Hu.
Qed.

(** Two frames in one chunk, and two more calls without bytes. *)
Lemma two_frames_zero f1 f2 F1 F2 :
  decodes_to Frame_zero f1 F1 → decodes_to Frame_zero f2 F2 →
  ∃ p1 p2 p3,
    update (f1 ++ f2) (new Frame_zero) = Some (Some F1, p1)
    ∧ tracks p1 (f1 ++ f2)
    ∧ update [] p1 = Some (Some F2, p2)
    ∧ FrameBuffer.view (m_frame_buffer p2) = f2
    ∧ m_ptr p2 = zlen f2
    ∧ update [] p2 = Some (None, p3)
    ∧ FrameBuffer.size (m_frame_buffer p3) = 0.
Proof.
  intros Hd1 Hd2.
  destruct (frame_complete f1 F1 f2 Hd1) as [Hr1 Hp1].
  destruct (frame_complete f2 F2 [] Hd2) as [Hr2 Hp2].
  apply decodes_to_decoded in Hd1 as (Hne1 & _).
  apply decodes_to_decoded in Hd2 as (_ & _ & _ & Hptr2).
  destruct (update_new (f1 ++ f2)) as (p1 & Hu1 & Ht1); [by destruct f1|].
  destruct (update_pending p1 _ [] Ht1) as (p2 & Hu2 & Ht2).
  rewrite Hp1 in Hu2, Ht2.
  destruct (update_pending p2 _ [] Ht2) as (p3 & Hu3 & Ht3).
  rewrite Hp2 in Hu3, Ht3. cbn [app] in Hu3, Ht3.
  destruct pending_nil as [Hnil _]. rewrite Hnil in Hu3.
  rewrite Hr1 in Hu1. rewrite Hr2 in Hu2.
  exists p1, p2, p3. split; [done|]. split; [done|]. split; [done|].
  rewrite app_nil_r in Ht2.
  split; [by destruct Ht2 as (-> & _)|].
  split; [by rewrite (tracks_ptr _ _ Ht2)|]. split; [done|].
  by destruct Ht3 as (_ & -> & _).
Qed.

Lemma two_frames_fresh f1 f2 F1 F2 :
  decodes_to Frame_zero f1 F1 → decodes_to Frame_zero f2 F2 →
  ∃ p1 p2 p3,
    update (f1 ++ f2) (new g) = Some (Some (with_stale_key (masking_key g) F1), p1)
    ∧ update [] p1 = Some (Some F2, p2)
    ∧ FrameBuffer.view (m_frame_buffer p2) = f2
    ∧ m_ptr p2 = zlen f2
    ∧ update [] p2 = Some (None, p3)
    ∧ FrameBuffer.size (m_frame_buffer p3) = 0.
Proof.
  intros Hd1 Hd2.
  destruct (two_frames_zero f1 f2 F1 F2 Hd1 Hd2)
    as (p1 & p2 & p3 & Hu1 & Ht1 & Hu2 & Hrest).
  exists (stale g p1), p2, p3. rewrite update_fresh, Hu1. split; [done|].
  rewrite update_stale by (by eapply (tracks_key_stage g)).
  assert (done p1 = true) as ->; [|done].
  destruct (frame_complete f1 F1 f2 Hd1) as [[Hs _]%result_of_Some _].
  rewrite (done_tracks _ _ Ht1). unfold done. by rewrite bool_decide_true.
Qed.

End FreshCalls.

(** *** A frame of 2^31 bytes *)

(** The bytes of a text frame of 2^31 bytes with more bytes behind it. *)
Lemma decoded_2GiB_more data more :
  zlen data = 2 ^ 31 → zlen more < 2 ^ 63 →
  FrameParser.m_parse_stage (decoded (header_2GiB ++ data ++ more)) = PAYLOAD_DATA
  ∧ FrameParser.m_payload_len (decoded (header_2GiB ++ data ++ more))
    = 18446744071562067968.
Proof.
  intros Hlen Hmore. pose proof (zlen_nonneg more) as Hnn.
  rewrite decoded_unfold. unfold at_start.
  rewrite <- (set_frame_buffer_at_start _ header_2GiB).
  rewrite <- run_checks_extends; [| apply wf_at_start |].
  2:{ apply extends_holding; unfold FrameBuffer.capacity;
        cbn [FrameBuffer.size FrameBuffer.m_ptr FrameBuffer.m_buf].
      - rewrite !zlen_app. pose proof (zlen_nonneg data). lia.
      - lia.
      - by rewrite take_app_length. }
  set (q := FrameParser.run_checks (at_start header_2GiB)).
  assert (Hq : q = FrameParser.mk PAYLOAD_DATA
                     (mk_Frame true false Opcode.TEXT (masking_key Frame_zero) [])
                     (FrameBuffer.mk header_2GiB 10) 18446744071562067968 10).
  { vm_compute. reflexivity. }
  rewrite Hq. clear q Hq.
  rewrite run_checks_blocked; [done|].
  unfold step, FrameParser.check_payload_data, FrameParser.remaining, size_sub.
  cbn [FrameParser.set_frame_buffer FrameParser.m_parse_stage FrameParser.m_payload_len
       FrameParser.m_frame_buffer FrameParser.m_ptr FrameBuffer.size FrameBuffer.m_ptr].
  rewrite !zlen_app, Hlen. change (zlen header_2GiB) with 10.
  destruct (Z.leb_spec 10 (10 + (2 ^ 31 + zlen more))); [|lia].
  destruct (Z.ltb_spec (10 + (2 ^ 31 + zlen more) - 10) 18446744071562067968); [|lia].
  by rewrite orb_true_r.
Qed.

(** A frame of 2^31 bytes from [text] with the bytes [more] behind it: the
    call that gets them all returns nothing, and so does a call without
    bytes after it. *)
Lemma first_frame_withheld g data more ff :
  zlen data = 2 ^ 31 → zlen more < 2 ^ 63 →
  ∃ bytes ff' p,
    FrameFactory.text true false data ff = Some (bytes, ff')
    ∧ FrameParser.update (bytes ++ more) (FrameParser.new g) = Some (None, p)
    ∧ FrameParser.update [] p = Some (None, p)
    ∧ FrameParser.m_parse_stage p = PAYLOAD_DATA
    ∧ FrameParser.m_payload_len p = 18446744071562067968.
Proof.
  intros Hlen Hmore. unfold FrameFactory.text.
  destruct (FrameFactory_construct_spec true Opcode.TEXT false data ff)
    as (key & ff' & E & _ & ->).
  rewrite (wire_2GiB data Hlen) in E.
  destruct (update_new ((header_2GiB ++ data) ++ more)) as (p & Hu & Ht); [done|].
  rewrite <- app_assoc in Hu, Ht.
  destruct (decoded_2GiB_more data more Hlen Hmore) as (Hs & Hl).
  assert (Hsp : FrameParser.m_parse_stage p = PAYLOAD_DATA)
    by (by rewrite (tracks_stage _ _ Ht)).
  exists (header_2GiB ++ data), ff', (stale g p).
  split; [done|]. rewrite <- app_assoc, update_fresh, Hu.
  rewrite result_of_None by (by rewrite Hs).
  split; [done|].
  split.
  { rewrite update_stale by (by eapply (tracks_key_stage g)).
    unfold FrameParser.done. rewrite Hsp, bool_decide_false by done.
    rewrite (update_empty_within p _ Ht) by (by rewrite Hsp). done. }
  split; [done|]. rewrite stale_payload_len. by destruct Ht as (_ & _ & _ & ->).
Qed.

(** * Main results *)

(** ** Round trip and extended lengths *)

(** C1 fails on a payload of 2^31 bytes.  [text] serializes it with the
    8-byte length 00 00 00 00 80 00 00 00; a fresh parser, whatever its
    [m_frame] held, given all the bytes in one call, reads the length as
    0xFFFFFFFF80000000, waits for that many bytes and returns no frame. *)
Theorem roundtrip_fails_at_2GiB (m_frame0 : Frame) (ff : FrameFactory.t) :
  ∃ bytes ff' p,
    FrameFactory.text true false (replicate (Z.to_nat (2 ^ 31)) Byte.x00) ff
    = Some (bytes, ff')
    ∧ FrameParser.update bytes (FrameParser.new m_frame0) = Some (None, p)
    ∧ FrameParser.m_parse_stage p = PAYLOAD_DATA
    ∧ FrameParser.m_payload_len p = 18446744071562067968.
Proof.
  destruct (first_frame_withheld m_frame0 (replicate (Z.to_nat (2 ^ 31)) Byte.x00) [] ff)
    as (bytes & ff' & p & E & Hu & _ & Hs & Hl).
  { unfold zlen. rewrite length_replicate. apply Z2Nat.id. lia. }
  { done. }
  rewrite app_nil_r in Hu. by exists bytes, ff', p.
Qed.

(** X1.  Round trip below 2^31 payload bytes: what [FrameFactory::construct]
    returns, given to a fresh parser in one [update] call, comes back as a
    frame with the same [fin], [opcode] and [mask], whatever the [m_frame]
    of the parser held; with a mask, XORing the decoded payload with the
    decoded key gives the payload back; without, the decoded payload is the
    payload.  The call consumes all the bytes. *)
Theorem roundtrip_below_2GiB (m_frame0 : Frame) (fin0 mask0 : bool) (opcode0 : Opcode)
    (data : list byte) (ff : FrameFactory.t) :
  byte.unsigned opcode0 < 16 → zlen data < 2 ^ 31 →
  ∃ bytes ff' F p,
    FrameFactory.construct fin0 opcode0 mask0 data ff = Some (bytes, ff')
    ∧ FrameParser.update bytes (FrameParser.new m_frame0) = Some (Some F, p)
    ∧ fin F = fin0 ∧ opcode F = opcode0 ∧ mask F = mask0
    ∧ (if mask0 then xor_with_key (masking_key F) (payload F) = data
       else payload F = data)
    ∧ FrameParser.m_ptr p = zlen bytes.
Proof.
  intros Ho Hn.
  destruct (FrameFactory_construct_spec fin0 opcode0 mask0 data ff)
    as (key & ff' & E & _ & _).
  destruct (decodes_to_fresh m_frame0 _ _
              (wire_decodes_to (mk_Frame fin0 mask0 opcode0 key data) Ho Hn))
    as (p & Hu & Hp).
  eexists (wire (mk_Frame fin0 mask0 opcode0 key data)), ff', _, p.
  split; [done|]. split; [exact Hu|].
  destruct (with_stale_key_fields (masking_key m_frame0)
              (parsed_frame (mk_Frame fin0 mask0 opcode0 key data)))
    as (-> & -> & -> & ->).
  rewrite with_stale_key_key.
  unfold parsed_frame, wire_payload. cbn [fin mask opcode masking_key payload].
  repeat split; [|done].
  destruct mask0; [|done].
  rewrite xor_with_key_mask_from. apply mask_from_involutive.
Qed.

Lemma roundtrip_below_2GiB_witness :
  ∃ bytes ff' F p,
    FrameFactory.construct true Opcode.TEXT true [Byte.x48; Byte.x69]
      (FrameFactory.new 1 2 16) = Some (bytes, ff')
    ∧ FrameParser.update bytes (FrameParser.new Frame_0xaa) = Some (Some F, p)
    ∧ fin F = true ∧ opcode F = Opcode.TEXT ∧ mask F = true
    ∧ xor_with_key (masking_key F) (payload F) = [Byte.x48; Byte.x69]
    ∧ FrameParser.m_ptr p = zlen bytes.
Proof.
  apply (roundtrip_below_2GiB Frame_0xaa true true Opcode.TEXT [Byte.x48; Byte.x69]
           (FrameFactory.new 1 2 16)); by vm_compute.
Defined.

(** C3, the 64-bit part, fails.  After base length 127 the bytes
    00 00 00 00 80 00 00 00, big-endian for 2^31, give the payload length
    0xFFFFFFFF80000000: the byte 0x80 is shifted left by 24 as an [int],
    which is negative, and its conversion to 64 bits extends the sign. *)
Theorem extended_length_64_sign_extends (m_frame0 : Frame) :
  ∃ p,
    FrameParser.update
      [Byte.x82; Byte.x7f; Byte.x00; Byte.x00; Byte.x00; Byte.x00;
       Byte.x80; Byte.x00; Byte.x00; Byte.x00] (FrameParser.new m_frame0)
    = Some (None, p)
    ∧ FrameParser.m_parse_stage p = PAYLOAD_DATA
    ∧ FrameParser.m_payload_len p = 18446744071562067968
    ∧ be_value [Byte.x00; Byte.x00; Byte.x00; Byte.x00;
                Byte.x80; Byte.x00; Byte.x00; Byte.x00] = 2147483648.
Proof. eexists. split; [vm_compute; reflexivity|]. by vm_compute. Qed.

(** X3.  The part of C3 on base length 126: the length the parser takes is
    the big-endian value of the next two bytes. *)
Theorem extended_length_16_big_endian p :
  FrameParser.m_parse_stage p = EXTENDED_PAYLOAD_LEN_16 →
  2 <= FrameParser.remaining p →
  FrameParser.m_payload_len (FrameParser.check_extended_payload_len_16 p)
  = be_value [FrameParser.read p;
              FrameParser.read (FrameParser.set_ptr (FrameParser.m_ptr p + 1) p)].
Proof.
  intros Hs Hr. unfold FrameParser.check_extended_payload_len_16.
  rewrite Hs. rewrite bool_decide_false by (by intros ?).
  destruct (Z.ltb_spec (FrameParser.remaining p) 2); [lia|].
  cbn [orb]. unfold FrameParser.consume. cbv zeta. cbn [fst snd].
  cbn [FrameParser.m_payload_len FrameParser.set_stage FrameParser.set_payload_len].
  set (x := FrameParser.read p). set (y := FrameParser.read _).
  unfold be_value. cbn [fold_left]. unfold to_uint64.
  pose proof (byte.unsigned_range x). pose proof (byte.unsigned_range y).
  rewrite (Z.mod_small (Z.shiftl _ 8)) by (rewrite Z.shiftl_mul_pow2; lia).
  rewrite lor_shiftl_small by lia. lia.
Qed.

Lemma extended_length_16_big_endian_witness :
  FrameParser.m_payload_len
    (FrameParser.check_extended_payload_len_16
       (FrameParser.mk EXTENDED_PAYLOAD_LEN_16 Frame_zero
          (FrameBuffer.mk [Byte.x82; Byte.x7e; Byte.x01; Byte.x00] 4) 0 2))
  = be_value [Byte.x01; Byte.x00].
Proof.
  apply (extended_length_16_big_endian
           (FrameParser.mk EXTENDED_PAYLOAD_LEN_16 Frame_zero
              (FrameBuffer.mk [Byte.x82; Byte.x7e; Byte.x01; Byte.x00] 4) 0 2));
    by vm_compute.
Defined.

(** X2.  Masking symmetry: XORing with the key twice gives the bytes back. *)
Theorem xor_with_key_involutive key data :
  xor_with_key key (xor_with_key key data) = data.
Proof. rewrite !xor_with_key_mask_from. apply mask_from_involutive. Qed.

(** ** The parser on chunks *)

(** C2 fails for the key of a frame without mask.  The constructor leaves
    [m_frame] uninitialised, and the key bytes are written only for a
    masked frame.  The bytes 81 02 48 69 given whole to one fresh parser
    and in two chunks to another: each returns the frame with the key bytes
    its own [m_frame] held at construction, so the two frames differ in
    [masking_key] whenever those bytes do. *)
Theorem chunked_delivery_key_indeterminate (m_frame1 m_frame2 : Frame) :
  ∃ F1 p1 F2 p2,
    FrameParser.update [Byte.x81; Byte.x02; Byte.x48; Byte.x69]
      (FrameParser.new m_frame1) = Some (Some F1, p1)
    ∧ feed [[Byte.x81; Byte.x02; Byte.x48]; [Byte.x69]] (FrameParser.new m_frame2)
      = Some ([None; Some F2], p2)
    ∧ F1 = mk_Frame true false Opcode.TEXT (masking_key m_frame1) [Byte.x48; Byte.x69]
    ∧ F2 = mk_Frame true false Opcode.TEXT (masking_key m_frame2) [Byte.x48; Byte.x69]
    ∧ (masking_key m_frame1 ≠ masking_key m_frame2 → F1 ≠ F2).
Proof.
  eexists _, _, _, _. split; [vm_compute; reflexivity|].
  split; [vm_compute; reflexivity|]. split; [reflexivity|]. split; [reflexivity|].
  intros Hne [= E]. done.
Qed.

(** C5 fails when the first frame has 2^31 payload bytes.  [text]
    serializes it with the 8-byte length 00 00 00 00 80 00 00 00; a fresh
    parser given these bytes and, in the same chunk, the ping frame
    89 01 21 reads the length as 0xFFFFFFFF80000000 and returns nothing,
    and a call with an empty chunk after it returns nothing either. *)
Theorem leftover_bytes_withheld_at_2GiB (m_frame0 : Frame) (ff : FrameFactory.t) :
  ∃ f1 ff' p,
    FrameFactory.text true false (replicate (Z.to_nat (2 ^ 31)) Byte.x00) ff
    = Some (f1, ff')
    ∧ FrameParser.update (f1 ++ [Byte.x89; Byte.x01; Byte.x21])
        (FrameParser.new m_frame0) = Some (None, p)
    ∧ FrameParser.update [] p = Some (None, p)
    ∧ FrameParser.m_parse_stage p = PAYLOAD_DATA
    ∧ FrameParser.m_payload_len p = 18446744071562067968.
Proof.
  apply first_frame_withheld; [|done].
  unfold zlen. rewrite length_replicate. apply Z2Nat.id. lia.
Qed.

(** C8.  After every sequence of [update] calls (on any chunk, empty ones
    included, or with the flag) and [clear] calls on a fresh parser,
    whatever its [m_frame] held, the parse cursor is at most the write
    cursor of the buffer. *)
Theorem parse_cursor_within_buffer (m_frame0 : Frame) (ops : list parser_op) :
  ∃ p,
    apply_ops ops (FrameParser.new m_frame0) = Some p
    ∧ FrameParser.m_ptr p <= FrameBuffer.size (FrameParser.m_frame_buffer p).
Proof.
  destruct (apply_ops_wf ops (FrameParser.new m_frame0) (new_wf m_frame0))
    as (p & E & _ & H & _).
  by exists p.
Qed.

(** ** The factory and the buffer *)

(** C4.  [ping], [pong] and [close] throw if and only if the payload is
    longer than 125 bytes; the factory, its buffer included, is then as it
    was before the call; with at most 125 bytes they return a frame. *)
Theorem control_payload_too_large :
  rejects_above_125 Opcode.PING FrameFactory.ping
  ∧ rejects_above_125 Opcode.PONG FrameFactory.pong
  ∧ rejects_above_125 Opcode.CLOSE FrameFactory.close.
Proof.
  split; [|split].
  - by apply (rejects_above_125_intro _ "Payload should be <= 125 for ping frames").
  - by apply (rejects_above_125_intro _ "Payload should be <= 125 for pong frames").
  - by apply (rejects_above_125_intro _ "Payload should be <= 125 for close frames").
Qed.

(** C6 (as amended).  [ensure_fit] called with a size [n] above the capacity
    makes the capacity exactly [n]; otherwise the capacity stays. *)
Theorem ensure_fit_grows_to_fit (n : Z) (b : FrameBuffer.t) :
  FrameBuffer.capacity (FrameBuffer.ensure_fit n b)
  = if FrameBuffer.capacity b <? n then n else FrameBuffer.capacity b.
Proof. apply ensure_fit_capacity. Qed.

(** C6 (as stated) fails: a buffer of capacity 4096 asked to fit 4097 bytes
    gets capacity 4097, not the larger of 8192 and 4097. *)
Lemma ensure_fit_does_not_double :
  FrameBuffer.capacity (FrameBuffer.new 4096) < 4097
  ∧ FrameBuffer.capacity (FrameBuffer.ensure_fit 4097 (FrameBuffer.new 4096))
    ≠ Z.max (2 * FrameBuffer.capacity (FrameBuffer.new 4096)) 4097.
Proof. by vm_compute. Qed.

(** C7.  [text(true, false, "Hello World")] returns the 13 bytes 0x81, 0x0B
    and the 11 bytes of the payload, whatever the factory held before. *)
Theorem text_hello_world (ff : FrameFactory.t) :
  ∃ ff',
    FrameFactory.text true false (list_byte_of_string "Hello World") ff
    = Some (Byte.x81 :: Byte.x0b :: list_byte_of_string "Hello World", ff')
    ∧ length (Byte.x81 :: Byte.x0b :: list_byte_of_string "Hello World") = 13%nat.
Proof.
  unfold FrameFactory.text.
  destruct (FrameFactory_construct_spec true Opcode.TEXT false
              (list_byte_of_string "Hello World") ff) as (key & ff' & -> & _ & _).
  exists ff'. split; reflexivity.
Qed.

(** C9.  [Frame::construct] runs without a store outside the vector: it
    first makes the capacity at least the payload length plus 114, then
    writes 1 + (1, 3 or 9) + (4 if masked) + payload-length bytes, at most
    the payload length plus 14, and leaves the write cursor within the
    capacity. *)
Theorem construct_within_capacity (f : Frame) (buf : FrameBuffer.t) :
  ∃ buf',
    Frame_construct f buf = Some buf'
    ∧ FrameBuffer.capacity buf'
      = FrameBuffer.capacity
          (FrameBuffer.ensure_fit (zlen (payload f) + 14 + 100) (FrameBuffer.reset buf))
    ∧ zlen (payload f) + 114 <= FrameBuffer.capacity buf'
    ∧ FrameBuffer.size buf'
      = 1 + (if zlen (payload f) <? 126 then 1
             else if zlen (payload f) <=? 65535 then 3 else 9)
          + (if mask f then 4 else 0) + zlen (payload f)
    ∧ FrameBuffer.size buf' <= zlen (payload f) + 14
    ∧ FrameBuffer.size buf' <= FrameBuffer.capacity buf'.
Proof.
  destruct (Frame_construct_spec f buf) as (b & E & Hw).
  exists b. split; [done|].
  pose proof (written_capacity _ _ _ Hw) as Hc.
  pose proof (written_size _ _ _ Hw) as Hs.
  pose proof (length_wire f) as Hl. pose proof (length_wire_le f) as Hle.
  pose proof (ensure_fit_capacity (zlen (payload f) + 14 + 100) (FrameBuffer.reset buf)) as Hcap.
  assert (zlen (payload f) + 114 <= FrameBuffer.capacity b).
  { rewrite Hc, Hcap. destruct (Z.ltb_spec (FrameBuffer.capacity (FrameBuffer.reset buf))
      (zlen (payload f) + 14 + 100)); lia. }
  rewrite Hs, <- Hl. repeat split; [done | done | done | lia].
Qed.

(** C10.  A frame returned by [ping], [pong] or [close] is final: bit 0x80
    of its first byte is set.  (These calls pass [fin = true] and take no
    argument for it.) *)
Theorem control_frames_are_final mask payload ff bytes ff' :
  FrameFactory.ping mask payload ff = Some (Returned bytes, ff')
  ∨ FrameFactory.pong mask payload ff = Some (Returned bytes, ff')
  ∨ FrameFactory.close mask payload ff = Some (Returned bytes, ff') →
  ∃ first rest,
    bytes = first :: rest ∧ Z.land (byte.unsigned first) 128 = 128.
Proof.
  unfold FrameFactory.ping, FrameFactory.pong, FrameFactory.close.
  destruct (zlen payload >? 125); [by intros [|[|]]|].
  intros [H|[H|H]]; apply returned_Returned in H.
  - destruct (FrameFactory_construct_spec true Opcode.PING mask payload ff)
      as (key & ff1 & E & _ & _).
    rewrite E in H. injection H as <- _. eexists _, _. split; [reflexivity|].
    by apply wire_first_fin.
  - destruct (FrameFactory_construct_spec true Opcode.PONG mask payload ff)
      as (key & ff1 & E & _ & _).
    rewrite E in H. injection H as <- _. eexists _, _. split; [reflexivity|].
    by apply wire_first_fin.
  - destruct (FrameFactory_construct_spec true Opcode.CLOSE mask payload ff)
      as (key & ff1 & E & _ & _).
    rewrite E in H. injection H as <- _. eexists _, _. split; [reflexivity|].
    by apply wire_first_fin.
Qed.

Lemma control_frames_are_final_witness :
  ∃ first rest,
    [Byte.x89; Byte.x02; Byte.x68; Byte.x69] = first :: rest
    ∧ Z.land (byte.unsigned first) 128 = 128.
Proof.
  apply (control_frames_are_final false [Byte.x68; Byte.x69] (FrameFactory.new 1 2 16)
           [Byte.x89; Byte.x02; Byte.x68; Byte.x69]
           (FrameFactory.mk
              (FrameBuffer.mk
                 ([Byte.x89; Byte.x02; Byte.x68; Byte.x69] ++ replicate 112 Byte.x00) 4)
              (RandomCache.new 1 2))).
  left. vm_compute. reflexivity.
Defined.

(** ** The generator and the key cache *)

(** X4.  [XorShift128Plus]: whatever the two 64-bit seeds (both zero
    included, which the constructor replaces by 0 and 1), after any number
    of calls of [next64] the state is two 64-bit words that are not both
    zero, and the next result is a 64-bit word.  The generator never gets
    stuck in the all-zero state, from which every result would be zero. *)
Theorem generator_state_never_zero (seed1 seed2 : Z) (n : nat) :
  word64 seed1 → word64 seed2 →
  let g := after_draws n (XorShift128Plus.new seed1 seed2) in
  word64 (XorShift128Plus.s0 g) ∧ word64 (XorShift128Plus.s1 g)
  ∧ (XorShift128Plus.s0 g ≠ 0 ∨ XorShift128Plus.s1 g ≠ 0)
  ∧ word64 (XorShift128Plus.next64 g).1.
Proof.
  intros H1 H2 g. destruct (XorShift128Plus_new_state seed1 seed2 H1 H2) as (N0 & N1 & Nnz).
  destruct (after_draws_state n _ N0 N1 Nnz) as (I0 & I1 & Inz).
  split; [done|]. split; [done|]. split; [done|].
  by destruct (next64_word64 _ I0 I1) as (? & _).
Qed.

Lemma generator_state_never_zero_witness :
  word64 (XorShift128Plus.s0 (after_draws 3 (XorShift128Plus.new 0 0)))
  ∧ word64 (XorShift128Plus.s1 (after_draws 3 (XorShift128Plus.new 0 0)))
  ∧ (XorShift128Plus.s0 (after_draws 3 (XorShift128Plus.new 0 0)) ≠ 0
     ∨ XorShift128Plus.s1 (after_draws 3 (XorShift128Plus.new 0 0)) ≠ 0)
  ∧ word64 (XorShift128Plus.next64 (after_draws 3 (XorShift128Plus.new 0 0))).1.
Proof. apply (generator_state_never_zero 0 0 3); unfold word64; lia. Defined.

(** X5.  [fill_bytes(buf, n)] writes exactly [n] bytes: the first [n] bytes
    of the results of [(n + 7) / 8] successive calls of [next64], each laid
    out in little-endian order (the last result cut short when [n] is not a
    multiple of 8); the generator is left after those calls. *)
Theorem fill_bytes_writes_n_bytes (n : Z) (g : XorShift128Plus.t) :
  0 <= n →
  XorShift128Plus.fill_bytes n g
  = (take (Z.to_nat n)
       (concat (map (le_bytes 8) (draws (Z.to_nat ((n + 7) / 8)) g).1)),
     after_draws (Z.to_nat ((n + 7) / 8)) g)
  ∧ zlen (XorShift128Plus.fill_bytes n g).1 = n.
Proof. intros Hn. split; [by apply fill_bytes_draws | by apply zlen_fill_bytes]. Qed.

Lemma fill_bytes_writes_n_bytes_witness :
  XorShift128Plus.fill_bytes 11 (XorShift128Plus.new 1 2)
  = (take (Z.to_nat 11)
       (concat (map (le_bytes 8)
          (draws (Z.to_nat ((11 + 7) / 8)) (XorShift128Plus.new 1 2)).1)),
     after_draws (Z.to_nat ((11 + 7) / 8)) (XorShift128Plus.new 1 2))
  ∧ zlen (XorShift128Plus.fill_bytes 11 (XorShift128Plus.new 1 2)).1 = 11.
Proof. apply (fill_bytes_writes_n_bytes 11 (XorShift128Plus.new 1 2)). lia. Defined.

(** X6.  [RandomCache<8>]: the constructor and [fill_cache] leave a cache
    of 32 bytes with the cursor at 0.  On a cache of 32 bytes with the
    cursor at a multiple of 4 up to 32 [get] returns the four bytes at the
    cursor, which lie inside the cache, and moves the cursor on by 4; it
    refills first exactly when the cursor stands at 32, that is after 8
    keys, and then returns the first four new bytes. *)
Theorem random_cache_get_within_cache :
  (∀ seed1 seed2,
     cache_ok (RandomCache.new seed1 seed2)
     ∧ RandomCache.m_cache_ptr (RandomCache.new seed1 seed2) = 0)
  ∧ (∀ c,
       cache_ok (RandomCache.fill_cache c)
       ∧ RandomCache.m_cache_ptr (RandomCache.fill_cache c) = 0)
  ∧ (∀ c, cache_ok c →
       ∃ key c',
         RandomCache.get c = (key, c')
         ∧ cache_ok c'
         ∧ 4 <= RandomCache.m_cache_ptr c'
         ∧ array4_data key
           = slice (RandomCache.m_cache_ptr c' - 4) 4 (RandomCache.m_cache c')
         ∧ c' = (if 32 <=? RandomCache.m_cache_ptr c
                 then RandomCache.mk (RandomCache.m_random (RandomCache.fill_cache c))
                        (RandomCache.m_cache (RandomCache.fill_cache c)) 4
                 else RandomCache.mk (RandomCache.m_random c) (RandomCache.m_cache c)
                        (RandomCache.m_cache_ptr c + 4))).
Proof.
  split; [|split].
  - intros. unfold RandomCache.new. apply fill_cache_ok.
  - intros. apply fill_cache_ok.
  - apply RandomCache_get_spec.
Qed.

(** ** More on the buffer *)

(** X7.  [ensure_fit] keeps the cursor and every byte of the storage and
    appends zero bytes up to the size asked for (none when the capacity
    suffices); two calls in a row amount to one call with the larger
    size. *)
Theorem ensure_fit_keeps_contents (a b : Z) (x : FrameBuffer.t) :
  FrameBuffer.ensure_fit a x
  = FrameBuffer.mk
      (FrameBuffer.m_buf x ++ replicate (Z.to_nat (a - FrameBuffer.capacity x)) Byte.x00)
      (FrameBuffer.m_ptr x)
  ∧ FrameBuffer.ensure_fit a (FrameBuffer.ensure_fit b x)
    = FrameBuffer.ensure_fit (Z.max a b) x.
Proof. split; [apply ensure_fit_eq | apply ensure_fit_ensure_fit]. Qed.

(** X8.  [push_back] of a view on a buffer whose cursor is within its
    capacity never stores outside the vector: it appends the bytes of the
    view to what the buffer holds, moves the cursor by their number, and
    leaves the capacity at the larger of the old capacity and the new
    size. *)
Theorem push_back_view_appends (v : list byte) (b : FrameBuffer.t) :
  0 <= FrameBuffer.m_ptr b <= FrameBuffer.capacity b →
  ∃ b', FrameBuffer.push_back_view v b = Some b'
    ∧ FrameBuffer.view b' = FrameBuffer.view b ++ v
    ∧ FrameBuffer.size b' = FrameBuffer.size b + zlen v
    ∧ FrameBuffer.capacity b'
      = Z.max (FrameBuffer.capacity b) (FrameBuffer.size b + zlen v).
Proof. apply push_back_view_full. Qed.

Lemma push_back_view_appends_witness :
  ∃ b', FrameBuffer.push_back_view [Byte.x03; Byte.x04; Byte.x05]
          (FrameBuffer.mk [Byte.x01; Byte.x02; Byte.x00; Byte.x00] 2) = Some b'
    ∧ FrameBuffer.view b'
      = FrameBuffer.view (FrameBuffer.mk [Byte.x01; Byte.x02; Byte.x00; Byte.x00] 2)
        ++ [Byte.x03; Byte.x04; Byte.x05]
    ∧ FrameBuffer.size b'
      = FrameBuffer.size (FrameBuffer.mk [Byte.x01; Byte.x02; Byte.x00; Byte.x00] 2)
        + zlen [Byte.x03; Byte.x04; Byte.x05]
    ∧ FrameBuffer.capacity b'
      = Z.max (FrameBuffer.capacity (FrameBuffer.mk [Byte.x01; Byte.x02; Byte.x00; Byte.x00] 2))
          (FrameBuffer.size (FrameBuffer.mk [Byte.x01; Byte.x02; Byte.x00; Byte.x00] 2)
           + zlen [Byte.x03; Byte.x04; Byte.x05]).
Proof.
  apply (push_back_view_appends [Byte.x03; Byte.x04; Byte.x05]
           (FrameBuffer.mk [Byte.x01; Byte.x02; Byte.x00; Byte.x00] 2)).
  by vm_compute.
Defined.

(** X9.  [push_back] of single bytes never grows the buffer: a run of
    such calls appends the bytes and keeps the capacity while they fit, and
    stores outside the vector as soon as the cursor stands at the
    capacity. *)
Theorem push_back_never_grows (xs : list byte) (b : FrameBuffer.t) :
  0 <= FrameBuffer.m_ptr b <= FrameBuffer.capacity b →
  (FrameBuffer.size b + zlen xs <= FrameBuffer.capacity b →
   ∃ b', push_back_all xs b = Some b'
     ∧ FrameBuffer.view b' = FrameBuffer.view b ++ xs
     ∧ FrameBuffer.size b' = FrameBuffer.size b + zlen xs
     ∧ FrameBuffer.capacity b' = FrameBuffer.capacity b)
  ∧ (FrameBuffer.capacity b < FrameBuffer.size b + zlen xs →
     push_back_all xs b = None).
Proof.
  intros Hb. pose proof (push_back_all_spec xs b Hb) as H.
  destruct (Z.leb_spec (FrameBuffer.size b + zlen xs) (FrameBuffer.capacity b));
    split; intros; (done || lia).
Qed.

Lemma push_back_never_grows_witness :
  (FrameBuffer.size (FrameBuffer.new 2) + zlen [Byte.x01; Byte.x02; Byte.x03]
   <= FrameBuffer.capacity (FrameBuffer.new 2) →
   ∃ b', push_back_all [Byte.x01; Byte.x02; Byte.x03] (FrameBuffer.new 2) = Some b'
     ∧ FrameBuffer.view b'
       = FrameBuffer.view (FrameBuffer.new 2) ++ [Byte.x01; Byte.x02; Byte.x03]
     ∧ FrameBuffer.size b'
       = FrameBuffer.size (FrameBuffer.new 2) + zlen [Byte.x01; Byte.x02; Byte.x03]
     ∧ FrameBuffer.capacity b' = FrameBuffer.capacity (FrameBuffer.new 2))
  ∧ (FrameBuffer.capacity (FrameBuffer.new 2)
     < FrameBuffer.size (FrameBuffer.new 2) + zlen [Byte.x01; Byte.x02; Byte.x03] →
     push_back_all [Byte.x01; Byte.x02; Byte.x03] (FrameBuffer.new 2) = None).
Proof.
  apply (push_back_never_grows [Byte.x01; Byte.x02; Byte.x03] (FrameBuffer.new 2)).
  by vm_compute.
Defined.

(** ** The bytes of a frame *)

(** X10.  [FrameFactory::construct] (and with it [text] and [binary]) never
    fails and returns, whatever the factory held before, exactly the bytes
    [wire]: the first byte made of [fin] and the low four bits of the opcode,
    the length in 1, 3 or 9 bytes, then with [mask] the four key bytes and
    the payload XORed with them, and without it the payload as it is.  The
    buffer of the factory holds these bytes afterwards.  The key is the
    next one of the cache, which is left untouched when [mask] is
    false. *)
Theorem construct_wire_format (fin0 mask0 : bool) (opcode0 : Opcode)
    (data : list byte) (ff : FrameFactory.t) :
  ∃ ff',
    FrameFactory.construct fin0 opcode0 mask0 data ff
    = Some (wire (mk_Frame fin0 mask0 opcode0
                    (if mask0 then (RandomCache.get (FrameFactory.m_random ff)).1
                     else masking_key Frame_zero) data), ff')
    ∧ FrameBuffer.view (FrameFactory.m_buf ff')
      = wire (mk_Frame fin0 mask0 opcode0
                (if mask0 then (RandomCache.get (FrameFactory.m_random ff)).1
                 else masking_key Frame_zero) data)
    ∧ FrameFactory.m_random ff'
      = (if mask0 then (RandomCache.get (FrameFactory.m_random ff)).2
         else FrameFactory.m_random ff).
Proof. apply construct_spec_full. Qed.

(** X11.  The header [construct] writes, read as the protocol lays it out:
    bit 7 of the first byte is [fin], bits 4 to 6 (RSV1-3) are zero, the low
    four bits are the opcode modulo 16; bit 7 of the second byte is [mask];
    its low 7 bits are the payload length below 126, and else 126 followed
    by 2 bytes or 127 followed by 8 bytes whose big-endian value is the
    payload length (two bytes up to 65535); what follows has 4 bytes more
    than the payload with [mask] and as many without. *)
Theorem construct_header (fin0 mask0 : bool) (opcode0 : Opcode)
    (data : list byte) (ff : FrameFactory.t) :
  zlen data < 2 ^ 64 →
  ∃ first second ext body ff',
    FrameFactory.construct fin0 opcode0 mask0 data ff
    = Some (first :: second :: ext ++ body, ff')
    ∧ Z.land (byte.unsigned first) 128 = (if fin0 then 128 else 0)
    ∧ Z.land (byte.unsigned first) 112 = 0
    ∧ Z.land (byte.unsigned first) 15 = byte.unsigned opcode0 mod 16
    ∧ Z.land (byte.unsigned second) 128 = (if mask0 then 128 else 0)
    ∧ zlen body = (if mask0 then 4 else 0) + zlen data
    ∧ (if zlen data <? 126
       then Z.land (byte.unsigned second) 127 = zlen data ∧ ext = []
       else if zlen data <=? 65535
       then Z.land (byte.unsigned second) 127 = 126
            ∧ length ext = 2%nat ∧ be_value ext = zlen data
       else Z.land (byte.unsigned second) 127 = 127
            ∧ length ext = 8%nat ∧ be_value ext = zlen data).
Proof.
  intros Hn.
  destruct (construct_spec_full fin0 opcode0 mask0 data ff) as (ff' & E & _ & _).
  destruct (wire_header (mk_Frame fin0 mask0 opcode0
              (if mask0 then (RandomCache.get (FrameFactory.m_random ff)).1
               else masking_key Frame_zero) data) Hn)
    as (first & second & ext & body & Ew & H).
  rewrite Ew in E. by exists first, second, ext, body, ff'.
Qed.

Lemma construct_header_witness :
  ∃ first second ext body ff',
    FrameFactory.construct true Opcode.BINARY true (replicate 300 Byte.x41)
      (FrameFactory.new 1 2 16)
    = Some (first :: second :: ext ++ body, ff')
    ∧ Z.land (byte.unsigned first) 128 = 128
    ∧ Z.land (byte.unsigned first) 112 = 0
    ∧ Z.land (byte.unsigned first) 15 = byte.unsigned Opcode.BINARY mod 16
    ∧ Z.land (byte.unsigned second) 128 = 128
    ∧ zlen body = 4 + zlen (replicate 300 Byte.x41)
    ∧ Z.land (byte.unsigned second) 127 = 126
      ∧ length ext = 2%nat ∧ be_value ext = zlen (replicate 300 Byte.x41).
Proof.
  apply (construct_header true true Opcode.BINARY (replicate 300 Byte.x41)
           (FrameFactory.new 1 2 16)).
  by vm_compute.
Defined.

(** X12.  A frame returned by [ping], [pong] or [close] has the short
    header: its payload has at most 125 bytes, the low 7 bits of its second
    byte are the payload length, and it has 2 bytes more than the payload,
    and 4 more for the key with [mask]; at most 131 bytes. *)
Theorem control_frames_have_short_header (mask0 : bool) (data : list byte)
    (ff : FrameFactory.t) (bytes : list byte) (ff' : FrameFactory.t) :
  FrameFactory.ping mask0 data ff = Some (Returned bytes, ff')
  ∨ FrameFactory.pong mask0 data ff = Some (Returned bytes, ff')
  ∨ FrameFactory.close mask0 data ff = Some (Returned bytes, ff') →
  zlen data <= 125
  ∧ zlen bytes = 2 + (if mask0 then 4 else 0) + zlen data
  ∧ zlen bytes <= 131
  ∧ ∃ second, bytes !! 1%nat = Some second
      ∧ Z.land (byte.unsigned second) 127 = zlen data.
Proof.
  unfold FrameFactory.ping, FrameFactory.pong, FrameFactory.close.
  destruct (Z.gtb_spec (zlen data) 125) as [|Hle]; [by intros [|[|]]|].
  pose proof (zlen_nonneg data) as H0.
  assert (Hgen : ∀ opcode0,
    FrameFactory.construct true opcode0 mask0 data ff = Some (bytes, ff') →
    zlen data <= 125
    ∧ zlen bytes = 2 + (if mask0 then 4 else 0) + zlen data
    ∧ zlen bytes <= 131
    ∧ ∃ second, bytes !! 1%nat = Some second
        ∧ Z.land (byte.unsigned second) 127 = zlen data).
  { intros opcode0 H.
    destruct (construct_spec_full true opcode0 mask0 data ff) as (ff1 & E & _ & _).
    rewrite E in H. injection H as <- _.
    split; [done|]. rewrite length_wire. cbn [payload mask].
    destruct (Z.ltb_spec (zlen data) 126); [|lia].
    split; [lia|]. split; [destruct mask0; lia|].
    unfold wire, wire_length. cbn [payload mask].
    destruct (Z.ltb_spec (zlen data) 126); [|lia].
    eexists. split; [reflexivity|].
    rewrite (unsigned_of_Z_small (zlen data)) by lia.
    by destruct (second_byte_fields mask0 (zlen data)) as (_ & ?); [lia|]. }
  intros [H|[H|H]]; apply returned_Returned in H; by eapply Hgen.
Qed.

Lemma control_frames_have_short_header_witness :
  zlen [Byte.x68; Byte.x69] <= 125
  ∧ zlen [Byte.x89; Byte.x02; Byte.x68; Byte.x69]
    = 2 + 0 + zlen [Byte.x68; Byte.x69]
  ∧ zlen [Byte.x89; Byte.x02; Byte.x68; Byte.x69] <= 131
  ∧ ∃ second, [Byte.x89; Byte.x02; Byte.x68; Byte.x69] !! 1%nat = Some second
      ∧ Z.land (byte.unsigned second) 127 = zlen [Byte.x68; Byte.x69].
Proof.
  apply (control_frames_have_short_header false [Byte.x68; Byte.x69]
           (FrameFactory.new 1 2 16)
           [Byte.x89; Byte.x02; Byte.x68; Byte.x69]
           (FrameFactory.mk
              (FrameBuffer.mk
                 ([Byte.x89; Byte.x02; Byte.x68; Byte.x69] ++ replicate 112 Byte.x00) 4)
              (RandomCache.new 1 2))).
  left. vm_compute. reflexivity.
Defined.

(** ** What the parser accepts and returns *)

(** X13.  What the parser takes for a frame.  For any first byte [x] and
    second byte [y], a length field that fits [y] (nothing below 126, two
    bytes after 126, eight bytes for a value below 2^31 after 127), a key
    present exactly when bit 7 of [y] is set, and as many payload bytes as
    the length says, a fresh parser given these bytes returns a frame with
    [fin] = bit 7 of [x], the opcode = the low four bits of [x], [mask] =
    bit 7 of [y], and the payload as it stands on the wire (not unmasked).
    Its [masking_key] is the key on the wire when there is one; without a
    mask it is left as it was, which after the constructor is whatever
    [m_frame] held.  Bits 4 to 6 of [x] do not matter, any opcode is taken,
    and a two-byte length may be one that fits a shorter form.  (In the
    eight-byte form the bytes shifted by 32 bits or more are zero; the
    shift of an [int] by such a count is the one of [int_shl].) *)
Theorem parser_accepts_any_header (m_frame0 : Frame) (x y : byte) (ext : list byte)
    (key : array4) (data : list byte) :
  length_field y ext (zlen data) →
  decodes_to m_frame0 (frame_bytes x y ext key data)
    (mk_Frame (flag x) (flag y) (byte.of_Z (Z.land (byte.unsigned x) 15))
       (if flag y then key else masking_key m_frame0) data).
Proof.
  intros Hlen.
  pose proof (decodes_to_fresh m_frame0 _ _ (frame_bytes_decodes_to x y ext key data Hlen))
    as Hd.
  unfold with_stale_key in Hd. cbn [mask] in Hd. by destruct (flag y).
Qed.

Lemma parser_accepts_any_header_witness :
  decodes_to Frame_0xaa
    (frame_bytes Byte.xf3 Byte.x02 [] (mk_array4 Byte.x01 Byte.x02 Byte.x03 Byte.x04)
       [Byte.x48; Byte.x69])
    (mk_Frame true false Byte.x03 (masking_key Frame_0xaa) [Byte.x48; Byte.x69]).
Proof.
  apply (parser_accepts_any_header Frame_0xaa Byte.xf3 Byte.x02 []
           (mk_array4 Byte.x01 Byte.x02 Byte.x03 Byte.x04) [Byte.x48; Byte.x69]).
  left. by vm_compute.
Defined.

(** X14.  A frame returned by [update], in any state the parser can be
    in, whatever its [m_frame] held at construction: the parser is at
    stage [DONE] and holds that frame, the opcode is
    below 16, and the payload is the [m_payload_len] bytes of the buffer
    that end at the parse cursor, which is within the bytes written. *)
Theorem returned_frame_is_a_view (m_frame0 : Frame) (ops : list parser_op)
    (chunk : list byte) :
  ∃ p r p',
    apply_ops ops (FrameParser.new m_frame0) = Some p
    ∧ FrameParser.update chunk p = Some (r, p')
    ∧ ∀ F, r = Some F →
        FrameParser.m_parse_stage p' = DONE
        ∧ FrameParser.m_frame p' = F
        ∧ byte.unsigned (opcode F) < 16
        ∧ zlen (payload F) = FrameParser.m_payload_len p'
        ∧ FrameParser.m_payload_len p' <= FrameParser.m_ptr p'
        ∧ FrameParser.m_ptr p' <= FrameBuffer.size (FrameParser.m_frame_buffer p')
        ∧ payload F
          = slice (FrameParser.m_ptr p' - FrameParser.m_payload_len p')
              (FrameParser.m_payload_len p')
              (FrameBuffer.m_buf (FrameParser.m_frame_buffer p')).
Proof.
  destruct (apply_ops_new m_frame0 ops) as (p & q & pre & E & Ht & Hl).
  destruct (update_result_shape_lags m_frame0 p q pre chunk Ht Hl) as (r & p' & Hu & H).
  by exists p, r, p'.
Qed.

(** X15.  [opcode_to_string] gives "Opcode::UNKNOWN" exactly for the values
    other than the six named opcodes, and different names for different
    named opcodes. *)
Theorem opcode_to_string_names (c c' : Opcode) :
  (opcode_to_string c = "Opcode::UNKNOWN"%string
   ↔ c ∉ [Opcode.CONTINUATION; Opcode.TEXT; Opcode.BINARY;
          Opcode.CLOSE; Opcode.PING; Opcode.PONG])
  ∧ (opcode_to_string c = opcode_to_string c' →
     opcode_to_string c ≠ "Opcode::UNKNOWN"%string → c = c').
Proof.
  split.
  - assert (Hl : c ∉ [Opcode.CONTINUATION; Opcode.TEXT; Opcode.BINARY;
                      Opcode.CLOSE; Opcode.PING; Opcode.PONG]
                 ↔ c ≠ Opcode.CONTINUATION ∧ c ≠ Opcode.TEXT ∧ c ≠ Opcode.BINARY
                   ∧ c ≠ Opcode.CLOSE ∧ c ≠ Opcode.PING ∧ c ≠ Opcode.PONG).
    { rewrite !not_elem_of_cons. pose proof (not_elem_of_nil c). tauto. }
    rewrite Hl. clear Hl.
    destruct c; cbn [opcode_to_string]; split; intros H;
      first [ reflexivity | discriminate H
            | repeat split; discriminate
            | by destruct H as (?&?&?&?&?&?) ].
  - destruct c; cbn [opcode_to_string]; intros H Hn;
      try (exfalso; apply Hn; reflexivity);
      destruct c'; cbn [opcode_to_string] in H; first [reflexivity | discriminate H].
Qed.

(** ** Chunks and streams *)

(** X16.  The wire form of one frame in chunks, empty ones among them,
    given to a fresh parser: as long as the last chunk is not empty, every
    call of [update] but the last returns nothing and the last returns the
    frame that one call on all the bytes returns on another fresh parser,
    but for the key of a frame without mask: that is what the [m_frame] of
    each parser held at its construction. *)
Theorem chunked_delivery_with_empty_chunks (m_frame1 m_frame2 : Frame)
    (bs : list byte) (F : Frame) (chunks : list (list byte)) (last_chunk : list byte) :
  decodes_to m_frame1 bs F →
  concat (chunks ++ [last_chunk]) = bs →
  last_chunk ≠ [] →
  ∃ p,
    feed (chunks ++ [last_chunk]) (FrameParser.new m_frame2)
    = Some (replicate (length chunks) None
            ++ [Some (with_stale_key (masking_key m_frame2) F)], p).
Proof.
  intros (F0 & Hd & ->)%decodes_to_zero Hbs Hlast.
  destruct (feed_until_complete chunks last_chunk bs F0 Hd Hbs Hlast) as (q & Hfeed).
  destruct (feed_fresh m_frame2 _ _ _ Hfeed) as (p & Hp).
  exists p. by rewrite Hp, first_returned_stale_nones, with_stale_key_twice.
Qed.

Lemma chunked_delivery_with_empty_chunks_witness :
  ∃ p,
    feed ([[]; [Byte.x81]; []; [Byte.x02; Byte.x48]; []] ++ [[Byte.x69]])
      (FrameParser.new Frame_0xaa)
    = Some (replicate (length [[]; [Byte.x81]; []; [Byte.x02; Byte.x48]; []]) None
            ++ [Some (with_stale_key (masking_key Frame_0xaa)
                        (mk_Frame true false Opcode.TEXT (masking_key Frame_zero)
                           [Byte.x48; Byte.x69]))], p).
Proof.
  apply (chunked_delivery_with_empty_chunks Frame_zero Frame_0xaa
           [Byte.x81; Byte.x02; Byte.x48; Byte.x69]
           (mk_Frame true false Opcode.TEXT (masking_key Frame_zero) [Byte.x48; Byte.x69])
           [[]; [Byte.x81]; []; [Byte.x02; Byte.x48]; []] [Byte.x69]).
  - eexists. split; [vm_compute; reflexivity | reflexivity].
  - reflexivity.
  - discriminate.
Defined.

(** X17.  A stream of frames cut into chunks at any places (empty chunks
    and a cut-off end included) and given to a fresh parser: every call of
    [update] succeeds, and the frames the calls return are, in order, the
    first frames of the stream; none is skipped, repeated or altered.  The
    frames are as a parser decodes them whose [m_frame] is zero, as it is
    after [reset]; the first frame returned, when it has no mask, carries
    instead the key bytes [m_frame] held at construction. *)
Theorem frames_returned_in_order (m_frame0 : Frame) (fs : list (list byte * Frame))
    (chunks : list (list byte)) (tl : list byte) :
  on_wire fs → concat chunks ++ tl = stream_of fs →
  ∃ rs p,
    feed chunks (FrameParser.new m_frame0) = Some (rs, p)
    ∧ length rs = length chunks
    ∧ returned_frames rs `prefix_of` first_stale (masking_key m_frame0) (map snd fs).
Proof.
  intros Hfs Hst.
  destruct (feed_stream chunks (FrameParser.new Frame_zero) [] fs tl Hfs tracks_new)
    as (rs & q & pre & out & fs' & Hfeed & Hlen & _ & -> & Hout & _).
  { by destruct pending_nil as [_ ->]. }
  destruct (feed_fresh m_frame0 _ _ _ Hfeed) as (p & Hp).
  exists (first_returned_stale m_frame0 rs), p. split; [done|].
  split; [by rewrite length_first_returned_stale|].
  rewrite returned_frames_first_stale, Hout, map_app.
  apply first_stale_prefix. by apply prefix_app_r.
Qed.

Lemma frames_returned_in_order_witness :
  ∃ rs p,
    feed [[Byte.x81; Byte.x02]; []; [Byte.x48; Byte.x69; Byte.x89]; [Byte.x01]]
      (FrameParser.new Frame_0xaa) = Some (rs, p)
    ∧ length rs
      = length [[Byte.x81; Byte.x02]; []; [Byte.x48; Byte.x69; Byte.x89]; [Byte.x01]]
    ∧ returned_frames rs
      `prefix_of`
      first_stale (masking_key Frame_0xaa)
        (map snd
           [([Byte.x81; Byte.x02; Byte.x48; Byte.x69],
             mk_Frame true false Opcode.TEXT (masking_key Frame_zero) [Byte.x48; Byte.x69]);
            ([Byte.x89; Byte.x01; Byte.x21],
             mk_Frame true false Opcode.PING (masking_key Frame_zero) [Byte.x21])]).
Proof.
  apply (frames_returned_in_order Frame_0xaa
           [([Byte.x81; Byte.x02; Byte.x48; Byte.x69],
             mk_Frame true false Opcode.TEXT (masking_key Frame_zero) [Byte.x48; Byte.x69]);
            ([Byte.x89; Byte.x01; Byte.x21],
             mk_Frame true false Opcode.PING (masking_key Frame_zero) [Byte.x21])]
           [[Byte.x81; Byte.x02]; []; [Byte.x48; Byte.x69; Byte.x89]; [Byte.x01]]
           [Byte.x21]).
  - repeat constructor; (eexists; split; [vm_compute; reflexivity | reflexivity]).
  - reflexivity.
Defined.

(** X18.  After all the bytes of a stream of [n] frames have been given to
    a fresh parser, in any chunks, [n] more calls of [update] with an empty
    chunk bring out every frame that was not yet returned: all in all the
    calls return exactly the frames of the stream, in order, each as a
    parser decodes it whose [m_frame] is zero, but for the key of the first
    frame when it has no mask, which is what [m_frame] held at
    construction. *)
Theorem all_frames_come_out (m_frame0 : Frame) (fs : list (list byte * Frame))
    (chunks : list (list byte)) :
  on_wire fs → concat chunks = stream_of fs →
  ∃ rs p,
    feed (chunks ++ replicate (length fs) []) (FrameParser.new m_frame0) = Some (rs, p)
    ∧ returned_frames rs = first_stale (masking_key m_frame0) (map snd fs).
Proof.
  intros Hfs Hst.
  destruct (feed_all_frames fs chunks Hfs Hst) as (rs & q & Hfeed & Hrs).
  destruct (feed_fresh m_frame0 _ _ _ Hfeed) as (p & Hp).
  exists (first_returned_stale m_frame0 rs), p. split; [done|].
  by rewrite returned_frames_first_stale, Hrs.
Qed.

Lemma all_frames_come_out_witness :
  ∃ rs p,
    feed ([[Byte.x81; Byte.x02; Byte.x48; Byte.x69; Byte.x89; Byte.x01; Byte.x21]]
          ++ replicate 2 []) (FrameParser.new Frame_0xaa) = Some (rs, p)
    ∧ returned_frames rs
      = [mk_Frame true false Opcode.TEXT (masking_key Frame_0xaa) [Byte.x48; Byte.x69];
         mk_Frame true false Opcode.PING (masking_key Frame_zero) [Byte.x21]].
Proof.
  apply (all_frames_come_out Frame_0xaa
           [([Byte.x81; Byte.x02; Byte.x48; Byte.x69],
             mk_Frame true false Opcode.TEXT (masking_key Frame_zero) [Byte.x48; Byte.x69]);
            ([Byte.x89; Byte.x01; Byte.x21],
             mk_Frame true false Opcode.PING (masking_key Frame_zero) [Byte.x21])]
           [[Byte.x81; Byte.x02; Byte.x48; Byte.x69; Byte.x89; Byte.x01; Byte.x21]]).
  - repeat constructor; (eexists; split; [vm_compute; reflexivity | reflexivity]).
  - reflexivity.
Defined.

(** X19.  What [update] leaves in the buffer, in any state the parser can
    be in, whatever its [m_frame] held at construction: the bytes not yet dealt with (those behind the parse cursor after
    a complete frame, all of them otherwise) followed by the new chunk; the
    bytes of a frame returned earlier are dropped. *)
Theorem update_keeps_unparsed_bytes (m_frame0 : Frame) (ops : list parser_op)
    (chunk : list byte) :
  ∃ p r p',
    apply_ops ops (FrameParser.new m_frame0) = Some p
    ∧ FrameParser.update chunk p = Some (r, p')
    ∧ FrameBuffer.view (FrameParser.m_frame_buffer p') = unparsed p ++ chunk
    ∧ FrameBuffer.size (FrameParser.m_frame_buffer p') = zlen (unparsed p ++ chunk).
Proof.
  destruct (apply_ops_new m_frame0 ops) as (p & q & pre & E & Ht & Hl).
  destruct (update_buffer_lags m_frame0 p q pre chunk Ht Hl) as (r & p' & Hu & H).
  by exists p, r, p'.
Qed.

(** X20.  [update(false)] does what [update] does with an empty view, in
    every state.  [update(true)] does so in the states that calls of
    [update], [update(bool)] and [clear] lead to from a fresh parser, that
    is as long as no bytes were claimed through [frame_buffer()] since the
    last call; and when no complete frame is held there, such a call
    returns nothing and leaves the parser exactly as it was.  After bytes
    were claimed through [frame_buffer()] the two differ: with 81 02 given
    to [update] and 48 69 written in place, [update(true)] returns the
    frame and [update] with an empty view returns nothing. *)
Theorem update_without_bytes (m_frame0 : Frame) (ops : list parser_op) :
  (∀ p, FrameParser.update_bool false p = FrameParser.update [] p)
  ∧ (∃ p,
       apply_ops ops (FrameParser.new m_frame0) = Some p
       ∧ FrameParser.update_bool true p = FrameParser.update [] p
       ∧ (FrameParser.done p = false → FrameParser.update [] p = Some (None, p)))
  ∧ (∃ p p' F q,
       FrameParser.update [Byte.x81; Byte.x02] (FrameParser.new m_frame0) = Some (None, p)
       ∧ FrameParser.through_frame_buffer
           (λ fb,
              let fb := FrameBuffer.ensure_extra_space 2 fb in
              fb ← FrameBuffer.store_bytes (FrameBuffer.tail fb) [Byte.x48; Byte.x69] fb;
              Some (FrameBuffer.claim_space 2 fb)) p = Some p'
       ∧ FrameParser.update_bool true p' = Some (Some F, q)
       ∧ payload F = [Byte.x48; Byte.x69]
       ∧ FrameParser.update [] p' = Some (None, p')).
Proof.
  split; [|split].
  - intros p. unfold FrameParser.update_bool, FrameParser.update.
    by destruct (if FrameParser.done p then _ else _).
  - destruct (apply_ops_new m_frame0 ops) as (p & q & pre & E & Ht & Hl).
    exists p. split; [done|]. by apply (update_idle_lags m_frame0 p q pre).
  - eexists _, _, _, _. split; [vm_compute; reflexivity|].
    split; [vm_compute; reflexivity|]. split; [vm_compute; reflexivity|].
    split; [reflexivity|]. vm_compute. reflexivity.
Qed.



(** X23.  The buffer of the parser grows only as far as needed and never
    shrinks: after [update], in any state the parser can be in (whatever
    its [m_frame] held at construction), its capacity
    is the larger of the capacity before the call and the number of bytes
    it holds after it. *)
Theorem parser_buffer_grows_to_fit (m_frame0 : Frame) (ops : list parser_op)
    (chunk : list byte) :
  ∃ p r p',
    apply_ops ops (FrameParser.new m_frame0) = Some p
    ∧ FrameParser.update chunk p = Some (r, p')
    ∧ FrameBuffer.capacity (FrameParser.m_frame_buffer p')
      = Z.max (FrameBuffer.capacity (FrameParser.m_frame_buffer p))
          (FrameBuffer.size (FrameParser.m_frame_buffer p')).
Proof.
  destruct (apply_ops_wf ops (FrameParser.new m_frame0) (new_wf m_frame0))
    as (p & E & Hwf).
  destruct (update_capacity chunk p Hwf) as (r & p' & Hu & H).
  by exists p, r, p'.
Qed.

(** X24.  Round trip of a stream: frames built by successive calls of
    [construct], each with an opcode of at most four bits and a payload of
    less than 2^31 bytes, whose bytes are sent one after the other and
    given to a fresh parser in any chunks, come back in order, with the
    same [fin], opcode and [mask] and with the payload (after XORing with
    the key the frame carries, when masked), once as many calls with an
    empty chunk have followed as there are frames. *)
Theorem stream_roundtrip (m_frame0 : Frame) (reqs : list request)
    (ff : FrameFactory.t) :
  Forall sendable reqs →
  ∃ sent ff',
    construct_all reqs ff = Some (sent, ff')
    ∧ ∀ chunks, concat chunks = concat sent →
        ∃ rs p,
          feed (chunks ++ replicate (length reqs) []) (FrameParser.new m_frame0)
          = Some (rs, p)
          ∧ Forall2 carries (returned_frames rs) reqs.
Proof.
  intros Hall.
  destruct (construct_all_roundtrip reqs ff Hall) as (sent & ff' & E & H).
  exists sent, ff'. split; [done|]. intros chunks Hch.
  destruct (H chunks Hch) as (rs & q & Hfeed & Hcar).
  destruct (feed_fresh m_frame0 _ _ _ Hfeed) as (p & Hp).
  exists (first_returned_stale m_frame0 rs), p. split; [done|].
  rewrite returned_frames_first_stale. by apply carries_first_stale.
Qed.

Lemma stream_roundtrip_witness :
  ∃ sent ff',
    construct_all
      [mk_request true Opcode.TEXT true [Byte.x48; Byte.x69];
       mk_request true Opcode.PING false [Byte.x21]]
      (FrameFactory.new 1 2 16) = Some (sent, ff')
    ∧ ∀ chunks, concat chunks = concat sent →
        ∃ rs p,
          feed (chunks
                ++ replicate
                     (length [mk_request true Opcode.TEXT true [Byte.x48; Byte.x69];
                              mk_request true Opcode.PING false [Byte.x21]]) [])
            (FrameParser.new Frame_0xaa) = Some (rs, p)
          ∧ Forall2 carries (returned_frames rs)
              [mk_request true Opcode.TEXT true [Byte.x48; Byte.x69];
               mk_request true Opcode.PING false [Byte.x21]].
Proof.
  apply (stream_roundtrip Frame_0xaa
           [mk_request true Opcode.TEXT true [Byte.x48; Byte.x69];
            mk_request true Opcode.PING false [Byte.x21]]
           (FrameFactory.new 1 2 16)).
  repeat constructor; by vm_compute.
Defined.

(** X25.  Two frames in one chunk, each below 2^31 payload bytes and with
    any header as in X13, given to a fresh parser: the call returns the
    first frame, a call with an empty chunk returns the second, the buffer
    then holds the bytes of the second frame and nothing else, all of them
    consumed, and one more call with an empty chunk returns nothing and
    leaves the buffer empty.  The frames have the fields of their headers
    and the payloads as on the wire; without a mask the first carries the
    key bytes [m_frame] held at construction and the second a zero key. *)
Theorem leftover_bytes_below_2GiB (m_frame0 : Frame)
    (x1 y1 : byte) (ext1 : list byte) (key1 : array4) (data1 : list byte)
    (x2 y2 : byte) (ext2 : list byte) (key2 : array4) (data2 : list byte) :
  length_field y1 ext1 (zlen data1) → length_field y2 ext2 (zlen data2) →
  ∃ p1 p2 p3,
    FrameParser.update
      (frame_bytes x1 y1 ext1 key1 data1 ++ frame_bytes x2 y2 ext2 key2 data2)
      (FrameParser.new m_frame0)
    = Some (Some (mk_Frame (flag x1) (flag y1)
                    (byte.of_Z (Z.land (byte.unsigned x1) 15))
                    (if flag y1 then key1 else masking_key m_frame0) data1), p1)
    ∧ FrameParser.update [] p1
      = Some (Some (mk_Frame (flag x2) (flag y2)
                      (byte.of_Z (Z.land (byte.unsigned x2) 15))
                      (if flag y2 then key2 else masking_key Frame_zero) data2), p2)
    ∧ FrameBuffer.view (FrameParser.m_frame_buffer p2)
      = frame_bytes x2 y2 ext2 key2 data2
    ∧ FrameParser.m_ptr p2 = zlen (frame_bytes x2 y2 ext2 key2 data2)
    ∧ FrameParser.update [] p2 = Some (None, p3)
    ∧ FrameBuffer.size (FrameParser.m_frame_buffer p3) = 0.
Proof.
  intros H1 H2.
  destruct (two_frames_fresh m_frame0 _ _ _ _
              (frame_bytes_decodes_to x1 y1 ext1 key1 data1 H1)
              (frame_bytes_decodes_to x2 y2 ext2 key2 data2 H2))
    as (p1 & p2 & p3 & Hu1 & Hrest).
  exists p1, p2, p3. split; [|done]. rewrite Hu1.
  unfold with_stale_key. cbn [mask]. by destruct (flag y1).
Qed.

Lemma leftover_bytes_below_2GiB_witness :
  ∃ p1 p2 p3,
    FrameParser.update
      (frame_bytes Byte.x81 Byte.x02 [] (masking_key Frame_zero) [Byte.x48; Byte.x69]
       ++ frame_bytes Byte.x89 Byte.x81 []
            (mk_array4 Byte.x01 Byte.x02 Byte.x03 Byte.x04) [Byte.x20])
      (FrameParser.new Frame_0xaa)
    = Some (Some (mk_Frame true false Opcode.TEXT (masking_key Frame_0xaa)
                    [Byte.x48; Byte.x69]), p1)
    ∧ FrameParser.update [] p1
      = Some (Some (mk_Frame true true Opcode.PING
                      (mk_array4 Byte.x01 Byte.x02 Byte.x03 Byte.x04) [Byte.x20]), p2)
    ∧ FrameBuffer.view (FrameParser.m_frame_buffer p2)
      = frame_bytes Byte.x89 Byte.x81 []
          (mk_array4 Byte.x01 Byte.x02 Byte.x03 Byte.x04) [Byte.x20]
    ∧ FrameParser.m_ptr p2
      = zlen (frame_bytes Byte.x89 Byte.x81 []
                (mk_array4 Byte.x01 Byte.x02 Byte.x03 Byte.x04) [Byte.x20])
    ∧ FrameParser.update [] p2 = Some (None, p3)
    ∧ FrameBuffer.size (FrameParser.m_frame_buffer p3) = 0.
Proof.
  apply (leftover_bytes_below_2GiB Frame_0xaa
           Byte.x81 Byte.x02 [] (masking_key Frame_zero) [Byte.x48; Byte.x69]
           Byte.x89 Byte.x81 [] (mk_array4 Byte.x01 Byte.x02 Byte.x03 Byte.x04)
           [Byte.x20]);
    left; by vm_compute.
Defined.
